(** * Camera / Lidar fusion core of SFND_3D_Object_Tracking

    A shallow embedding of [src/camFusion_Student.cpp]:
    [clusterLidarWithROI], [show3DObjects], [clusterKptMatchesWithROI],
    [computeTTCCamera], [computeTTCLidar] and [matchBoundingBoxes], followed
    by the properties of these functions that the specification states and
    by further properties that the code shows.

    Numbers are modelled as the program has them: C++ [double] and [float]
    are IEEE-754 binary64 and binary32 values with round-to-nearest-even
    arithmetic (the executable specification [SpecFloat] of the standard
    library), C++ [int] values are integers of [Z] together with the range
    checks that the conversions from floating point need.  Operations whose
    behaviour is undefined in C++ (reading a vector out of bounds, integer
    division by zero, converting an out-of-range floating-point value to
    [int]) and the exception of [std::vector::at] end the run with a
    [Fault]. *)

From Stdlib Require Import ZArith List Bool Lia.
From Stdlib Require Import Floats.SpecFloat.
From stdpp Require Import gmap list.

Open Scope Z_scope.

(* ===================================================================== *)
(** * Floating-point and integer arithmetic of the program *)
(* ===================================================================== *)

Module IEEE.

(** [double]: binary64, 53 bits of precision, [emax = 1024]. *)
Definition double := spec_float.
(** [float]: binary32, 24 bits of precision, [emax = 128]. *)
Definition float32 := spec_float.

Definition d_add : double -> double -> double := SFadd 53 1024.
Definition d_sub : double -> double -> double := SFsub 53 1024.
Definition d_mul : double -> double -> double := SFmul 53 1024.
Definition d_div : double -> double -> double := SFdiv 53 1024.
Definition d_sqrt : double -> double := SFsqrt 53 1024.
Definition d_neg : double -> double := SFopp.
Definition d_abs : double -> double := SFabs.

Definition f_sub : float32 -> float32 -> float32 := SFsub 24 128.
Definition f_mul : float32 -> float32 -> float32 := SFmul 24 128.

(** The comparison operators of C++ on floating-point values: every
    comparison with a NaN is false. *)
Definition flt (a b : spec_float) : bool := SFltb a b.
Definition fle (a b : spec_float) : bool := SFleb a b.
Definition fgt (a b : spec_float) : bool :=
  match SFcompare a b with Some Gt => true | _ => false end.
Definition fge (a b : spec_float) : bool :=
  match SFcompare a b with Some (Gt | Eq) => true | _ => false end.

(** Conversion of an integer to [double] and to [float] (rounds when the
    integer has more bits than the mantissa). *)
Definition d_of_Z (z : Z) : double := binary_normalize 53 1024 z 0 false.
Definition f_of_Z (z : Z) : float32 := binary_normalize 24 128 z 0 false.

(** Promotion of a [float] to [double]: exact; the mantissa is brought to
    the canonical binary64 form. *)
Definition f2d (v : float32) : double :=
  match v with
  | S754_finite s m e => binary_normalize 53 1024 (cond_Zopp s (Zpos m)) e false
  | _ => v
  end.

Definition NAN : double := S754_nan.
Definition zero : double := S754_zero false.
Definition one : double := d_of_Z 1.
Definition two : double := d_of_Z 2.

(** The literal [0.7]: the binary64 value nearest to 7/10. *)
Definition c0_7 : double := d_div (d_of_Z 7) (d_of_Z 10).

(** [std::numeric_limits<double>::epsilon()], 2^-52. *)
Definition epsilon : double := S754_finite false 4503599627370496 (-104).

Definition INT_MIN : Z := - 2 ^ 31.
Definition INT_MAX : Z := 2 ^ 31 - 1.

(** The integer part (towards zero) of a finite value. *)
Definition Ztrunc (v : spec_float) : option Z :=
  match v with
  | S754_zero _ => Some 0
  | S754_finite s m e => Some (cond_Zopp s (Z.shiftl (Zpos m) e))
  | _ => None
  end.

(** The nearest integer of a finite value, ties to the even one. *)
Definition Zrne (v : spec_float) : option Z :=
  match v with
  | S754_zero _ => Some 0
  | S754_finite s m e =>
      match e with
      | Zneg k =>
          let q := Z.shiftr (Zpos m) (Zpos k) in
          let r := Zpos m - Z.shiftl q (Zpos k) in
          let up :=
            match Z.compare (2 * r) (Z.shiftl 1 (Zpos k)) with
            | Lt => false
            | Eq => Z.odd q
            | Gt => true
            end in
          Some (cond_Zopp s (if up then q + 1 else q))
      | _ => Some (cond_Zopp s (Z.shiftl (Zpos m) e))
      end
  | _ => None
  end.

Definition in_int_range (z : Z) : bool := (INT_MIN <=? z) && (z <=? INT_MAX).

End IEEE.
Import IEEE.

(* ===================================================================== *)
(** * Outcomes of a run *)
(* ===================================================================== *)

Inductive fault : Type :=
| DivisionByZero      (** integer division by zero *)
| OutOfBounds         (** [operator[]] or an iterator read outside its container *)
| OutOfRangeException (** [std::out_of_range] thrown by [std::vector::at] *)
| ConversionOverflow. (** floating-point value converted to [int] outside its range *)

Inductive outcome (A : Type) : Type :=
| Done (a : A)
| Fault (f : fault).
Arguments Done {A} a.
Arguments Fault {A} f.

Definition bind {A B : Type} (c : outcome A) (k : A -> outcome B) : outcome B :=
  match c with
  | Done a => k a
  | Fault f => Fault f
  end.

Notation "'let*' x ':=' c 'in' k" := (bind c (fun x => k))
  (at level 10, x pattern, c at level 100, k at level 200).

(** Monadic left fold: the body of a [for] loop run over a container. *)
Fixpoint foldM {A S : Type} (body : S -> A -> outcome S) (l : list A) (s : S)
  : outcome S :=
  match l with
  | [] => Done s
  | a :: l' => let* s' := body s a in foldM body l' s'
  end.

(** Implicit conversion of a [double] or [float] to [int]: truncation towards
    zero, undefined when the value does not fit. *)
Definition to_int (v : spec_float) : outcome Z :=
  match Ztrunc v with
  | Some z => if in_int_range z then Done z else Fault ConversionOverflow
  | None => Fault ConversionOverflow
  end.

(** [cv::saturate_cast<int>(float)], that is [cvRound]: the nearest integer. *)
Definition cvRound (v : float32) : outcome Z :=
  match Zrne v with
  | Some z => if in_int_range z then Done z else Fault ConversionOverflow
  | None => Fault ConversionOverflow
  end.

(** [v[i]] on a [std::vector]: no bounds check. *)
Definition index {A : Type} (v : list A) (i : Z) : outcome A :=
  if 0 <=? i then
    match v !! Z.to_nat i with
    | Some a => Done a
    | None => Fault OutOfBounds
    end
  else Fault OutOfBounds.

(** [v.at(i)]: throws [std::out_of_range]. *)
Definition at_ {A : Type} (v : list A) (i : Z) : outcome A :=
  if 0 <=? i then
    match v !! Z.to_nat i with
    | Some a => Done a
    | None => Fault OutOfRangeException
    end
  else Fault OutOfRangeException.

(* ===================================================================== *)
(** * Data model *)
(* ===================================================================== *)

(** [cv::Point], [cv::Point2f], [cv::Rect], [cv::KeyPoint] and [cv::DMatch]
    of OpenCV, reduced to the members the program reads. *)
Record Point : Type := mkPoint { px : Z; py : Z }.
Record Point2f : Type := mkPoint2f { fx : float32; fy : float32 }.
Record Rect : Type := mkRect { rx : Z; ry : Z; width : Z; height : Z }.
Record KeyPoint : Type := mkKeyPoint { pt : Point2f }.
Record DMatch : Type := mkDMatch { queryIdx : Z; trainIdx : Z; distance : float32 }.

(** [cv::Rect::contains]:
    [x <= pt.x && pt.x < x + width && y <= pt.y && pt.y < y + height]. *)
Definition contains (r : Rect) (p : Point) : bool :=
  (rx r <=? px p) && (px p <? rx r + width r) &&
  (ry r <=? py p) && (py p <? ry r + height r).

(** Modelled from the spec: [dataStructures.h], which declares [LidarPoint],
    [BoundingBox] and [DataFrame], is not among the sources.  A RangePoint is
    a 3D position [x] (forward), [y] (left), [z] (up) with a reflectivity
    [r]. *)
Record LidarPoint : Type := mkLidarPoint { x : double; y : double; z : double; r : double }.

(** Modelled from the spec: a Region has an identifier, a rectangle in image
    space, a collection of owned RangePoints and a collection of owned
    correspondences. *)
Record BoundingBox : Type := mkBoundingBox {
  boxID : Z;
  roi : Rect;
  lidarPoints : list LidarPoint;
  kptMatches : list DMatch
}.

(** Modelled from the spec: a Frame aggregates the keypoints and the Regions
    of one image. *)
Record DataFrame : Type := mkDataFrame {
  keypoints : list KeyPoint;
  boundingBoxes : list BoundingBox
}.

(** A [cv::Mat] of [double]: its rows. *)
Definition Mat : Type := list (list double).

(* ===================================================================== *)
(** * clusterLidarWithROI *)
(* ===================================================================== *)

(** The matrix product [A * B] of [cv::Mat]: entry (i, j) is the sum of the
    products of row i of [A] with column j of [B], in binary64. *)
Definition dot (u v : list double) : double :=
  fold_left d_add (zip_with d_mul u v) zero.

Definition column (B : Mat) (j : nat) : list double :=
  map (fun row => nth j row zero) B.

Definition mat_mul (A B : Mat) : Mat :=
  map (fun row => map (fun j => dot row (column B j)) (seq 0 (length (hd [] B)))) A.

(** [M.at<double>(i, j)] as a release build of OpenCV computes it: the
    element [j] places after the start of row [i] in the row-major data, no
    check of [j] against the number of columns. *)
Definition Mat_at (M : Mat) (i j : nat) : outcome double :=
  match concat M !! (i * length (hd [] M) + j)%nat with
  | Some v => Done v
  | None => Fault OutOfBounds
  end.

(** Lines 24-33: the pixel a Lidar point projects to. *)
Definition project (P_rect_xx R_rect_xx RT : Mat) (p : LidarPoint) : outcome Point :=
  let X : Mat := [[x p]; [y p]; [z p]; [one]] in
  let Y := mat_mul (mat_mul (mat_mul P_rect_xx R_rect_xx) RT) X in
  let* y00 := Mat_at Y 0 0 in
  let* y02 := Mat_at Y 0 2 in
  let* ptx := to_int (d_div y00 y02) in
  let* y10 := Mat_at Y 1 0 in
  let* y02' := Mat_at Y 0 2 in
  let* pty := to_int (d_div y10 y02') in
  Done (mkPoint ptx pty).

(** Lines 39-43: the bounding box shrunk by [shrinkFactor].  The products
    with the [float] [shrinkFactor] are binary32 products, the division by
    [2.0] and the sum with [roi.x] are binary64, and each member of the
    [cv::Rect] receives the value truncated to [int]. *)
Definition smallerBox (shrinkFactor : float32) (b : Rect) : outcome Rect :=
  let* sx := to_int (d_add (d_of_Z (rx b))
                       (d_div (f2d (f_mul shrinkFactor (f_of_Z (width b)))) two)) in
  let* sy := to_int (d_add (d_of_Z (ry b))
                       (d_div (f2d (f_mul shrinkFactor (f_of_Z (height b)))) two)) in
  let* sw := to_int (f_mul (f_of_Z (width b)) (f_sub (f_of_Z 1) shrinkFactor)) in
  let* sh := to_int (f_mul (f_of_Z (height b)) (f_sub (f_of_Z 1) shrinkFactor)) in
  Done (mkRect sx sy sw sh).

(** Lines 35-51: the positions (iterators) of the bounding boxes whose shrunk
    rectangle contains the pixel, in the order of the vector. *)
Fixpoint enclosing_from (shrinkFactor : float32) (pixel : Point)
    (it2 : nat) (boxes : list BoundingBox) : outcome (list nat) :=
  match boxes with
  | [] => Done []
  | b :: rest =>
      let* small := smallerBox shrinkFactor (roi b) in
      let* others := enclosing_from shrinkFactor pixel (S it2) rest in
      Done (if contains small pixel then it2 :: others else others)
  end.

Definition enclosingBoxes (shrinkFactor : float32) (pixel : Point)
    (boundingBoxes : list BoundingBox) : outcome (list nat) :=
  enclosing_from shrinkFactor pixel 0 boundingBoxes.

(** [b.lidarPoints.push_back(p)]. *)
Definition push_lidarPoint (p : LidarPoint) (b : BoundingBox) : BoundingBox :=
  mkBoundingBox (boxID b) (roi b) (lidarPoints b ++ [p]) (kptMatches b).

(** Lines 21-60: the body of the loop over the Lidar points. *)
Definition cluster_point (shrinkFactor : float32) (P_rect_xx R_rect_xx RT : Mat)
    (boundingBoxes : list BoundingBox) (p : LidarPoint) : outcome (list BoundingBox) :=
  let* pixel := project P_rect_xx R_rect_xx RT p in
  let* enclosing := enclosingBoxes shrinkFactor pixel boundingBoxes in
  match enclosing with
  | [it2] => Done (alter (push_lidarPoint p) it2 boundingBoxes)
  | _ => Done boundingBoxes
  end.

(** The function returns the bounding boxes as the run leaves them. *)
Definition clusterLidarWithROI (boundingBoxes : list BoundingBox)
    (lidarPoints : list LidarPoint) (shrinkFactor : float32)
    (P_rect_xx R_rect_xx RT : Mat) : outcome (list BoundingBox) :=
  foldM (cluster_point shrinkFactor P_rect_xx R_rect_xx RT) lidarPoints boundingBoxes.

(* ===================================================================== *)
(** * clusterKptMatchesWithROI *)
(* ===================================================================== *)

(** [cv::Point(kpt.pt.x, kpt.pt.y)]: the [float] coordinates are converted
    to the [int] parameters of the constructor, by truncation. *)
Definition keypoint_pixel (kpt : KeyPoint) : outcome Point :=
  let* ix := to_int (fx (pt kpt)) in
  let* iy := to_int (fy (pt kpt)) in
  Done (mkPoint ix iy).

(** Lines 141-150: one turn of the first loop; the state is the pair
    ([kptsRoi], [accDistances]). *)
Definition roi_step (boundingBox : BoundingBox) (kptsCurr : list KeyPoint)
    (st : list DMatch * list double) (eachMatch : DMatch)
  : outcome (list DMatch * list double) :=
  let* kpt := index kptsCurr (trainIdx eachMatch) in
  let* pixel := keypoint_pixel kpt in
  if contains (roi boundingBox) pixel
  then Done (fst st ++ [eachMatch], snd st ++ [f2d (distance eachMatch)])
  else Done st.

(** [std::accumulate(first, last, 0)]: the initial value [0] is an [int], so
    the accumulator is an [int]; every turn computes [acc + *it] in [double]
    and converts the sum back to [int]. *)
Definition accumulate (accDistances : list double) (init : Z) : outcome Z :=
  foldM (fun acc d => to_int (d_add (d_of_Z acc) d)) accDistances init.

(** The quotient [int / size_t] assigned to a [long]: the [int] is converted
    to the unsigned 64-bit type, the division is unsigned, and the quotient
    is read back as a signed 64-bit value. *)
Definition to_unsigned_long (v : Z) : Z := v mod 2 ^ 64.
Definition to_long (u : Z) : Z := if u <? 2 ^ 63 then u else u - 2 ^ 64.

Definition divide_by_size (sum : Z) (size : nat) : outcome Z :=
  if (size =? 0)%nat then Fault DivisionByZero
  else Done (to_long (to_unsigned_long sum / Z.of_nat size)).

(** Lines 154-158: one turn of the second loop. *)
Definition keep_step (threshold : double) (kept : list DMatch) (eachRoiMatch : DMatch)
  : list DMatch :=
  if flt (f2d (distance eachRoiMatch)) threshold then kept ++ [eachRoiMatch] else kept.

(** The function returns the bounding box as the run leaves it.  [kptsPrev]
    is not read. *)
Definition clusterKptMatchesWithROI (boundingBox : BoundingBox)
    (kptsPrev kptsCurr : list KeyPoint) (kptMatches0 : list DMatch)
  : outcome BoundingBox :=
  let* st := foldM (roi_step boundingBox kptsCurr) kptMatches0 ([], []) in
  let kptsRoi := fst st in
  let accDistances := snd st in
  let* sum := accumulate accDistances 0 in
  let* meanDist := divide_by_size sum (length accDistances) in
  let threshold := d_mul c0_7 (d_of_Z meanDist) in
  Done (mkBoundingBox (boxID boundingBox) (roi boundingBox) (lidarPoints boundingBox)
          (fold_left (keep_step threshold) kptsRoi (kptMatches boundingBox))).

(* ===================================================================== *)
(** * computeTTCCamera *)
(* ===================================================================== *)

(** [cv::norm(a - b)] for two [cv::Point2f]: the difference is taken in
    [float], the norm is [sqrt((double)x*x + (double)y*y)]. *)
Definition norm_diff (a b : Point2f) : double :=
  let dx := f2d (f_sub (fx a) (fx b)) in
  let dy := f2d (f_sub (fy a) (fy b)) in
  d_sqrt (d_add (d_mul dx dx) (d_mul dy dy)).

Definition minDist : double := d_of_Z 100.

(** Lines 175-194: one turn of the inner loop. *)
Definition inner_step (kptsPrev kptsCurr : list KeyPoint)
    (kpOuterCurr kpOuterPrev : KeyPoint) (distRatios : list double) (it2 : DMatch)
  : outcome (list double) :=
  let* kpInnerCurr := at_ kptsCurr (trainIdx it2) in
  let* kpInnerPrev := at_ kptsPrev (queryIdx it2) in
  let distCurr := norm_diff (pt kpOuterCurr) (pt kpInnerCurr) in
  let distPrev := norm_diff (pt kpOuterPrev) (pt kpInnerPrev) in
  if fgt distPrev epsilon && fge distCurr minDist
  then Done (distRatios ++ [d_div distCurr distPrev])
  else Done distRatios.

(** Lines 168-195: the outer loop, [for (it1 = begin(); it1 != end() - 1; ++it1)].
    [rest] is the part of [kptMatches] from [it1] to [end()].  The loop stops
    when exactly one element is left ([it1 == end() - 1]).  When none is left,
    which happens only for an empty [kptMatches], the test [it1 != end() - 1]
    holds and the body reads [*it1] outside the vector.  The inner loop runs
    from [begin() + 1] to [end()]. *)
Fixpoint outer_loop (kptsPrev kptsCurr : list KeyPoint) (kptMatches : list DMatch)
    (rest : list DMatch) (distRatios : list double) : outcome (list double) :=
  match rest with
  | [] => Fault OutOfBounds
  | it1 :: rest' =>
      match rest' with
      | [] => Done distRatios
      | _ :: _ =>
          let* kpOuterCurr := at_ kptsCurr (trainIdx it1) in
          let* kpOuterPrev := at_ kptsPrev (queryIdx it1) in
          let* distRatios' :=
            foldM (inner_step kptsPrev kptsCurr kpOuterCurr kpOuterPrev)
                  (tail kptMatches) distRatios in
          outer_loop kptsPrev kptsCurr kptMatches rest' distRatios'
      end
  end.

(** [std::sort] on [double]s with [operator<]. *)
Fixpoint insert_sorted (v : double) (l : list double) : list double :=
  match l with
  | [] => [v]
  | w :: l' => if flt v w then v :: l else w :: insert_sorted v l'
  end.

Definition sort (l : list double) : list double :=
  fold_right insert_sorted [] l.

(** Lines 207-211: the position read as the median. *)
Definition median_index (size : nat) : nat :=
  if (size mod 2 =? 0)%nat then (size / 2 + 1)%nat else (size / 2)%nat.

(** The function returns the value it stores in [TTC]. *)
Definition computeTTCCamera (kptsPrev kptsCurr : list KeyPoint)
    (kptMatches : list DMatch) (frameRate : double) : outcome double :=
  let* distRatios := outer_loop kptsPrev kptsCurr kptMatches kptMatches [] in
  if (length distRatios =? 0)%nat then Done NAN
  else
    let sorted := sort distRatios in
    let* medianDistRatio := index sorted (Z.of_nat (median_index (length sorted))) in
    let dT := d_div one frameRate in
    Done (d_div (d_neg dT) (d_sub one medianDistRatio)).

(* ===================================================================== *)
(** * computeTTCLidar *)
(* ===================================================================== *)

Definition laneWidth : double := d_of_Z 4.

(** Line 238 and line 248: [std::abs(it->y) <= (laneWidth/2.0)]. *)
Definition in_lane (p : LidarPoint) : bool :=
  fle (d_abs (y p)) (d_div laneWidth two).

(** Lines 236-243 and 246-252: one turn of either loop; the state is the
    pair ([minX], [minXSize]). *)
Definition lane_step (st : double * double) (p : LidarPoint) : double * double :=
  if in_lane p
  then ((if fgt (fst st) (x p) then x p else fst st), d_add (snd st) one)
  else st.

(** The function returns the value it stores in [TTC]. *)
Definition computeTTCLidar (lidarPointsPrev lidarPointsCurr : list LidarPoint)
    (frameRate : double) : double :=
  let minX0 := d_of_Z 1000000000 in
  if (length lidarPointsCurr =? 0)%nat || (length lidarPointsPrev =? 0)%nat then NAN
  else
    let stPrev := fold_left lane_step lidarPointsPrev (minX0, zero) in
    let minXPrevSize := snd stPrev in
    let minXPrev := d_div (fst stPrev) minXPrevSize in
    let stCurr := fold_left lane_step lidarPointsCurr (minX0, zero) in
    let minXCurrSize := snd stCurr in
    let minXCurr := d_div (fst stCurr) minXCurrSize in
    let minXPrev' := d_div minXPrev minXPrevSize in
    d_div (d_mul minXCurr (d_div one frameRate)) (d_sub minXPrev' minXCurr).

(* ===================================================================== *)
(** * matchBoundingBoxes *)
(* ===================================================================== *)

(** The implicit conversion of a [cv::Point2f] to the [cv::Point] that
    [cv::Rect::contains] takes: [saturate_cast<int>] on each coordinate. *)
Definition keypoint_pixel_rounded (kpt : KeyPoint) : outcome Point :=
  let* ix := cvRound (fx (pt kpt)) in
  let* iy := cvRound (fy (pt kpt)) in
  Done (mkPoint ix iy).

(** Lines 289-293 and 295-303: one turn of the loop over the boxes of a
    frame; the state is [currID] (or [prevID]).  The last box that contains
    the keypoint wins. *)
Definition box_step (kpts : list KeyPoint) (idx : Z) (id : Z) (eachBox : BoundingBox)
  : outcome Z :=
  let* kpt := index kpts idx in
  let* pixel := keypoint_pixel_rounded kpt in
  Done (if contains (roi eachBox) pixel then boxID eachBox else id).

Definition box_of (frame : DataFrame) (idx : Z) : outcome Z :=
  foldM (box_step (keypoints frame) idx) (boundingBoxes frame) (-1).

(** [matchMatrix[currID][prevID]++] on an array of [currSize] rows and
    [prevSize] columns. *)
Definition increment (matchMatrix : list (list Z)) (prevSize : nat) (currID prevID : Z)
  : outcome (list (list Z)) :=
  if (0 <=? currID) && (currID <? Z.of_nat (length matchMatrix)) &&
     (0 <=? prevID) && (prevID <? Z.of_nat prevSize)
  then Done (alter (alter Z.succ (Z.to_nat prevID)) (Z.to_nat currID) matchMatrix)
  else Fault OutOfBounds.

(** Lines 284-310: one turn of the loop over the matches. *)
Definition vote_step (prevFrame currFrame : DataFrame) (matchMatrix : list (list Z))
    (eachMatch : DMatch) : outcome (list (list Z)) :=
  let* currID := box_of currFrame (trainIdx eachMatch) in
  let* prevID := box_of prevFrame (queryIdx eachMatch) in
  if negb (currID =? -1) && negb (prevID =? -1)
  then increment matchMatrix (length (boundingBoxes prevFrame)) currID prevID
  else Done matchMatrix.

(** Lines 276-310: the vote matrix after all matches. *)
Definition votes (matches : list DMatch) (prevFrame currFrame : DataFrame)
  : outcome (list (list Z)) :=
  let prevSize := length (boundingBoxes prevFrame) in
  let currSize := length (boundingBoxes currFrame) in
  foldM (vote_step prevFrame currFrame) matches
        (replicate currSize (replicate prevSize 0)).

(** Lines 313-320: the scan of one row, from column [j] on, with the running
    [maxCount] and [index]. *)
Fixpoint scan_row (row : list Z) (j : Z) (maxCount index0 : Z) : Z :=
  match row with
  | [] => index0
  | count :: row' =>
      if count >? maxCount
      then scan_row row' (j + 1) count j
      else scan_row row' (j + 1) maxCount index0
  end.

(** Lines 312-322: the loop over the rows, from row [i] on. *)
Fixpoint assign_rows (rows : list (list Z)) (i : Z) (bbBestMatches : gmap Z Z)
  : gmap Z Z :=
  match rows with
  | [] => bbBestMatches
  | row :: rows' =>
      assign_rows rows' (i + 1) (<[ i := scan_row row 0 INT_MIN 0 ]> bbBestMatches)
  end.

(** The function returns the map [bbBestMatches] as the run leaves it. *)
Definition matchBoundingBoxes (matches : list DMatch) (bbBestMatches : gmap Z Z)
    (prevFrame currFrame : DataFrame) : outcome (gmap Z Z) :=
  let* matchMatrix := votes matches prevFrame currFrame in
  Done (assign_rows matchMatrix 0 bbBestMatches).

(* ===================================================================== *)
(** * show3DObjects *)
(* ===================================================================== *)

(** The function draws into an image and shows it in a window.  Its run is
    modelled by the list of the calls it makes to OpenCV, in their order and
    with their arguments.  A run with undefined behaviour (a floating-point
    value converted to [int] outside its range, an overflow of an [int] sum)
    has no such list: the result is [None]. *)

(** Binary32 operations that only this function uses. *)
Definition f_add : float32 -> float32 -> float32 := SFadd 24 128.
Definition f_div : float32 -> float32 -> float32 := SFdiv 24 128.
Definition f_neg : float32 -> float32 := SFopp.

(** Conversion of a [double] to [float]: the nearest binary32 value. *)
Definition d2f (v : double) : float32 :=
  match v with
  | S754_finite s m e => binary_round 24 128 s m e
  | _ => v
  end.

(** [std::floor]: the greatest integer that is not above a finite value. *)
Definition Zfloor (v : spec_float) : option Z :=
  match v with
  | S754_zero _ => Some 0
  | S754_finite s m e =>
      match e with
      | Zneg k => Some (cond_Zopp s (Zpos m) / 2 ^ Zpos k)
      | _ => Some (cond_Zopp s (Zpos m) * 2 ^ e)
      end
  | _ => None
  end.

Definition defined {A : Type} (c : outcome A) : option A :=
  match c with
  | Done a => Some a
  | Fault _ => None
  end.

(** [a + b] on [int]: undefined when the sum does not fit. *)
Definition int_add (a b : Z) : option Z :=
  if in_int_range (a + b) then Some (a + b) else None.

(** [(int) n] for a [size_t]: the low 32 bits, read as a signed value. *)
Definition size_as_int (n : nat) : Z := (Z.of_nat n + 2 ^ 31) mod 2 ^ 32 - 2 ^ 31.

(** The body of a loop run over a container, for runs that may be
    undefined. *)
Fixpoint foldO {A S : Type} (body : S -> A -> option S) (l : list A) (s : S) : option S :=
  match l with
  | [] => Some s
  | a :: l' => s' ← body s a; foldO body l' s'
  end.

(** [cv::Size]. *)
Module Size.
Record t : Type := mk { width : Z; height : Z }.
End Size.

(** A [cv::Scalar] used as a colour: given by its first three components, or
    the colour of line 73, [Scalar(rng.uniform(0,150), rng.uniform(0,150),
    rng.uniform(0,150))] for [cv::RNG rng(boxID)].  The generator of OpenCV
    is not part of the sources; the colour it gives for a seed is kept as a
    symbol. *)
Inductive Scalar : Type :=
| scalar (v0 v1 v2 : Z)
| random_color (boxID : Z).

(** The texts of lines 106 and 108, given by the arguments of [sprintf]:
    ["id=%d, #pts=%d"] and ["xmin=%2.2f m, yw=%2.2f m"]. *)
Inductive Text : Type :=
| id_and_count (id pts : Z)
| xmin_and_width (xmin yw : double).

Inductive Font : Type := FONT_ITALIC.

(** The calls to OpenCV, each on the image [topviewImg] or on the window
    "3D Objects". *)
Inductive Call : Type :=
| create_image (imageSize : Size.t) (fill : Scalar)
| circle (center : Point) (radius : Z) (color : Scalar) (thickness : Z)
| rectangle (pt1 pt2 : Point) (color : Scalar) (thickness : Z)
| putText (text : Text) (org : Point) (fontFace : Font) (fontScale : Z) (color : Scalar)
| line (pt1 pt2 : Point) (color : Scalar)
| namedWindow (flags : Z)
| imshow
| waitKey (delay : Z).

(** Lines 76-77: the variables of the loop over the points of a box. *)
Module Extent.
Record t : Type := mk {
  top : Z; left : Z; bottom : Z; right : Z;
  xwmin : float32; ywmin : float32; ywmax : float32
}.
End Extent.

(** [int top=1e8, left=1e8, bottom=0.0, right=0.0;]
    [float xwmin=1e8, ywmin=1e8, ywmax=-1e8;] *)
Definition extent0 : Extent.t :=
  Extent.mk 100000000 100000000 0 0
            (f_of_Z 100000000) (f_of_Z 100000000) (f_of_Z (-100000000)).

(** Line 88: [int y = (-xw * imageSize.height / worldSize.height) + imageSize.height;]
    The operands of type [int] are converted to [float]; the sum is
    truncated to [int]. *)
Definition topview_y (worldSize imageSize : Size.t) (xw : float32) : option Z :=
  defined (to_int (f_add (f_div (f_mul (f_neg xw) (f_of_Z (Size.height imageSize)))
                                (f_of_Z (Size.height worldSize)))
                         (f_of_Z (Size.height imageSize)))).

(** Line 89: [int x = (-yw * imageSize.width / worldSize.width) + imageSize.width / 2;]
    [imageSize.width / 2] is a quotient of [int]s. *)
Definition topview_x (worldSize imageSize : Size.t) (yw : float32) : option Z :=
  defined (to_int (f_add (f_div (f_mul (f_neg yw) (f_of_Z (Size.width imageSize)))
                                (f_of_Z (Size.width worldSize)))
                         (f_of_Z (Z.quot (Size.width imageSize) 2)))).

(** Lines 78-99: one turn of the loop over the points of a box; the state is
    the variables of the loop and the calls made so far. *)
Definition point_step (worldSize imageSize : Size.t) (currColor : Scalar)
    (st : Extent.t * list Call) (it2 : LidarPoint) : option (Extent.t * list Call) :=
  let e := fst st in
  let xw := d2f (x it2) in
  let yw := d2f (y it2) in
  let xwmin := if flt (Extent.xwmin e) xw then Extent.xwmin e else xw in
  let ywmin := if flt (Extent.ywmin e) yw then Extent.ywmin e else yw in
  let ywmax := if fgt (Extent.ywmax e) yw then Extent.ywmax e else yw in
  yImg ← topview_y worldSize imageSize xw;
  xImg ← topview_x worldSize imageSize yw;
  let top := if Extent.top e <? yImg then Extent.top e else yImg in
  let left := if Extent.left e <? xImg then Extent.left e else xImg in
  let bottom := if Extent.bottom e >? yImg then Extent.bottom e else yImg in
  let right := if Extent.right e >? xImg then Extent.right e else xImg in
  Some (Extent.mk top left bottom right xwmin ywmin ywmax,
        snd st ++ [circle (mkPoint xImg yImg) 4 currColor (-1)]).

(** [cv::Point2f(left-250, bottom+dy)] passed for the [cv::Point org] of
    [putText]: the two [int] sums are converted to [float] and back to [int]
    by [saturate_cast]. *)
Definition text_org (left bottom dy : Z) : option Point :=
  ox ← int_add left (-250);
  oy ← int_add bottom dy;
  orgx ← defined (cvRound (f_of_Z ox));
  orgy ← defined (cvRound (f_of_Z oy));
  Some (mkPoint orgx orgy).

(** Lines 69-110: one turn of the loop over the boxes; the state is the
    calls made so far. *)
Definition draw_box (worldSize imageSize : Size.t) (calls : list Call) (it1 : BoundingBox)
  : option (list Call) :=
  let currColor := random_color (boxID it1) in
  st ← foldO (point_step worldSize imageSize currColor) (lidarPoints it1) (extent0, calls);
  let e := fst st in
  org1 ← text_org (Extent.left e) (Extent.bottom e) 50;
  org2 ← text_org (Extent.left e) (Extent.bottom e) 125;
  Some (snd st ++
        [rectangle (mkPoint (Extent.left e) (Extent.top e))
                   (mkPoint (Extent.right e) (Extent.bottom e)) (scalar 0 0 0) 2;
         putText (id_and_count (boxID it1) (size_as_int (length (lidarPoints it1))))
                 org1 FONT_ITALIC 2 currColor;
         putText (xmin_and_width (f2d (Extent.xwmin e))
                                 (f2d (f_sub (Extent.ywmax e) (Extent.ywmin e))))
                 org2 FONT_ITALIC 2 currColor]).

(** Line 113: [float lineSpacing = 2.0;] *)
Definition lineSpacing : float32 := f_of_Z 2.

(** Line 114: [int nMarkers = floor(worldSize.height / lineSpacing);] *)
Definition nMarkers (worldSize : Size.t) : option Z :=
  n ← Zfloor (f_div (f_of_Z (Size.height worldSize)) lineSpacing);
  if in_int_range n then Some n else None.

(** Line 115: [for (size_t i = 0; i < nMarkers; ++i)].  The comparison is
    made in [size_t]: the values of [i] are those below [nMarkers] read as an
    unsigned 64-bit number. *)
Definition marker_indices (n : Z) : list Z :=
  map Z.of_nat (seq 0 (Z.to_nat (to_unsigned_long n))).

(** Lines 117-118: the marker line of index [i]. *)
Definition marker (worldSize imageSize : Size.t) (i : Z) : option Call :=
  yImg ← defined (to_int (f_add (f_div (f_mul (f_neg (f_mul (f_of_Z i) lineSpacing))
                                              (f_of_Z (Size.height imageSize)))
                                       (f_of_Z (Size.height worldSize)))
                                (f_of_Z (Size.height imageSize))));
  Some (line (mkPoint 0 yImg) (mkPoint (Size.width imageSize) yImg) (scalar 255 0 0)).

(** The function returns the calls it has made. *)
Definition show3DObjects (boundingBoxes : list BoundingBox) (worldSize imageSize : Size.t)
    (bWait : bool) : option (list Call) :=
  calls ← foldO (draw_box worldSize imageSize) boundingBoxes
                [create_image imageSize (scalar 255 255 255)];
  n ← nMarkers worldSize;
  lines ← mapM (marker worldSize imageSize) (marker_indices n);
  Some (calls ++ lines ++ [namedWindow 1; imshow] ++ (if bWait then [waitKey 0] else [])).

(* ===================================================================== *)
(** * Notions used to state the properties *)
(* ===================================================================== *)

(** "|y| > laneWidth / 2": the point lies outside the ego lane. *)
Definition outside_lane (p : LidarPoint) : bool :=
  fgt (d_abs (y p)) (d_div laneWidth two).

(** The TTC formula of the specification,
    currDistance * (1 / frameRate) / (prevDistance - currDistance). *)
Definition ttc_formula (prevDistance currDistance frameRate : double) : double :=
  d_div (d_mul currDistance (d_div one frameRate)) (d_sub prevDistance currDistance).

(** The test of lines 188: the pair of matches contributes a distance ratio. *)
Definition survives (kpOuterCurr kpOuterPrev kpInnerCurr kpInnerPrev : KeyPoint) : bool :=
  fgt (norm_diff (pt kpOuterPrev) (pt kpInnerPrev)) epsilon &&
  fge (norm_diff (pt kpOuterCurr) (pt kpInnerCurr)) minDist.

(** The current-frame keypoint of a match lies in the rectangle of the box. *)
Definition candidate (boundingBox : BoundingBox) (kptsCurr : list KeyPoint)
    (m : DMatch) : outcome bool :=
  let* kpt := index kptsCurr (trainIdx m) in
  let* pixel := keypoint_pixel kpt in
  Done (contains (roi boundingBox) pixel).

(** Every pair of matches the loops visit has its keypoints and fails the
    test of line 188. *)
Definition no_pair_survives (kptsPrev kptsCurr : list KeyPoint)
    (kptMatches : list DMatch) : Prop :=
  forall it1 it2, In it1 kptMatches -> In it2 kptMatches ->
    exists kpOuterCurr kpOuterPrev kpInnerCurr kpInnerPrev,
      at_ kptsCurr (trainIdx it1) = Done kpOuterCurr /\
      at_ kptsPrev (queryIdx it1) = Done kpOuterPrev /\
      at_ kptsCurr (trainIdx it2) = Done kpInnerCurr /\
      at_ kptsPrev (queryIdx it2) = Done kpInnerPrev /\
      survives kpOuterCurr kpOuterPrev kpInnerCurr kpInnerPrev = false.

(** The rectangle [b], shrunk by [shrinkFactor], contains [pixel]. *)
Definition shrunk_contains (shrinkFactor : float32) (pixel : Point) (b : Rect) : bool :=
  match smallerBox shrinkFactor b with
  | Done small => contains small pixel
  | Fault _ => false
  end.

(** Exactly one of the rectangles, shrunk, contains [pixel]. *)
Definition exactly_one_contains (shrinkFactor : float32) (pixel : Point)
    (rois : list Rect) : bool :=
  (length (List.filter (shrunk_contains shrinkFactor pixel) rois) =? 1)%nat.

(** The Region at position [i] is the one and only Region whose shrunk
    rectangle contains the pixel the point [p] projects to. *)
Definition sole_owner (shrinkFactor : float32) (P_rect_xx R_rect_xx RT : Mat)
    (rois : list Rect) (i : nat) (p : LidarPoint) : bool :=
  match project P_rect_xx R_rect_xx RT p with
  | Done pixel =>
      exactly_one_contains shrinkFactor pixel rois &&
      match rois !! i with
      | Some b => shrunk_contains shrinkFactor pixel b
      | None => false
      end
  | Fault _ => false
  end.

(** The points of [points] that a run appends to the Region at position [i]. *)
Definition owned_points (shrinkFactor : float32) (P_rect_xx R_rect_xx RT : Mat)
    (rois : list Rect) (i : nat) (points : list LidarPoint) : list LidarPoint :=
  List.filter (sole_owner shrinkFactor P_rect_xx R_rect_xx RT rois i) points.

(** The positions, counted from [k], of the elements of [l] that satisfy [f]. *)
Fixpoint positions {A : Type} (f : A -> bool) (k : nat) (l : list A) : list nat :=
  match l with
  | [] => []
  | a :: l' => if f a then k :: positions f (S k) l' else positions f (S k) l'
  end.

(** The identifier of every Region of the frame is its position in the
    frame's list of Regions (0, 1, 2, ...). *)
Definition ids_are_positions (frame : DataFrame) : Prop :=
  forall i b, boundingBoxes frame !! i = Some b -> boxID b = Z.of_nat i.

(** The keypoint a match names in the frame exists and its coordinates
    convert to [int]. *)
Definition resolves (frame : DataFrame) (idx : Z) : Prop :=
  exists kpt pixel,
    index (keypoints frame) idx = Done kpt /\ keypoint_pixel_rounded kpt = Done pixel.

(** [best] is the first column of [row] that holds the greatest count. *)
Definition first_maximum (row : list Z) (best : Z) : Prop :=
  exists count,
    0 <= best /\ row !! Z.to_nat best = Some count /\
    (forall k c, row !! k = Some c -> c <= count) /\
    (forall k c, row !! k = Some c -> Z.of_nat k < best -> c < count).

(** A vote matrix of the given size whose counts are not negative. *)
Definition vote_matrix (currSize prevSize : nat) (M : list (list Z)) : Prop :=
  length M = currSize /\
  Forall (fun row => length row = prevSize /\ Forall (fun c => 0 <= c) row) M.

(** [f] shifts the mantissa of a record right by [k] bits and keeps, in the
    round and sticky bits, whether a non-zero bit was lost. *)
Definition shifts (k : Z) (f : shr_record -> shr_record) : Prop :=
  forall mrs, 0 <= shr_m mrs ->
    shr_m (f mrs) = shr_m mrs / 2 ^ k /\
    (shr_r (f mrs) || shr_s (f mrs) = false <->
     shr_r mrs || shr_s mrs = false /\ shr_m mrs mod 2 ^ k = 0).

(** The second step of [binary_round_aux]: the rounded mantissa is brought
    back to [prec] bits and the exponent is checked against [emax]. *)
Definition finish_round (prec emax : Z) (s : bool) (v e' : Z) : spec_float :=
  let '(mrs'', e'') := shr_fexp prec emax v e' loc_Exact in
  match shr_m mrs'' with
  | Z0 => S754_zero s
  | Zpos m => if e'' <=? emax - prec then S754_finite s m e'' else S754_infinity s
  | _ => S754_nan
  end.

(** The value of a finite number as a multiple of [2^lo]; exact when [lo]
    is at most the exponent of the number. *)
Definition scaled (lo : Z) (v : spec_float) : Z :=
  match v with
  | S754_finite s m e => cond_Zopp s (Zpos m * 2 ^ (e - lo))
  | _ => 0
  end.

(** Every finite binary32 number is an integer multiple of 2^-149:
    [units v] is the value of [v] divided by 2^-149. *)
Definition units (v : float32) : Z := scaled (-149) v.

(** [v] is a binary32 number that is zero or positive and finite. *)
Definition nonneg32 (v : float32) : bool :=
  match v with
  | S754_zero _ => true
  | S754_finite false m e => bounded 24 128 m e
  | _ => false
  end.

(** The match is a candidate: its current-frame keypoint exists and lies in
    the rectangle of the box. *)
Definition is_candidate (boundingBox : BoundingBox) (kptsCurr : list KeyPoint)
    (m : DMatch) : bool :=
  match candidate boundingBox kptsCurr m with
  | Done true => true
  | _ => false
  end.

(** The sum of the dissimilarities of the matches, in units of 2^-149. *)
Definition sum_units (l : list DMatch) : Z :=
  fold_right (fun m s => units (distance m) + s) 0 l.

(** The candidate set of the box: the matches whose current-frame keypoint
    lies in its rectangle, in the order of [kptMatches]. *)
Definition candidates (boundingBox : BoundingBox) (kptsCurr : list KeyPoint)
    (kptMatches0 : list DMatch) : list DMatch :=
  List.filter (is_candidate boundingBox kptsCurr) kptMatches0.

(** The match names a keypoint that one of the two vectors does not hold. *)
Definition dangling (kptsPrev kptsCurr : list KeyPoint) (m : DMatch) : Prop :=
  ~ (0 <= trainIdx m < Z.of_nat (length kptsCurr)) \/
  ~ (0 <= queryIdx m < Z.of_nat (length kptsPrev)).

(** [v] is a binary32 number in the interval from 0 to 1, 1 excluded. *)
Definition below_one32 (v : float32) : bool :=
  nonneg32 v && (units v <? 2 ^ 149).

(** The dissimilarity of the match is below the threshold (line 155). *)
Definition below (threshold : double) (m : DMatch) : bool :=
  flt (f2d (distance m)) threshold.

(** The third homogeneous coordinate of the projection of a Lidar point, the
    divisor of lines 32 and 33. *)
Definition depth (P_rect_xx R_rect_xx RT : Mat) (p : LidarPoint) : outcome double :=
  Mat_at (mat_mul (mat_mul (mat_mul P_rect_xx R_rect_xx) RT) [[x p]; [y p]; [z p]; [one]])
         0 2.

(** The pixel of the point lies in the shrunk rectangle of exactly one
    Region. *)
Definition owned (shrinkFactor : float32) (P_rect_xx R_rect_xx RT : Mat)
    (rois : list Rect) (p : LidarPoint) : bool :=
  match project P_rect_xx R_rect_xx RT p with
  | Done pixel => exactly_one_contains shrinkFactor pixel rois
  | Fault _ => false
  end.

(** The number of Lidar points that the Regions hold together. *)
Definition total_points (boxes : list BoundingBox) : nat :=
  list_sum (map (fun b => length (lidarPoints b)) boxes).

(** The identifier of the last Region of the list whose rectangle contains
    the pixel, [-1] when there is none. *)
Definition last_containing (boxes : list BoundingBox) (pixel : Point) : Z :=
  List.last (map boxID (List.filter (fun b => contains (roi b) pixel) boxes)) (-1).

(** The call draws a circle. *)
Definition is_circle (c : Call) : bool :=
  match c with
  | circle _ _ _ _ => true
  | _ => false
  end.

(** The call draws a marker line: a horizontal line from the left edge of
    the image to the column [imageSize.width], in the colour (255, 0, 0). *)
Definition is_marker (imageSize : Size.t) (c : Call) : Prop :=
  exists yImg,
    c = line (mkPoint 0 yImg) (mkPoint (Size.width imageSize) yImg) (scalar 255 0 0).

(** The centre of the circle lies in the rectangle with the corners [pt1]
    (left, top) and [pt2] (right, bottom), edges included. *)
Definition circle_within (color : Scalar) (pt1 pt2 : Point) (c : Call) : Prop :=
  exists center,
    c = circle center 4 color (-1) /\
    px pt1 <= px center <= px pt2 /\ py pt1 <= py center <= py pt2.

(** [v] is a normal binary64 number: a mantissa of 53 bits and an exponent
    in the range of the format. *)
Definition normal64 (v : double) : bool :=
  match v with
  | S754_finite _ m e => (Zpos (digits2_pos m) =? 53) && (-1074 <=? e) && (e <=? 971)
  | _ => false
  end.

(** [v] is a number: any value but not-a-number. *)
Definition number (v : spec_float) : bool :=
  match v with
  | S754_nan => false
  | _ => true
  end.

(** The elements of the list are in ascending order: every element is less
    than or equal to every later one ([<=] of C++ on [double]). *)
Fixpoint ascending (l : list double) : Prop :=
  match l with
  | [] => True
  | a :: l' => Forall (fun b => fle a b = true) l' /\ ascending l'
  end.

(** The place of a number in the order of the floating-point numbers: its
    class (negative infinity, negative, zero, positive, positive infinity),
    then its exponent, then its mantissa, the last two counted downwards for
    a negative number. *)
Definition order_key (v : spec_float) : Z * Z * Z :=
  match v with
  | S754_zero _ => (0, 0, 0)
  | S754_infinity false => (2, 0, 0)
  | S754_infinity true => (-2, 0, 0)
  | S754_nan => (0, 0, 0)
  | S754_finite false m e => (1, e, Zpos m)
  | S754_finite true m e => (-1, - e, - Zpos m)
  end.

(** The lexicographic order of the keys. *)
Definition key_le (a b : Z * Z * Z) : Prop :=
  fst (fst a) < fst (fst b) \/
  (fst (fst a) = fst (fst b) /\
   (snd (fst a) < snd (fst b) \/ (snd (fst a) = snd (fst b) /\ snd a <= snd b))).

(** Following the specification (4.2), read on real numbers: the rectangle
    shrunk by [shrinkFactor], "each side moves inward by shrinkFactor/2 of
    that dimension", contains the pixel.  The factor is the fraction
    [n / 2^k] that the binary32 number stands for, and the two sides of each
    comparison are multiplied by [2^(k+1)]:
    [x + (n / 2^k) / 2 * width <= u < x + width - (n / 2^k) / 2 * width],
    and the same for the rows. *)
Definition fraction_of (v : float32) : Z * Z :=
  match v with
  | S754_finite s m (Zneg k) => (cond_Zopp s (Zpos m), Zpos k)
  | S754_finite s m e => (cond_Zopp s (Zpos m) * 2 ^ e, 0)
  | _ => (0, 0)
  end.

Definition spec_shrunk_contains (shrinkFactor : float32) (pixel : Point) (b : Rect) : bool :=
  let n := fst (fraction_of shrinkFactor) in
  let unit := 2 ^ (snd (fraction_of shrinkFactor) + 1) in
  (rx b * unit + n * width b <=? px pixel * unit) &&
  (px pixel * unit <? (rx b + width b) * unit - n * width b) &&
  (ry b * unit + n * height b <=? py pixel * unit) &&
  (py pixel * unit <? (ry b + height b) * unit - n * height b).

(** Following the amended claim: a side that starts at [c] and is [d] long,
    shrunk by the factor [s], starts at [c + s * d / 2] and is [d * (1 - s)]
    long, both truncated to whole pixels; the products with [s] and the
    difference [1 - s] are binary32 operations, the quotient by 2 and the sum
    are binary64 operations. *)
Definition truncated_side (s : float32) (c d : Z) : outcome (Z * Z) :=
  let* start := to_int (d_add (d_of_Z c) (d_div (f2d (f_mul s (f_of_Z d))) two)) in
  let* len := to_int (f_mul (f_of_Z d) (f_sub (f_of_Z 1) s)) in
  Done (start, len).

(** Following the amended claim: the pixel lies in the truncated shrunk
    rectangle, whose columns and rows are the truncated sides, the end of a
    side excluded. *)
Definition in_truncated_shrunk_rectangle (s : float32) (pixel : Point) (b : Rect) : bool :=
  match truncated_side s (rx b) (width b), truncated_side s (ry b) (height b) with
  | Done (x0, w), Done (y0, h) =>
      (x0 <=? px pixel) && (px pixel <? x0 + w) && (y0 <=? py pixel) && (py pixel <? y0 + h)
  | _, _ => false
  end.

(** Following the amended claim: the pixel of a Lidar point.  The point is
    taken to the vector [Y = P_rect_xx * R_rect_xx * RT * (x, y, z, 1)]; the
    pixel is [(Y0 / Y2, Y1 / Y2)], each quotient truncated to a whole number. *)
Definition truncated_pixel (P_rect_xx R_rect_xx RT : Mat) (p : LidarPoint) : outcome Point :=
  match concat (mat_mul (mat_mul (mat_mul P_rect_xx R_rect_xx) RT)
                        [[x p]; [y p]; [z p]; [one]]) with
  | y0 :: y1 :: y2 :: _ =>
      let* u := to_int (d_div y0 y2) in
      let* v := to_int (d_div y1 y2) in
      Done (mkPoint u v)
  | _ => Fault OutOfBounds
  end.

(** Following the amended claim: the Region at position [i] is the one and
    only Region whose truncated shrunk rectangle contains the pixel of [p]. *)
Definition assigned_to (s : float32) (P_rect_xx R_rect_xx RT : Mat)
    (rois : list Rect) (i : nat) (p : LidarPoint) : bool :=
  match truncated_pixel P_rect_xx R_rect_xx RT p with
  | Done pixel =>
      (length (List.filter (in_truncated_shrunk_rectangle s pixel) rois) =? 1)%nat &&
      match rois !! i with
      | Some b => in_truncated_shrunk_rectangle s pixel b
      | None => false
      end
  | Fault _ => false
  end.

(* ===================================================================== *)
(** * Concrete inputs *)
(* ===================================================================== *)

Definition lidar_at (xv yv : Z) : LidarPoint :=
  mkLidarPoint (d_of_Z xv) (d_of_Z yv) zero zero.

Definition keypoint_at (u v : Z) : KeyPoint :=
  mkKeyPoint (mkPoint2f (f_of_Z u) (f_of_Z v)).

Definition match_of (q t d : Z) : DMatch := mkDMatch q t (f_of_Z d).

(** Two in-lane points at distance 10 in the previous frame, two in-lane
    points at distance 8 in the current one. *)
Definition two_prev : list LidarPoint := [lidar_at 10 0; lidar_at 10 1].
Definition two_curr : list LidarPoint := [lidar_at 8 0; lidar_at 8 1].

(** Three matched keypoints on a line; the pairs (0,1) and (0,2) are far
    enough apart in the current frame, the pair (1,2) is not. *)
Definition line_prev : list KeyPoint :=
  [keypoint_at 0 0; keypoint_at 100 0; keypoint_at 125 0].
Definition line_curr : list KeyPoint :=
  [keypoint_at 0 0; keypoint_at 200 0; keypoint_at 250 0].
Definition line_matches : list DMatch :=
  [match_of 0 0 1; match_of 1 1 1; match_of 2 2 1].

(** Two overlapping Regions and a projection chain that maps the Lidar point
    (u, v, 1) to the pixel (u, v). *)
Definition identity4 : Mat :=
  [[one; zero; zero; zero]; [zero; one; zero; zero];
   [zero; zero; one; zero]; [zero; zero; zero; one]].
Definition projection34 : Mat :=
  [[one; zero; zero; zero]; [zero; one; zero; zero]; [zero; zero; one; zero]].

Definition lidar_over (u v : Z) : LidarPoint :=
  mkLidarPoint (d_of_Z u) (d_of_Z v) one zero.

Definition left_box : BoundingBox := mkBoundingBox 0 (mkRect 0 0 100 100) [] [].
Definition right_box : BoundingBox := mkBoundingBox 1 (mkRect 50 0 100 100) [] [].

Definition shrink_none : float32 := S754_zero false.
Definition shrink_half : float32 := SFdiv 24 128 (f_of_Z 1) (f_of_Z 2).
(** The binary32 values nearest to 0.19 and 0.2. *)
Definition shrink_019 : float32 := SFdiv 24 128 (f_of_Z 19) (f_of_Z 100).
Definition shrink_020 : float32 := SFdiv 24 128 (f_of_Z 2) (f_of_Z 10).
Definition small_box : BoundingBox := mkBoundingBox 0 (mkRect 0 0 10 10) [] [].

(** A frame whose only Region carries the identifier 5. *)
Definition lone_frame : DataFrame :=
  mkDataFrame [] [mkBoundingBox 5 (mkRect 0 0 10 10) [] []].

(** Two frames with the Regions [left_box] (id 0) and [right_box] (id 1) and
    three keypoints: the first in the left Region only, the second in both
    (the later Region, id 1, wins), the third in the right Region only. *)
Definition pair_frame : DataFrame :=
  mkDataFrame [keypoint_at 10 10; keypoint_at 60 10; keypoint_at 120 10]
              [left_box; right_box].
Definition pair_matches : list DMatch :=
  [match_of 0 0 1; match_of 1 1 1; match_of 2 2 1].

(** Two matches with the dissimilarities -0.75 and -0.25, whose
    current-frame keypoints (10, 10) and (20, 20) lie in [left_box]. *)
Definition minus_three_quarters : float32 := S754_finite true 12582912 (-24).
Definition minus_one_quarter : float32 := S754_finite true 8388608 (-25).
Definition negative_matches : list DMatch :=
  [mkDMatch 0 0 minus_three_quarters; mkDMatch 1 1 minus_one_quarter].
Definition two_keypoints : list KeyPoint := [keypoint_at 10 10; keypoint_at 20 20].

(** Three matches in [left_box] with the dissimilarities 10.5, 20.5 and 40. *)
Definition ten_and_a_half : float32 := S754_finite false 11010048 (-20).
Definition twenty_and_a_half : float32 := S754_finite false 10747904 (-19).
Definition positive_matches : list DMatch :=
  [mkDMatch 0 0 ten_and_a_half; mkDMatch 1 1 twenty_and_a_half; mkDMatch 0 1 (f_of_Z 40)].

(** Keypoints on a line whose distances double from the previous to the
    current frame.  Of three of them every pair of different matches
    survives the filter (three ratios); of four, the pairs (0,1), (0,2),
    (0,3) and (1,3) do (four ratios). *)
Definition spread3_prev : list KeyPoint :=
  [keypoint_at 0 0; keypoint_at 100 0; keypoint_at 200 0].
Definition spread3_curr : list KeyPoint :=
  [keypoint_at 0 0; keypoint_at 200 0; keypoint_at 400 0].
Definition spread4_prev : list KeyPoint :=
  [keypoint_at 0 0; keypoint_at 100 0; keypoint_at 125 0; keypoint_at 150 0].
Definition spread4_curr : list KeyPoint :=
  [keypoint_at 0 0; keypoint_at 200 0; keypoint_at 250 0; keypoint_at 300 0].
Definition four_matches : list DMatch :=
  [match_of 0 0 1; match_of 1 1 1; match_of 2 2 1; match_of 3 3 1].

(** Two matched keypoints two pixels apart. *)
Definition near_prev : list KeyPoint := [keypoint_at 0 0; keypoint_at 1 0].
Definition near_curr : list KeyPoint := [keypoint_at 0 0; keypoint_at 2 0].
Definition near_matches : list DMatch := [match_of 0 0 1; match_of 1 1 1].

(** Two matches in [left_box] with the dissimilarities 0.25 and 0.75. *)
Definition one_quarter : float32 := S754_finite false 8388608 (-25).
Definition three_quarters : float32 := S754_finite false 12582912 (-24).
Definition fraction_matches : list DMatch :=
  [mkDMatch 0 0 one_quarter; mkDMatch 1 1 three_quarters].

(** A frame with one keypoint, (5, 5), in its only Region, which carries the
    identifier 5. *)
Definition lone_frame_with_keypoint : DataFrame :=
  mkDataFrame [keypoint_at 5 5] [mkBoundingBox 5 (mkRect 0 0 10 10) [] []].

(** A world of 10 m by 20 m shown in an image of 1000 by 2000 pixels, and a
    Region with two Lidar points. *)
Definition world_10_20 : Size.t := Size.mk 10 20.
Definition image_1000_2000 : Size.t := Size.mk 1000 2000.
Definition box_with_two_points : BoundingBox :=
  mkBoundingBox 3 (mkRect 0 0 1 1) [lidar_at 10 1; lidar_at 12 (-1)] [].

(** Three matched keypoints on a line whose pairs have the distance ratios
    3, 1 and 2, collected in this order. *)
Definition mixed3_prev : list KeyPoint :=
  [keypoint_at 0 0; keypoint_at 100 0; keypoint_at (-100) 0].
Definition mixed3_curr : list KeyPoint :=
  [keypoint_at 0 0; keypoint_at 300 0; keypoint_at (-100) 0].

(** Four matched keypoints on a line of which the pairs (0,1), (0,2), (0,3)
    and (1,3) survive, with the distance ratios 4, 1, 3 and 2, collected in
    this order. *)
Definition mixed4_prev : list KeyPoint :=
  [keypoint_at 0 0; keypoint_at 50 0; keypoint_at 250 0; keypoint_at 100 0].
Definition mixed4_curr : list KeyPoint :=
  [keypoint_at 0 0; keypoint_at 200 0; keypoint_at 250 0; keypoint_at 300 0].

(** A projection that magnifies four times, and two Lidar points at the
    depth 2: their pixels are (80, 60) and (10, 60). *)
Definition magnify4 : Mat :=
  [[d_of_Z 4; zero; zero; zero]; [zero; d_of_Z 4; zero; zero]; [zero; zero; one; zero]].
Definition lidar_deep_right : LidarPoint := mkLidarPoint (d_of_Z 40) (d_of_Z 30) two zero.
Definition lidar_deep_edge : LidarPoint := mkLidarPoint (d_of_Z 5) (d_of_Z 30) two zero.

(* ===================================================================== *)
(** * Properties *)
(* ===================================================================== *)

(** Comparisons of integers as propositions, for [lia]. *)
Ltac compare_to_prop :=
  repeat match goal with
    | H : (_ <=? _) = true |- _ => apply Z.leb_le in H
    | H : (_ <=? _) = false |- _ => apply Z.leb_gt in H
    | H : (_ <? _) = true |- _ => apply Z.ltb_lt in H
    | H : (_ <? _) = false |- _ => apply Z.ltb_ge in H
    | H : (_ =? _) = true |- _ => apply Z.eqb_eq in H
    | H : (_ =? _) = false |- _ => apply Z.eqb_neq in H
    | H : (_ >? _) = true |- _ => apply Z.gtb_lt in H
    | H : (_ >? _) = false |- _ => rewrite Z.gtb_ltb in H; apply Z.ltb_ge in H
    end.

(** ** Outcomes *)

Lemma bind_Done {A B : Type} (c : outcome A) (k : A -> outcome B) (b : B) :
  bind c k = Done b -> exists a, c = Done a /\ k a = Done b.
Proof. destruct c as [a|f]; simpl; [eauto | discriminate]. Qed.

Lemma foldM_app {A S : Type} (body : S -> A -> outcome S) (l1 l2 : list A) (s : S) :
  foldM body (l1 ++ l2) s = let* s' := foldM body l1 s in foldM body l2 s'.
Proof.
  revert s; induction l1 as [|a l1 IH]; intros s; simpl; [reflexivity|].
  destruct (body s a) as [s'|f]; simpl; [apply IH | reflexivity].
Qed.

(** A loop whose body leaves the state unchanged on every element. *)
Lemma foldM_unchanged {A S : Type} (body : S -> A -> outcome S) (l : list A) (s : S) :
  Forall (fun a => body s a = Done s) l -> foldM body l s = Done s.
Proof.
  induction 1 as [|a l Ha _ IH]; simpl; [reflexivity|].
  rewrite Ha; simpl; exact IH.
Qed.

(** ** computeTTCLidar *)

Lemma outside_lane_not_in_lane (p : LidarPoint) :
  outside_lane p = true -> in_lane p = false.
Proof.
  unfold outside_lane, in_lane, fgt, fle, SFleb.
  destruct (SFcompare _ _) as [[]|]; congruence.
Qed.

Lemma lane_loop_no_point (l : list LidarPoint) (st : double * double) :
  Forall (fun p => in_lane p = false) l -> fold_left lane_step l st = st.
Proof.
  induction 1 as [|p l Hp _ IH]; simpl; [reflexivity|].
  unfold lane_step at 2; rewrite Hp; exact IH.
Qed.

Lemma d_div_nan (v : double) : d_div v NAN = NAN.
Proof. destruct v; reflexivity. Qed.

Lemma length_eqb_0 {A : Type} (l : list A) : l <> [] -> (length l =? 0)%nat = false.
Proof. destruct l; [congruence | reflexivity]. Qed.

Lemma computeTTCLidar_nothing_in_lane (prev curr : list LidarPoint) (frameRate : double) :
  prev <> [] -> curr <> [] ->
  Forall (fun p => in_lane p = false) prev ->
  Forall (fun p => in_lane p = false) curr ->
  computeTTCLidar prev curr frameRate = NAN.
Proof.
  intros Hp Hc Fp Fc. unfold computeTTCLidar.
  rewrite (length_eqb_0 _ Hp), (length_eqb_0 _ Hc); simpl orb; cbv iota.
  rewrite !lane_loop_no_point by assumption. cbn [fst snd].
  replace (d_sub _ _) with NAN by (vm_compute; reflexivity).
  apply d_div_nan.
Qed.

(** C10: when both point sets are non-empty and every point of either set
    has |y| > laneWidth / 2 (laneWidth = 4.0), so that no point lies in the
    ego lane, [computeTTCLidar] passes the empty-set guard and stores the
    not-a-number value in TTC, whatever the frame rate. *)
Theorem computeTTCLidar_outside_lane_is_NAN :
  forall (lidarPointsPrev lidarPointsCurr : list LidarPoint) (frameRate : double),
    lidarPointsPrev <> [] ->
    lidarPointsCurr <> [] ->
    Forall (fun p => outside_lane p = true) lidarPointsPrev ->
    Forall (fun p => outside_lane p = true) lidarPointsCurr ->
    ((length lidarPointsCurr =? 0)%nat || (length lidarPointsPrev =? 0)%nat = false) /\
    computeTTCLidar lidarPointsPrev lidarPointsCurr frameRate = NAN.
Proof.
  intros prev curr frameRate Hp Hc Fp Fc. split.
  - rewrite (length_eqb_0 _ Hp), (length_eqb_0 _ Hc); reflexivity.
  - apply computeTTCLidar_nothing_in_lane; try assumption;
      eapply List.Forall_impl; try eassumption; intros p; apply outside_lane_not_in_lane.
Qed.

Lemma computeTTCLidar_outside_lane_is_NAN_witness :
  computeTTCLidar [lidar_at 10 3] [lidar_at 8 (-5)] (d_of_Z 10) = NAN.
Proof.
  apply (computeTTCLidar_outside_lane_is_NAN [lidar_at 10 3] [lidar_at 8 (-5)] (d_of_Z 10)).
  - discriminate.
  - discriminate.
  - constructor; [vm_compute; reflexivity | constructor].
  - constructor; [vm_compute; reflexivity | constructor].
Defined.

(** With one in-lane point per frame the counts are 1 and the result is the
    value of the formula: 8 * (1/10) / (10 - 8) is the binary64 value 0.4. *)
Example computeTTCLidar_single_points :
  computeTTCLidar [lidar_at 10 0] [lidar_at 8 0] (d_of_Z 10)
  = ttc_formula (d_of_Z 10) (d_of_Z 8) (d_of_Z 10)
  /\ ttc_formula (d_of_Z 10) (d_of_Z 8) (d_of_Z 10) = d_div (d_of_Z 4) (d_of_Z 10).
Proof. split; vm_compute; reflexivity. Qed.

(** C3 (fails on the code): with two in-lane points at distance 10 in the
    previous frame and two at distance 8 in the current frame, at frame rate
    10, the closest in-lane distances are 10 and 8 and the formula gives 0.4;
    [computeTTCLidar] divides the previous minimum by the number of in-lane
    points twice (lines 244 and 254) and the current minimum once (line 253),
    so it computes the formula on 2.5 and 4 and stores the binary64 value
    nearest to -4/15. *)
Theorem computeTTCLidar_two_points_each :
  Forall (fun p => in_lane p = true /\ x p = d_of_Z 10) two_prev /\
  Forall (fun p => in_lane p = true /\ x p = d_of_Z 8) two_curr /\
  ttc_formula (d_of_Z 10) (d_of_Z 8) (d_of_Z 10) = d_div (d_of_Z 4) (d_of_Z 10) /\
  computeTTCLidar two_prev two_curr (d_of_Z 10)
  = ttc_formula (d_div (d_of_Z 5) two) (d_of_Z 4) (d_of_Z 10) /\
  computeTTCLidar two_prev two_curr (d_of_Z 10) = d_div (d_of_Z (-4)) (d_of_Z 15) /\
  computeTTCLidar two_prev two_curr (d_of_Z 10) <> d_div (d_of_Z 4) (d_of_Z 10).
Proof.
  split; [|split; [|split; [|split; [|split]]]].
  - constructor; [split; vm_compute; reflexivity|].
    constructor; [split; vm_compute; reflexivity|constructor].
  - constructor; [split; vm_compute; reflexivity|].
    constructor; [split; vm_compute; reflexivity|constructor].
  - vm_compute; reflexivity.
  - vm_compute; reflexivity.
  - vm_compute; reflexivity.
  - vm_compute; discriminate.
Qed.

(** ** computeTTCCamera *)

Lemma length_insert_sorted (v : double) (l : list double) :
  length (insert_sorted v l) = S (length l).
Proof.
  induction l as [|w l IH]; simpl; [reflexivity|].
  destruct (flt v w); simpl; [reflexivity | now rewrite IH].
Qed.

Lemma length_sort (l : list double) : length (sort l) = length l.
Proof.
  induction l as [|v l IH]; simpl; [reflexivity|].
  now rewrite length_insert_sorted, IH.
Qed.

(** For an odd count the position read is the middle one. *)
Lemma median_index_odd (k : nat) : median_index (2 * k + 1) = k.
Proof.
  unfold median_index.
  replace ((2 * k + 1) mod 2)%nat with 1%nat
    by (rewrite Nat.add_comm, Nat.mul_comm, Nat.Div0.mod_add; reflexivity).
  simpl Nat.eqb; cbv iota.
  rewrite Nat.add_comm, Nat.mul_comm, Nat.div_add by discriminate. reflexivity.
Qed.

(** For an even count [2 * k] the two middle positions are [k - 1] and [k];
    the position read is [k + 1]. *)
Lemma median_index_even (k : nat) : median_index (2 * k) = (k + 1)%nat.
Proof.
  unfold median_index.
  replace ((2 * k) mod 2)%nat with 0%nat
    by (rewrite Nat.mul_comm, Nat.Div0.mod_mul; reflexivity).
  simpl Nat.eqb; cbv iota.
  rewrite Nat.mul_comm, Nat.div_mul by discriminate. reflexivity.
Qed.

(** Whenever exactly two ratios survive, the median is read at position 2 of
    a vector of two elements. *)
Lemma computeTTCCamera_two_ratios (kptsPrev kptsCurr : list KeyPoint)
    (kptMatches : list DMatch) (frameRate a b : double) :
  outer_loop kptsPrev kptsCurr kptMatches kptMatches [] = Done [a; b] ->
  computeTTCCamera kptsPrev kptsCurr kptMatches frameRate = Fault OutOfBounds.
Proof.
  intros H. unfold computeTTCCamera. rewrite H. cbn [bind length Nat.eqb].
  pose proof (length_sort [a; b]) as L.
  destruct (sort [a; b]) as [|u [|v [|w t]]]; try discriminate L. reflexivity.
Qed.

(** C1 (fails on the code): three matches of which exactly two pairs survive
    the filter give the sorted ratios [2; 2]; the count is even and the code
    reads [distRatios[size/2 + 1]], position 2 of a vector whose positions
    are 0 and 1: no element of the sorted list is selected. *)
Theorem computeTTCCamera_even_count_reads_past_the_end :
  outer_loop line_prev line_curr line_matches line_matches [] = Done [two; two] /\
  sort [two; two] = [two; two] /\
  median_index (length [two; two]) = 2%nat /\
  computeTTCCamera line_prev line_curr line_matches (d_of_Z 10) = Fault OutOfBounds.
Proof.
  split; [|split; [|split]]; vm_compute; reflexivity.
Qed.

(** A single match: the outer loop ends at once and TTC is not-a-number. *)
Lemma computeTTCCamera_single_match (kptsPrev kptsCurr : list KeyPoint)
    (m : DMatch) (frameRate : double) :
  computeTTCCamera kptsPrev kptsCurr [m] frameRate = Done NAN.
Proof. reflexivity. Qed.

Lemma inner_loop_no_survivor (kptsPrev kptsCurr : list KeyPoint)
    (kpOuterCurr kpOuterPrev : KeyPoint) (l : list DMatch) (distRatios : list double) :
  Forall (fun it2 => exists kpInnerCurr kpInnerPrev,
            at_ kptsCurr (trainIdx it2) = Done kpInnerCurr /\
            at_ kptsPrev (queryIdx it2) = Done kpInnerPrev /\
            survives kpOuterCurr kpOuterPrev kpInnerCurr kpInnerPrev = false) l ->
  foldM (inner_step kptsPrev kptsCurr kpOuterCurr kpOuterPrev) l distRatios
  = Done distRatios.
Proof.
  intros H. apply foldM_unchanged.
  eapply List.Forall_impl; [|exact H].
  intros it2 (kc & kp & Hc & Hp & Hs). unfold inner_step.
  rewrite Hc, Hp. cbn [bind]. unfold survives in Hs. rewrite Hs. reflexivity.
Qed.

Lemma outer_loop_no_survivor (kptsPrev kptsCurr : list KeyPoint)
    (kptMatches rest : list DMatch) (distRatios : list double) :
  no_pair_survives kptsPrev kptsCurr kptMatches ->
  rest <> [] -> incl rest kptMatches ->
  outer_loop kptsPrev kptsCurr kptMatches rest distRatios = Done distRatios.
Proof.
  intros H. induction rest as [|it1 rest IH]; intros Hne Hin; [congruence|].
  destruct rest as [|it1' rest']; [reflexivity|].
  cbn [outer_loop].
  assert (Hit1 : In it1 kptMatches) by (apply Hin; left; reflexivity).
  destruct (H it1 it1 Hit1 Hit1) as (kc & kp & _ & _ & Hc & Hp & _).
  rewrite Hc, Hp. cbn [bind].
  rewrite inner_loop_no_survivor.
  - cbn [bind]. apply IH; [discriminate|].
    intros m Hm. apply Hin. right. exact Hm.
  - apply List.Forall_forall. intros it2 Hit2.
    assert (Hit2' : In it2 kptMatches) by (destruct kptMatches; [contradiction | right; exact Hit2]).
    destruct (H it1 it2 Hit1 Hit2') as (kc1 & kp1 & kc2 & kp2 & A1 & A2 & A3 & A4 & A5).
    rewrite Hc in A1; rewrite Hp in A2. injection A1 as <-. injection A2 as <-.
    exists kc2, kp2. auto.
Qed.

(** On a non-empty list of matches of which no pair survives, TTC is
    not-a-number. *)
Lemma computeTTCCamera_no_survivor (kptsPrev kptsCurr : list KeyPoint)
    (kptMatches : list DMatch) (frameRate : double) :
  kptMatches <> [] ->
  no_pair_survives kptsPrev kptsCurr kptMatches ->
  computeTTCCamera kptsPrev kptsCurr kptMatches frameRate = Done NAN.
Proof.
  intros Hne H. unfold computeTTCCamera.
  rewrite outer_loop_no_survivor; [reflexivity | assumption | assumption | apply incl_refl].
Qed.

(** C7 (fails on the code): on an empty list of matches no ratio survives,
    yet no value is stored in TTC: the loop condition [it1 != end() - 1]
    holds for [it1 = begin() = end()] and the body reads [*it1] outside the
    vector. *)
Theorem computeTTCCamera_empty_matches :
  forall (kptsPrev kptsCurr : list KeyPoint) (frameRate : double),
    computeTTCCamera kptsPrev kptsCurr [] frameRate = Fault OutOfBounds.
Proof. reflexivity. Qed.

(** ** clusterKptMatchesWithROI *)

Lemma roi_loop_no_candidate (boundingBox : BoundingBox) (kptsCurr : list KeyPoint)
    (l : list DMatch) (st : list DMatch * list double) :
  Forall (fun m => candidate boundingBox kptsCurr m = Done false) l ->
  foldM (roi_step boundingBox kptsCurr) l st = Done st.
Proof.
  intros H. apply foldM_unchanged.
  eapply List.Forall_impl; [|exact H].
  intros m Hm. unfold candidate in Hm. unfold roi_step.
  destruct (index kptsCurr (trainIdx m)) as [kpt|]; [|discriminate].
  cbn [bind] in *. destruct (keypoint_pixel kpt) as [pixel|]; [|discriminate].
  cbn [bind] in *. injection Hm as ->. reflexivity.
Qed.

(** C2 (fails on the code): when no match has its current-frame keypoint in
    the rectangle of the box, [accDistances] is empty and line 151 divides
    the accumulated sum by [accDistances.size()], which is zero: the run
    ends in an integer division by zero and returns no box. *)
Theorem clusterKptMatchesWithROI_no_candidate_divides_by_zero :
  forall (boundingBox : BoundingBox) (kptsPrev kptsCurr : list KeyPoint)
         (kptMatches0 : list DMatch),
    Forall (fun m => candidate boundingBox kptsCurr m = Done false) kptMatches0 ->
    clusterKptMatchesWithROI boundingBox kptsPrev kptsCurr kptMatches0
    = Fault DivisionByZero.
Proof.
  intros boundingBox kptsPrev kptsCurr kptMatches0 H.
  unfold clusterKptMatchesWithROI.
  rewrite roi_loop_no_candidate by exact H. reflexivity.
Qed.

(** ** clusterLidarWithROI *)

Lemma length_positions {A : Type} (f : A -> bool) (k : nat) (l : list A) :
  length (positions f k l) = length (List.filter f l).
Proof.
  revert k; induction l as [|a l IH]; intros k; simpl; [reflexivity|].
  destruct (f a); simpl; now rewrite IH.
Qed.

Lemma elem_of_positions {A : Type} (f : A -> bool) (k : nat) (l : list A) (j : nat) :
  In j (positions f k l) <->
  exists i a, j = (k + i)%nat /\ l !! i = Some a /\ f a = true.
Proof.
  revert k; induction l as [|a l IH]; intros k; simpl.
  - split; [contradiction | intros (i & b & _ & H & _); discriminate].
  - destruct (f a) eqn:Fa; simpl; rewrite IH; split.
    + intros [<-|(i & b & -> & H & Fb)].
      * exists 0%nat, a. rewrite Nat.add_0_r. auto.
      * exists (S i), b. split; [lia | auto].
    + intros (i & b & -> & H & Fb). destruct i as [|i].
      * left. lia.
      * right. exists i, b. split; [lia | auto].
    + intros (i & b & -> & H & Fb). exists (S i), b. split; [lia | auto].
    + intros (i & b & -> & H & Fb). destruct i as [|i].
      * simpl in H. injection H as <-. congruence.
      * exists i, b. split; [lia | auto].
Qed.

(** The positions form a singleton exactly when one element satisfies [f],
    and then the singleton holds the position of that element. *)
Lemma positions_singleton {A : Type} (f : A -> bool) (l : list A) (j : nat) :
  positions f 0 l = [j] <->
  length (List.filter f l) = 1%nat /\ exists a, l !! j = Some a /\ f a = true.
Proof.
  split.
  - intros H. split.
    + rewrite <- (length_positions f 0), H. reflexivity.
    + assert (Hj : In j (positions f 0 l)) by (rewrite H; left; reflexivity).
      apply elem_of_positions in Hj as (i & a & -> & Hi & Fa). eauto.
  - intros [L (a & Hj & Fa)].
    assert (Hj' : In j (positions f 0 l))
      by (apply elem_of_positions; exists j, a; auto).
    rewrite <- (length_positions f 0) in L.
    destruct (positions f 0 l) as [|j' [|j'' t]]; try discriminate L.
    destruct Hj' as [->|[]]. reflexivity.
Qed.

Lemma shrunk_contains_Done (shrinkFactor : float32) (pixel : Point) (b small : Rect) :
  smallerBox shrinkFactor b = Done small ->
  shrunk_contains shrinkFactor pixel b = contains small pixel.
Proof. intros H. unfold shrunk_contains. now rewrite H. Qed.

Lemma enclosing_from_positions (shrinkFactor : float32) (pixel : Point)
    (boxes : list BoundingBox) (k : nat) :
  Forall (fun b => exists small, smallerBox shrinkFactor (roi b) = Done small) boxes ->
  enclosing_from shrinkFactor pixel k boxes
  = Done (positions (shrunk_contains shrinkFactor pixel) k (map roi boxes)).
Proof.
  intros H; revert k; induction H as [|b boxes [small Hs] _ IH]; intros k.
  - reflexivity.
  - cbn [enclosing_from map positions].
    rewrite (shrunk_contains_Done _ pixel _ _ Hs), Hs, IH. cbn [bind].
    destruct (contains small pixel); reflexivity.
Qed.

Lemma map_roi_push_lidarPoint (p : LidarPoint) (j : nat) (boxes : list BoundingBox) :
  map roi (alter (push_lidarPoint p) j boxes) = map roi boxes.
Proof.
  revert j; induction boxes as [|b boxes IH]; intros [|j]; simpl; try reflexivity.
  f_equal. apply IH.
Qed.

(** What one turn of the loop does to the box at each position. *)
Lemma cluster_point_spec (shrinkFactor : float32) (P_rect_xx R_rect_xx RT : Mat)
    (boxes : list BoundingBox) (p : LidarPoint) (pixel : Point) :
  project P_rect_xx R_rect_xx RT p = Done pixel ->
  Forall (fun b => exists small, smallerBox shrinkFactor (roi b) = Done small) boxes ->
  exists boxes',
    cluster_point shrinkFactor P_rect_xx R_rect_xx RT boxes p = Done boxes' /\
    map roi boxes' = map roi boxes /\
    forall i b, boxes !! i = Some b ->
      boxes' !! i =
      Some (if sole_owner shrinkFactor P_rect_xx R_rect_xx RT (map roi boxes) i p
            then push_lidarPoint p b else b).
Proof.
  intros Hp Hb. unfold cluster_point, enclosingBoxes.
  rewrite Hp. cbn [bind]. rewrite (enclosing_from_positions _ _ _ _ Hb). cbn [bind].
  set (f := shrunk_contains shrinkFactor pixel).
  assert (Hown : forall i, sole_owner shrinkFactor P_rect_xx R_rect_xx RT (map roi boxes) i p = true
                           <-> positions f 0 (map roi boxes) = [i]).
  { intros i. unfold sole_owner, exactly_one_contains. rewrite Hp. fold f.
    rewrite positions_singleton, andb_true_iff, Nat.eqb_eq.
    split; intros [L H]; (split; [exact L|]).
    - destruct (map roi boxes !! i) as [a|]; [eauto | discriminate].
    - destruct H as (a & -> & Fa). exact Fa. }
  destruct (positions f 0 (map roi boxes)) as [|j [|j' t]] eqn:E.
  - exists boxes. repeat split. intros i b Hi.
    destruct (sole_owner _ _ _ _ _ i p) eqn:O; [|exact Hi].
    apply Hown in O. discriminate.
  - exists (alter (push_lidarPoint p) j boxes). split; [reflexivity|]. split.
    + apply map_roi_push_lidarPoint.
    + intros i b Hi. destruct (decide (j = i)) as [->|Hne].
      * rewrite list_lookup_alter_eq, Hi.
        rewrite (proj2 (Hown i)) by reflexivity. reflexivity.
      * rewrite list_lookup_alter_ne, Hi by exact Hne.
        destruct (sole_owner _ _ _ _ _ i p) eqn:O; [|reflexivity].
        apply Hown in O. congruence.
  - exists boxes. repeat split. intros i b Hi.
    destruct (sole_owner _ _ _ _ _ i p) eqn:O; [|exact Hi].
    apply Hown in O. discriminate.
Qed.

Lemma Forall_shrinkable_rois (shrinkFactor : float32) (boxes boxes' : list BoundingBox) :
  map roi boxes' = map roi boxes ->
  Forall (fun b => exists small, smallerBox shrinkFactor (roi b) = Done small) boxes ->
  Forall (fun b => exists small, smallerBox shrinkFactor (roi b) = Done small) boxes'.
Proof.
  revert boxes; induction boxes' as [|b' boxes' IH]; intros [|b boxes] E H;
    try discriminate E; [constructor |].
  simpl in E. injection E as Eb Et. inversion H as [|? ? Hb Ht]; subst.
  constructor; [rewrite Eb; exact Hb | exact (IH boxes Et Ht)].
Qed.

(** The loop over the points: every box keeps its rectangle, its identifier
    and its matches, and receives, in order, the points it solely owns. *)
Lemma cluster_loop_spec (shrinkFactor : float32) (P_rect_xx R_rect_xx RT : Mat)
    (rois : list Rect) (points : list LidarPoint) :
  Forall (fun p => exists pixel, project P_rect_xx R_rect_xx RT p = Done pixel) points ->
  forall boxes,
    map roi boxes = rois ->
    Forall (fun b => exists small, smallerBox shrinkFactor (roi b) = Done small) boxes ->
    exists boxes',
      foldM (cluster_point shrinkFactor P_rect_xx R_rect_xx RT) points boxes = Done boxes' /\
      map roi boxes' = rois /\
      forall i b, boxes !! i = Some b ->
        exists b', boxes' !! i = Some b' /\
          boxID b' = boxID b /\ roi b' = roi b /\ kptMatches b' = kptMatches b /\
          lidarPoints b' =
          lidarPoints b ++ owned_points shrinkFactor P_rect_xx R_rect_xx RT rois i points.
Proof.
  induction 1 as [|p points [pixel Hp] _ IH]; intros boxes Hr Hb.
  - exists boxes. split; [reflexivity|]. split; [exact Hr|].
    intros i b Hi. exists b. unfold owned_points. simpl. rewrite app_nil_r. auto.
  - destruct (cluster_point_spec shrinkFactor _ _ _ boxes p pixel Hp Hb)
      as (boxes1 & Hc & Hr1 & H1).
    destruct (IH boxes1) as (boxes' & Hf & Hr' & H');
      [congruence | eapply Forall_shrinkable_rois; eassumption |].
    exists boxes'. simpl. rewrite Hc. cbn [bind]. split; [exact Hf|]. split; [exact Hr'|].
    intros i b Hi. specialize (H1 i b Hi). rewrite Hr in H1.
    destruct (H' i _ H1) as (b' & Hi' & E1 & E2 & E3 & E4).
    exists b'. split; [exact Hi'|].
    unfold owned_points in *. simpl List.filter.
    destruct (sole_owner shrinkFactor P_rect_xx R_rect_xx RT rois i p); simpl in *.
    + rewrite E4, <- app_assoc. auto.
    + auto.
Qed.

Lemma sole_owner_exists (shrinkFactor : float32) (P_rect_xx R_rect_xx RT : Mat)
    (rois : list Rect) (p : LidarPoint) :
  (exists i, sole_owner shrinkFactor P_rect_xx R_rect_xx RT rois i p = true) <->
  (exists pixel, project P_rect_xx R_rect_xx RT p = Done pixel /\
                 exactly_one_contains shrinkFactor pixel rois = true).
Proof.
  unfold sole_owner. split.
  - intros [i H]. destruct (project _ _ _ p) as [pixel|]; [|discriminate].
    apply andb_true_iff in H as [H _]. eauto.
  - intros (pixel & -> & H). unfold exactly_one_contains in *. rewrite H.
    apply Nat.eqb_eq in H. rewrite <- (length_positions _ 0) in H.
    destruct (positions (shrunk_contains shrinkFactor pixel) 0 rois) as [|j [|j' t]] eqn:E;
      try discriminate H.
    apply positions_singleton in E as [_ (a & Hj & Fa)].
    exists j. rewrite Hj. exact Fa.
Qed.

Lemma sole_owner_unique (shrinkFactor : float32) (P_rect_xx R_rect_xx RT : Mat)
    (rois : list Rect) (p : LidarPoint) (i j : nat) :
  sole_owner shrinkFactor P_rect_xx R_rect_xx RT rois i p = true ->
  sole_owner shrinkFactor P_rect_xx R_rect_xx RT rois j p = true ->
  i = j.
Proof.
  unfold sole_owner. destruct (project _ _ _ p) as [pixel|]; [|discriminate].
  unfold exactly_one_contains. rewrite !andb_true_iff, Nat.eqb_eq.
  intros [L Hi] [_ Hj].
  assert (Pi : positions (shrunk_contains shrinkFactor pixel) 0 rois = [i]).
  { apply positions_singleton. split; [exact L|].
    destruct (rois !! i) as [a|]; [eauto | discriminate]. }
  assert (Pj : positions (shrunk_contains shrinkFactor pixel) 0 rois = [j]).
  { apply positions_singleton. split; [exact L|].
    destruct (rois !! j) as [a|]; [eauto | discriminate]. }
  congruence.
Qed.

(** The rectangle and the pixel of the amended claim are those of the code. *)
Lemma in_truncated_shrunk_rectangle_eq (s : float32) (pixel : Point) (b : Rect) :
  in_truncated_shrunk_rectangle s pixel b = shrunk_contains s pixel b.
Proof.
  unfold in_truncated_shrunk_rectangle, truncated_side, shrunk_contains, smallerBox.
  destruct (to_int (d_add (d_of_Z (rx b)) _)) as [sx|]; cbn [bind]; [|reflexivity].
  destruct (to_int (d_add (d_of_Z (ry b)) _)) as [sy|]; cbn [bind].
  - destruct (to_int (f_mul (f_of_Z (width b)) _)) as [sw|]; cbn [bind]; [|reflexivity].
    destruct (to_int (f_mul (f_of_Z (height b)) _)) as [sh|]; cbn [bind]; reflexivity.
  - destruct (to_int (f_mul (f_of_Z (width b)) _)) as [sw|]; cbn [bind]; reflexivity.
Qed.

Lemma truncated_pixel_eq (P_rect_xx R_rect_xx RT : Mat) (p : LidarPoint) :
  truncated_pixel P_rect_xx R_rect_xx RT p = project P_rect_xx R_rect_xx RT p.
Proof.
  unfold truncated_pixel, project.
  generalize (mat_mul (mat_mul P_rect_xx R_rect_xx) RT). intros A.
  unfold mat_mul at 1 2 3 4 5. cbn [hd length seq map].
  unfold Mat_at.
  destruct A as [|a [|b [|c A]]]; cbn [map concat app hd length Nat.mul Nat.add lookup list_lookup];
    try reflexivity.
Qed.

Lemma assigned_to_eq (s : float32) (P_rect_xx R_rect_xx RT : Mat)
    (rois : list Rect) (i : nat) (p : LidarPoint) :
  assigned_to s P_rect_xx R_rect_xx RT rois i p
  = sole_owner s P_rect_xx R_rect_xx RT rois i p.
Proof.
  unfold assigned_to, sole_owner, exactly_one_contains. rewrite truncated_pixel_eq.
  destruct (project P_rect_xx R_rect_xx RT p) as [pixel|]; [|reflexivity].
  rewrite (List.filter_ext _ _ (in_truncated_shrunk_rectangle_eq s pixel)).
  destruct (rois !! i) as [b|]; [|reflexivity].
  now rewrite in_truncated_shrunk_rectangle_eq.
Qed.

Lemma truncated_sides_shrinkable (s : float32) (b : Rect) :
  (exists cols rows,
      truncated_side s (rx b) (width b) = Done cols /\
      truncated_side s (ry b) (height b) = Done rows) ->
  exists small, smallerBox s b = Done small.
Proof.
  intros (cols & rows & Hc & Hr). unfold truncated_side in Hc, Hr.
  apply bind_Done in Hc as (sx & Hsx & Hc). apply bind_Done in Hc as (sw & Hsw & _).
  apply bind_Done in Hr as (sy & Hsy & Hr). apply bind_Done in Hr as (sh & Hsh & _).
  unfold smallerBox. rewrite Hsx, Hsy, Hsw, Hsh. cbn [bind]. eauto.
Qed.

(** C4 (as stated) fails on the rectangle of the specification.  For the
    Region [small_box], the rectangle (0, 0, 10, 10), and the shrink factor
    0.19 the sides move inward by 0.95: the shrunk rectangle of the
    specification holds the columns and rows from 0.95 to 9.05.  The code
    keeps the shrunk rectangle in a [cv::Rect] of [int]s: the corner
    (0.95, 0.95) becomes (0, 0) and the size 8.1 becomes 8, the columns and
    rows are 0 to 7.  The point with the pixel (8, 5), in the shrunk
    rectangle of the only Region, is appended to no Region; the point with
    the pixel (0, 5), in the shrunk rectangle of no Region, is appended. *)
Lemma clusterLidarWithROI_shrunk_rectangle_is_truncated :
  project projection34 identity4 identity4 (lidar_over 8 5) = Done (mkPoint 8 5) /\
  spec_shrunk_contains shrink_019 (mkPoint 8 5) (roi small_box) = true /\
  clusterLidarWithROI [small_box] [lidar_over 8 5] shrink_019
                      projection34 identity4 identity4 = Done [small_box] /\
  project projection34 identity4 identity4 (lidar_over 0 5) = Done (mkPoint 0 5) /\
  spec_shrunk_contains shrink_019 (mkPoint 0 5) (roi small_box) = false /\
  clusterLidarWithROI [small_box] [lidar_over 0 5] shrink_019
                      projection34 identity4 identity4
  = Done [push_lidarPoint (lidar_over 0 5) small_box] /\
  smallerBox shrink_019 (roi small_box) = Done (mkRect 0 0 8 8).
Proof.
  repeat split; vm_compute; reflexivity.
Qed.

(** C4 (amended): [clusterLidarWithROI] appends a Lidar point to the
    collection of a Region if and only if the truncated shrunk rectangle of
    exactly one Region contains the pixel of the point, and then to that
    Region.  The truncated shrunk rectangle has the corner
    [(x + s * width / 2, y + s * height / 2)] and the size
    [(width * (1 - s), height * (1 - s))], each of the four truncated to a
    whole number; the pixel is [(Y0 / Y2, Y1 / Y2)], truncated, of
    [Y = P_rect_xx * R_rect_xx * RT * (x, y, z, 1)].  When these are defined
    for every point and every Region, the run returns, and the Region at
    position [i] holds its former points followed by the points assigned to
    it, in their order; a point whose pixel lies in the truncated shrunk
    rectangles of no Region or of several Regions is assigned to none, and
    no point is assigned to two Regions. *)
Theorem clusterLidarWithROI_assigns_by_truncated_rectangles :
  forall (boundingBoxes : list BoundingBox) (points : list LidarPoint)
         (shrinkFactor : float32) (P_rect_xx R_rect_xx RT : Mat),
    Forall (fun p => exists pixel, truncated_pixel P_rect_xx R_rect_xx RT p = Done pixel)
           points ->
    Forall (fun b => exists cols rows,
              truncated_side shrinkFactor (rx (roi b)) (width (roi b)) = Done cols /\
              truncated_side shrinkFactor (ry (roi b)) (height (roi b)) = Done rows)
           boundingBoxes ->
    let assigned :=
      assigned_to shrinkFactor P_rect_xx R_rect_xx RT (map roi boundingBoxes) in
    (exists boxes',
        clusterLidarWithROI boundingBoxes points shrinkFactor P_rect_xx R_rect_xx RT
        = Done boxes' /\
        length boxes' = length boundingBoxes /\
        forall i b, boundingBoxes !! i = Some b ->
          exists b', boxes' !! i = Some b' /\
            boxID b' = boxID b /\ roi b' = roi b /\ kptMatches b' = kptMatches b /\
            lidarPoints b' = lidarPoints b ++ List.filter (assigned i) points) /\
    (forall p, (exists i, assigned i p = true) <->
               (exists pixel,
                   truncated_pixel P_rect_xx R_rect_xx RT p = Done pixel /\
                   length (List.filter (in_truncated_shrunk_rectangle shrinkFactor pixel)
                                       (map roi boundingBoxes)) = 1%nat)) /\
    (forall p i j, assigned i p = true -> assigned j p = true -> i = j).
Proof.
  intros boundingBoxes points shrinkFactor P_rect_xx R_rect_xx RT Hp Hb assigned.
  assert (Hp' : Forall (fun p => exists pixel, project P_rect_xx R_rect_xx RT p = Done pixel)
                       points).
  { eapply List.Forall_impl; [|exact Hp]. intros p [pixel H].
    exists pixel. now rewrite <- truncated_pixel_eq. }
  assert (Hb' : Forall (fun b => exists small, smallerBox shrinkFactor (roi b) = Done small)
                       boundingBoxes).
  { eapply List.Forall_impl; [|exact Hb]. intros b. apply truncated_sides_shrinkable. }
  split; [|split].
  - destruct (cluster_loop_spec shrinkFactor P_rect_xx R_rect_xx RT
                (map roi boundingBoxes) points Hp' boundingBoxes eq_refl Hb')
      as (boxes' & Hrun & Hr & H).
    exists boxes'. split; [exact Hrun|]. split.
    + rewrite <- (length_map roi boxes'), Hr. apply length_map.
    + intros i b Hi. destruct (H i b Hi) as (b' & Hi' & E1 & E2 & E3 & E4).
      exists b'. repeat (split; [assumption|]). rewrite E4. f_equal.
      unfold owned_points, assigned. apply List.filter_ext.
      intros p. symmetry. apply assigned_to_eq.
  - intros p. unfold assigned. rewrite truncated_pixel_eq.
    split.
    + intros [i Hi]. rewrite assigned_to_eq in Hi.
      destruct (proj1 (sole_owner_exists _ _ _ _ _ p) (ex_intro _ i Hi)) as (pixel & Hpix & H1).
      exists pixel. split; [exact Hpix|].
      unfold exactly_one_contains in H1. apply Nat.eqb_eq in H1.
      now rewrite (List.filter_ext _ _ (in_truncated_shrunk_rectangle_eq shrinkFactor pixel)).
    + intros (pixel & Hpix & H1).
      rewrite (List.filter_ext _ _ (in_truncated_shrunk_rectangle_eq shrinkFactor pixel)) in H1.
      destruct (proj2 (sole_owner_exists shrinkFactor P_rect_xx R_rect_xx RT
                         (map roi boundingBoxes) p)) as [i Hi].
      { exists pixel. split; [exact Hpix|]. unfold exactly_one_contains.
        now apply Nat.eqb_eq. }
      exists i. now rewrite assigned_to_eq.
  - intros p i j Hi Hj. unfold assigned in *. rewrite assigned_to_eq in Hi, Hj.
    exact (sole_owner_unique _ _ _ _ _ _ _ _ Hi Hj).
Qed.

Lemma clusterLidarWithROI_assigns_by_truncated_rectangles_witness :
  smallerBox shrink_half (roi left_box) = Done (mkRect 25 25 50 50) /\
  smallerBox shrink_half (roi right_box) = Done (mkRect 75 25 50 50) /\
  truncated_pixel magnify4 identity4 identity4 lidar_deep_right = Done (mkPoint 80 60) /\
  truncated_pixel magnify4 identity4 identity4 lidar_deep_edge = Done (mkPoint 10 60) /\
  exists boxes',
    clusterLidarWithROI [left_box; right_box] [lidar_deep_right; lidar_deep_edge]
                        shrink_half magnify4 identity4 identity4 = Done boxes' /\
    (lidarPoints <$> boxes' !! 0%nat) = Some [] /\
    (lidarPoints <$> boxes' !! 1%nat) = Some [lidar_deep_right].
Proof.
  split; [vm_compute; reflexivity|]. split; [vm_compute; reflexivity|].
  split; [vm_compute; reflexivity|]. split; [vm_compute; reflexivity|].
  destruct (clusterLidarWithROI_assigns_by_truncated_rectangles
              [left_box; right_box] [lidar_deep_right; lidar_deep_edge]
              shrink_half magnify4 identity4 identity4) as [(boxes' & Hrun & _ & H) _].
  - constructor; [exists (mkPoint 80 60); vm_compute; reflexivity|].
    constructor; [exists (mkPoint 10 60); vm_compute; reflexivity|constructor].
  - constructor; [exists (25, 50), (25, 50); split; vm_compute; reflexivity|].
    constructor; [exists (75, 50), (25, 50); split; vm_compute; reflexivity|constructor].
  - exists boxes'. split; [exact Hrun|].
    destruct (H 0%nat left_box eq_refl) as (b0 & Hb0 & _ & _ & _ & L0).
    destruct (H 1%nat right_box eq_refl) as (b1 & Hb1 & _ & _ & _ & L1).
    rewrite Hb0, Hb1. cbn [fmap option_fmap option_map]. rewrite L0, L1.
    split; vm_compute; reflexivity.
Defined.

Lemma length_filter_le {A : Type} (f g : A -> bool) (l : list A) :
  (forall a, In a l -> f a = true -> g a = true) ->
  (length (List.filter f l) <= length (List.filter g l))%nat.
Proof.
  induction l as [|a l IH]; intros H; simpl; [lia|].
  assert (IH' := IH (fun b Hb => H b (or_intror Hb))).
  destruct (f a) eqn:Fa.
  - rewrite (H a (or_introl eq_refl) Fa). simpl. lia.
  - destruct (g a); simpl; lia.
Qed.

Lemma length_filter_pos {A : Type} (f : A -> bool) (l : list A) (i : nat) (a : A) :
  l !! i = Some a -> f a = true -> (1 <= length (List.filter f l))%nat.
Proof.
  revert i; induction l as [|b l IH]; intros [|i] H Fa; simpl in *; try discriminate.
  - injection H as ->. rewrite Fa. simpl. lia.
  - destruct (f b); simpl; [lia | eapply IH; eassumption].
Qed.

(** Shrinking more can add a point to a Region: the pixel (55, 50) lies in
    both rectangles when they are not shrunk, so the point is discarded; with
    the shrink factor 0.5 only the left rectangle still contains it, and the
    left Region receives the point. *)
Lemma clusterLidarWithROI_count_grows_with_shrinkFactor :
  fle shrink_none shrink_half = true /\
  flt shrink_half (f_of_Z 1) = true /\
  clusterLidarWithROI [left_box; right_box] [lidar_over 55 50] shrink_none
                      projection34 identity4 identity4
  = Done [left_box; right_box] /\
  clusterLidarWithROI [left_box; right_box] [lidar_over 55 50] shrink_half
                      projection34 identity4 identity4
  = Done [push_lidarPoint (lidar_over 55 50) left_box; right_box].
Proof. repeat split; vm_compute; reflexivity. Qed.

(** The truncation of the shrunk rectangle to [int] members is not monotone
    either: for a single 10 x 10 Region the factor 0.19 gives the rectangle
    [0, 8) x [0, 8), the factor 0.2 the rectangle [1, 9) x [1, 9), and the
    pixel (8, 5) lies in the second one only. *)
Example smallerBox_is_not_nested :
  fle shrink_019 shrink_020 = true /\
  smallerBox shrink_019 (roi small_box) = Done (mkRect 0 0 8 8) /\
  smallerBox shrink_020 (roi small_box) = Done (mkRect 1 1 8 8) /\
  clusterLidarWithROI [small_box] [lidar_over 8 5] shrink_019
                      projection34 identity4 identity4 = Done [small_box] /\
  clusterLidarWithROI [small_box] [lidar_over 8 5] shrink_020
                      projection34 identity4 identity4
  = Done [push_lidarPoint (lidar_over 8 5) small_box].
Proof. repeat split; vm_compute; reflexivity. Qed.

(** C8 (amended): when every Region's rectangle shrunk by [s2] lies inside
    its rectangle shrunk by [s1], and no point projects into the
    [s1]-shrunk rectangles of two or more Regions, every Region receives at
    most as many points with [s2] as with [s1]. *)
Theorem clusterLidarWithROI_count_monotone :
  forall (boundingBoxes : list BoundingBox) (points : list LidarPoint)
         (s1 s2 : float32) (P_rect_xx R_rect_xx RT : Mat),
    Forall (fun p => exists pixel, project P_rect_xx R_rect_xx RT p = Done pixel) points ->
    Forall (fun b => exists small, smallerBox s1 (roi b) = Done small) boundingBoxes ->
    Forall (fun b => exists small, smallerBox s2 (roi b) = Done small) boundingBoxes ->
    (forall b pixel, In b boundingBoxes ->
       shrunk_contains s2 pixel (roi b) = true -> shrunk_contains s1 pixel (roi b) = true) ->
    (forall p pixel, In p points -> project P_rect_xx R_rect_xx RT p = Done pixel ->
       (length (List.filter (shrunk_contains s1 pixel) (map roi boundingBoxes)) <= 1)%nat) ->
    exists boxes1 boxes2,
      clusterLidarWithROI boundingBoxes points s1 P_rect_xx R_rect_xx RT = Done boxes1 /\
      clusterLidarWithROI boundingBoxes points s2 P_rect_xx R_rect_xx RT = Done boxes2 /\
      forall i b, boundingBoxes !! i = Some b ->
        exists b1 b2 added1 added2,
          boxes1 !! i = Some b1 /\ boxes2 !! i = Some b2 /\
          lidarPoints b1 = lidarPoints b ++ added1 /\
          lidarPoints b2 = lidarPoints b ++ added2 /\
          (length added2 <= length added1)%nat.
Proof.
  intros boundingBoxes points s1 s2 P_rect_xx R_rect_xx RT Hp H1 H2 Hnest Huniq.
  destruct (cluster_loop_spec s1 P_rect_xx R_rect_xx RT (map roi boundingBoxes)
              points Hp boundingBoxes eq_refl H1) as (boxes1 & Hrun1 & _ & S1).
  destruct (cluster_loop_spec s2 P_rect_xx R_rect_xx RT (map roi boundingBoxes)
              points Hp boundingBoxes eq_refl H2) as (boxes2 & Hrun2 & _ & S2).
  exists boxes1, boxes2. split; [exact Hrun1|]. split; [exact Hrun2|].
  intros i b Hi.
  destruct (S1 i b Hi) as (b1 & Hb1 & _ & _ & _ & L1).
  destruct (S2 i b Hi) as (b2 & Hb2 & _ & _ & _ & L2).
  exists b1, b2, (owned_points s1 P_rect_xx R_rect_xx RT (map roi boundingBoxes) i points),
    (owned_points s2 P_rect_xx R_rect_xx RT (map roi boundingBoxes) i points).
  repeat (split; [assumption|]).
  apply length_filter_le. intros p Hin. unfold sole_owner.
  destruct (project P_rect_xx R_rect_xx RT p) as [pixel|] eqn:Ep; [|discriminate].
  rewrite !andb_true_iff. intros [_ Hc].
  rewrite list_lookup_fmap, Hi in Hc |- *. cbn [fmap option_fmap option_map] in *.
  assert (Hc1 : shrunk_contains s1 pixel (roi b) = true).
  { apply Hnest; [|exact Hc]. apply list_elem_of_In, list_elem_of_lookup. eauto. }
  split; [|exact Hc1].
  unfold exactly_one_contains. apply Nat.eqb_eq.
  pose proof (Huniq p pixel Hin Ep) as U.
  pose proof (length_filter_pos (shrunk_contains s1 pixel) (map roi boundingBoxes) i (roi b)) as L.
  rewrite list_lookup_fmap, Hi in L. specialize (L eq_refl Hc1). lia.
Qed.

Lemma clusterLidarWithROI_count_monotone_witness :
  exists boxes1 boxes2,
    clusterLidarWithROI [left_box] [lidar_over 10 50; lidar_over 30 50] shrink_none
                        projection34 identity4 identity4 = Done boxes1 /\
    clusterLidarWithROI [left_box] [lidar_over 10 50; lidar_over 30 50] shrink_half
                        projection34 identity4 identity4 = Done boxes2 /\
    ((length <$> (lidarPoints <$> boxes1)) = [2%nat]) /\
    ((length <$> (lidarPoints <$> boxes2)) = [1%nat]).
Proof.
  destruct (clusterLidarWithROI_count_monotone
              [left_box] [lidar_over 10 50; lidar_over 30 50] shrink_none shrink_half
              projection34 identity4 identity4) as (boxes1 & boxes2 & R1 & R2 & _).
  - constructor; [eexists; vm_compute; reflexivity|].
    constructor; [eexists; vm_compute; reflexivity|constructor].
  - constructor; [eexists; vm_compute; reflexivity|constructor].
  - constructor; [eexists; vm_compute; reflexivity|constructor].
  - intros b pixel [<-|[]]. unfold shrunk_contains.
    replace (smallerBox shrink_half (roi left_box)) with (Done (mkRect 25 25 50 50))
      by (vm_compute; reflexivity).
    replace (smallerBox shrink_none (roi left_box)) with (Done (mkRect 0 0 100 100))
      by (vm_compute; reflexivity).
    unfold contains. cbn [rx ry width height]. intros H.
    apply andb_true_iff in H as [H H4]. apply andb_true_iff in H as [H H3].
    apply andb_true_iff in H as [H1 H2].
    rewrite !andb_true_iff. repeat split; lia.
  - intros p pixel _ _. cbn [map length List.filter].
    destruct (shrunk_contains shrink_none pixel (roi left_box)); simpl; lia.
  - exists boxes1, boxes2. split; [exact R1|]. split; [exact R2|].
    vm_compute in R1. vm_compute in R2.
    injection R1 as <-. injection R2 as <-. split; reflexivity.
Defined.

(** ** matchBoundingBoxes *)

(** The scan of a row from column [j] on: either no count exceeds the
    running maximum and the running index is kept, or the result is the
    first column, from [j] on, that holds the greatest count. *)
Lemma scan_row_spec (row : list Z) (j maxCount index0 : Z) :
  (Forall (fun c => c <= maxCount) row /\ scan_row row j maxCount index0 = index0) \/
  (exists k count,
      row !! k = Some count /\ scan_row row j maxCount index0 = j + Z.of_nat k /\
      maxCount < count /\
      (forall k' c, row !! k' = Some c -> c <= count) /\
      (forall k' c, row !! k' = Some c -> (k' < k)%nat -> c < count)).
Proof.
  revert j maxCount index0; induction row as [|count row IH]; intros j maxCount index0.
  - left. split; [constructor | reflexivity].
  - cbn [scan_row]. destruct (count >? maxCount) eqn:C.
    + right. destruct (IH (j + 1) count j) as [[A E]|(k & c & Hk & E & Hc & Hmax & Hfirst)].
      * exists 0%nat, count. rewrite E. repeat split; [lia | lia | |].
        -- intros [|k'] c' Hk'; simpl in Hk'; [injection Hk' as <-; lia|].
           rewrite List.Forall_forall in A. apply A.
           apply list_elem_of_In, list_elem_of_lookup. eauto.
        -- intros k' c' _ Hlt. lia.
      * exists (S k), c. rewrite E. repeat split; [exact Hk | lia | lia | |].
        -- intros [|k'] c' Hk'; simpl in Hk'; [injection Hk' as <-; lia | eauto].
        -- intros [|k'] c' Hk' Hlt; simpl in Hk'; [injection Hk' as <-; lia|].
           apply (Hfirst k' c' Hk'). lia.
    + destruct (IH (j + 1) maxCount index0) as [[A E]|(k & c & Hk & E & Hc & Hmax & Hfirst)].
      * left. split; [constructor; [lia | exact A] | exact E].
      * right. exists (S k), c. rewrite E. repeat split; [exact Hk | lia | lia | |].
        -- intros [|k'] c' Hk'; simpl in Hk'; [injection Hk' as <-; lia | eauto].
        -- intros [|k'] c' Hk' Hlt; simpl in Hk'; [injection Hk' as <-; lia|].
           apply (Hfirst k' c' Hk'). lia.
Qed.

(** The scan of a whole row of counts that are not negative. *)
Lemma scan_row_first_maximum (row : list Z) :
  Forall (fun c => 0 <= c) row ->
  (row = [] /\ scan_row row 0 INT_MIN 0 = 0) \/
  first_maximum row (scan_row row 0 INT_MIN 0).
Proof.
  intros Hpos.
  destruct (scan_row_spec row 0 INT_MIN 0) as [[A E]|(k & c & Hk & E & Hc & Hmax & Hfirst)].
  - left. split; [|exact E]. destruct row as [|c row]; [reflexivity|].
    inversion A; inversion Hpos; subst. unfold INT_MIN in *. lia.
  - right. rewrite E. exists c. rewrite Z.add_0_l, Nat2Z.id.
    repeat split; [lia | exact Hk | exact Hmax |].
    intros k' c' Hk' Hlt. apply (Hfirst k' c' Hk'). lia.
Qed.

Lemma scan_row_all_zero (row : list Z) :
  Forall (fun c => c = 0) row -> scan_row row 0 INT_MIN 0 = 0.
Proof.
  intros Hz.
  destruct (scan_row_spec row 0 INT_MIN 0) as [[A E]|(k & c & Hk & E & Hc & Hmax & Hfirst)];
    [exact E|].
  rewrite E. destruct k as [|k]; [reflexivity|]. exfalso.
  destruct row as [|c0 row]; [discriminate|].
  assert (c0 < c) by (apply (Hfirst 0%nat c0 eq_refl); lia).
  rewrite List.Forall_forall in Hz.
  assert (c0 = 0) by (apply Hz; left; reflexivity).
  assert (c = 0) by (apply Hz, list_elem_of_In, list_elem_of_lookup; eauto).
  lia.
Qed.

(** The map after the loop over the rows. *)
Lemma assign_rows_lookup (rows : list (list Z)) (i : Z) (bb : gmap Z Z) (k : Z) :
  assign_rows rows i bb !! k =
  if (i <=? k) && (k <? i + Z.of_nat (length rows))
  then (fun row => scan_row row 0 INT_MIN 0) <$> rows !! Z.to_nat (k - i)
  else bb !! k.
Proof.
  revert i bb; induction rows as [|row rows IH]; intros i bb.
  - cbn [assign_rows length].
    destruct (i <=? k) eqn:A; [|reflexivity].
    destruct (k <? i + Z.of_nat 0) eqn:B; [|reflexivity].
    exfalso. compare_to_prop. lia.
  - cbn [assign_rows]. rewrite IH. rewrite length_cons.
    destruct (i + 1 <=? k) eqn:A1; destruct (k <? i + 1 + Z.of_nat (length rows)) eqn:B1;
      destruct (i <=? k) eqn:A; destruct (k <? i + Z.of_nat (S (length rows))) eqn:B;
      cbn [andb]; compare_to_prop; try (exfalso; lia).
    + replace (Z.to_nat (k - i)) with (S (Z.to_nat (k - (i + 1)))) by lia. reflexivity.
    + apply lookup_insert_ne. lia.
    + assert (k = i) as -> by lia. rewrite Z.sub_diag. cbn. apply lookup_insert_eq.
    + apply lookup_insert_ne. lia.
Qed.

(** Running the loop over the rows on the map it produced changes nothing. *)
Lemma assign_rows_idempotent (rows : list (list Z)) (bb : gmap Z Z) :
  assign_rows rows 0 (assign_rows rows 0 bb) = assign_rows rows 0 bb.
Proof.
  apply map_eq. intros k. rewrite (assign_rows_lookup rows 0 (assign_rows rows 0 bb)).
  destruct ((0 <=? k) && (k <? 0 + Z.of_nat (length rows))) eqn:E; [|reflexivity].
  rewrite assign_rows_lookup, E. reflexivity.
Qed.

Lemma box_loop_range (kpts : list KeyPoint) (idx : Z) (kpt : KeyPoint) (pixel : Point)
    (n : Z) (l : list BoundingBox) (id0 : Z) :
  index kpts idx = Done kpt ->
  keypoint_pixel_rounded kpt = Done pixel ->
  Forall (fun b => 0 <= boxID b < n) l ->
  id0 = -1 \/ 0 <= id0 < n ->
  exists id, foldM (box_step kpts idx) l id0 = Done id /\ (id = -1 \/ 0 <= id < n).
Proof.
  intros Hk Hp Hl; revert id0; induction Hl as [|b l Hb _ IH]; intros id0 H0.
  - exists id0. split; [reflexivity | exact H0].
  - cbn [foldM]. unfold box_step at 1. rewrite Hk. cbn [bind]. rewrite Hp. cbn [bind].
    destruct (contains (roi b) pixel); apply IH; [right; exact Hb | exact H0].
Qed.

Lemma box_of_range (frame : DataFrame) (idx : Z) :
  ids_are_positions frame -> resolves frame idx ->
  exists id, box_of frame idx = Done id /\
             (id = -1 \/ 0 <= id < Z.of_nat (length (boundingBoxes frame))).
Proof.
  intros Hid (kpt & pixel & Hk & Hp). unfold box_of.
  eapply box_loop_range; [exact Hk | exact Hp | | left; reflexivity].
  apply List.Forall_forall. intros b Hb.
  apply list_elem_of_In, list_elem_of_lookup in Hb as [i Hi].
  rewrite (Hid i b Hi). apply lookup_lt_Some in Hi. lia.
Qed.

Lemma vote_matrix_zero (currSize prevSize : nat) :
  vote_matrix currSize prevSize (replicate currSize (replicate prevSize 0)).
Proof.
  split; [apply length_replicate|].
  apply List.Forall_forall. intros row Hrow.
  apply list_elem_of_In, elem_of_replicate in Hrow as [-> _].
  split; [apply length_replicate|].
  apply List.Forall_forall. intros c Hc.
  apply list_elem_of_In, elem_of_replicate in Hc as [-> _]. lia.
Qed.

Lemma vote_matrix_increment (currSize prevSize : nat) (M : list (list Z)) (i j : nat) :
  vote_matrix currSize prevSize M ->
  vote_matrix currSize prevSize (alter (alter Z.succ j) i M).
Proof.
  intros [L H]. split; [rewrite length_alter; exact L|].
  apply List.Forall_forall. intros row Hrow.
  apply list_elem_of_In, list_elem_of_lookup in Hrow as [k Hk].
  rewrite List.Forall_forall in H.
  destruct (decide (i = k)) as [->|Hne].
  - rewrite list_lookup_alter_eq in Hk.
    destruct (M !! k) as [row0|] eqn:E; [|discriminate]. injection Hk as <-.
    destruct (H row0) as [L0 P0];
      [apply list_elem_of_In, list_elem_of_lookup; eauto|].
    split; [rewrite length_alter; exact L0|].
    apply List.Forall_forall. intros c Hc.
    apply list_elem_of_In, list_elem_of_lookup in Hc as [k' Hk'].
    rewrite List.Forall_forall in P0.
    destruct (decide (j = k')) as [->|Hne'].
    + rewrite list_lookup_alter_eq in Hk'.
      destruct (row0 !! k') as [c0|] eqn:E'; [|discriminate]. injection Hk' as <-.
      assert (0 <= c0) by (apply P0, list_elem_of_In, list_elem_of_lookup; eauto). lia.
    + rewrite list_lookup_alter_ne in Hk' by exact Hne'.
      apply P0, list_elem_of_In, list_elem_of_lookup; eauto.
  - rewrite list_lookup_alter_ne in Hk by exact Hne.
    apply H, list_elem_of_In, list_elem_of_lookup; eauto.
Qed.

Lemma vote_step_ok (prevFrame currFrame : DataFrame) (M : list (list Z)) (m : DMatch) :
  ids_are_positions prevFrame -> ids_are_positions currFrame ->
  resolves currFrame (trainIdx m) -> resolves prevFrame (queryIdx m) ->
  vote_matrix (length (boundingBoxes currFrame)) (length (boundingBoxes prevFrame)) M ->
  exists M', vote_step prevFrame currFrame M m = Done M' /\
    vote_matrix (length (boundingBoxes currFrame)) (length (boundingBoxes prevFrame)) M'.
Proof.
  intros Ip Ic Rc Rp HM. unfold vote_step.
  destruct (box_of_range currFrame (trainIdx m) Ic Rc) as (currID & -> & Hc).
  destruct (box_of_range prevFrame (queryIdx m) Ip Rp) as (prevID & -> & Hp).
  cbn [bind].
  destruct (currID =? -1) eqn:E1; [exists M; split; [reflexivity | exact HM]|].
  destruct (prevID =? -1) eqn:E2; [exists M; split; [reflexivity | exact HM]|].
  cbn [negb andb]. compare_to_prop.
  destruct Hc as [?|Hc]; [contradiction|]. destruct Hp as [?|Hp]; [contradiction|].
  unfold increment. destruct HM as [L H]. rewrite L.
  destruct (0 <=? currID) eqn:A1; [|exfalso; compare_to_prop; lia].
  destruct (currID <? Z.of_nat (length (boundingBoxes currFrame))) eqn:A2;
    [|exfalso; compare_to_prop; lia].
  destruct (0 <=? prevID) eqn:A3; [|exfalso; compare_to_prop; lia].
  destruct (prevID <? Z.of_nat (length (boundingBoxes prevFrame))) eqn:A4;
    [|exfalso; compare_to_prop; lia].
  cbn [andb]. eexists. split; [reflexivity|].
  apply vote_matrix_increment. split; assumption.
Qed.

Lemma votes_ok (matches : list DMatch) (prevFrame currFrame : DataFrame) :
  ids_are_positions prevFrame -> ids_are_positions currFrame ->
  Forall (fun m => resolves currFrame (trainIdx m) /\ resolves prevFrame (queryIdx m))
         matches ->
  exists M, votes matches prevFrame currFrame = Done M /\
    vote_matrix (length (boundingBoxes currFrame)) (length (boundingBoxes prevFrame)) M.
Proof.
  intros Ip Ic Hm. unfold votes.
  generalize (vote_matrix_zero (length (boundingBoxes currFrame))
                               (length (boundingBoxes prevFrame))).
  generalize (replicate (length (boundingBoxes currFrame))
                        (replicate (length (boundingBoxes prevFrame)) 0)).
  induction Hm as [|m matches [Rc Rp] _ IH]; intros M HM.
  - exists M. split; [reflexivity | exact HM].
  - destruct (vote_step_ok prevFrame currFrame M m Ip Ic Rc Rp HM) as (M1 & E & HM1).
    cbn [foldM]. rewrite E. cbn [bind]. apply IH. exact HM1.
Qed.

(** A frame whose only Region has the identifier 5: the produced map has the
    entry 0 -> 0 and no entry for the identifier 5. *)
Lemma matchBoundingBoxes_keys_are_positions :
  matchBoundingBoxes [] ∅ lone_frame lone_frame = Done {[ 0 := 0 ]} /\
  ({[ 0 := 0 ]} : gmap Z Z) !! 5 = None /\
  boxID <$> boundingBoxes lone_frame = [5].
Proof. repeat split; vm_compute; reflexivity. Qed.

(** C5 (amended): when the identifiers of the Regions of either frame are
    their positions 0, 1, 2, ... and every match names keypoints of the two
    frames, [matchBoundingBoxes], started on an empty map, produces a map
    whose keys are exactly the identifiers of the current-frame Regions; the
    identifier of each current-frame Region is mapped to the first column of
    its row of the vote matrix that holds the greatest count, which is the
    identifier of a previous-frame Region (ties go to the lowest identifier);
    a row of zeros, or an empty previous frame, gives 0. *)
Theorem matchBoundingBoxes_first_maximum_of_row :
  forall (matches : list DMatch) (prevFrame currFrame : DataFrame),
    ids_are_positions prevFrame ->
    ids_are_positions currFrame ->
    Forall (fun m => resolves currFrame (trainIdx m) /\ resolves prevFrame (queryIdx m))
           matches ->
    exists matchMatrix bbBestMatches,
      votes matches prevFrame currFrame = Done matchMatrix /\
      matchBoundingBoxes matches ∅ prevFrame currFrame = Done bbBestMatches /\
      (forall id, is_Some (bbBestMatches !! id) <->
                  exists b, In b (boundingBoxes currFrame) /\ boxID b = id) /\
      (forall b, In b (boundingBoxes currFrame) ->
         exists row best,
           matchMatrix !! Z.to_nat (boxID b) = Some row /\
           length row = length (boundingBoxes prevFrame) /\
           bbBestMatches !! boxID b = Some best /\
           ((boundingBoxes prevFrame = [] /\ best = 0) \/
            (first_maximum row best /\
             exists pb, boundingBoxes prevFrame !! Z.to_nat best = Some pb /\
                        boxID pb = best)) /\
           (Forall (fun c => c = 0) row -> best = 0)).
Proof.
  intros matches prevFrame currFrame Ip Ic Hm.
  destruct (votes_ok matches prevFrame currFrame Ip Ic Hm) as (M & HM & [L HR]).
  exists M, (assign_rows M 0 ∅). split; [exact HM|]. split.
  { unfold matchBoundingBoxes. rewrite HM. reflexivity. }
  split.
  - intros id. rewrite assign_rows_lookup, lookup_empty, L. split.
    + destruct (0 <=? id) eqn:A; [|intros [? ?]; discriminate].
      destruct (id <? 0 + Z.of_nat (length (boundingBoxes currFrame))) eqn:B;
        [|intros [? ?]; discriminate].
      intros _. compare_to_prop.
      destruct (lookup_lt_is_Some_2 (boundingBoxes currFrame) (Z.to_nat id)) as [b Hb]; [lia|].
      exists b. split; [apply list_elem_of_In, list_elem_of_lookup; eauto|].
      rewrite (Ic _ _ Hb). lia.
    + intros (b & Hb & <-).
      apply list_elem_of_In, list_elem_of_lookup in Hb as [i Hi].
      rewrite (Ic i b Hi). pose proof (lookup_lt_Some _ _ _ Hi) as Hlt.
      replace (0 <=? Z.of_nat i) with true by (symmetry; apply Z.leb_le; lia).
      replace (Z.of_nat i <? 0 + Z.of_nat (length (boundingBoxes currFrame))) with true
        by (symmetry; apply Z.ltb_lt; lia).
      cbn [andb]. rewrite Z.sub_0_r, Nat2Z.id.
      destruct (lookup_lt_is_Some_2 M i) as [row Hrow]; [lia|].
      rewrite Hrow. eexists; reflexivity.
  - intros b Hb.
    apply list_elem_of_In, list_elem_of_lookup in Hb as [i Hi].
    rewrite (Ic i b Hi). pose proof (lookup_lt_Some _ _ _ Hi) as Hlt.
    rewrite Nat2Z.id.
    destruct (lookup_lt_is_Some_2 M i) as [row Hrow]; [lia|].
    rewrite List.Forall_forall in HR.
    destruct (HR row) as [Lrow Prow];
      [apply list_elem_of_In, list_elem_of_lookup; eauto|].
    exists row, (scan_row row 0 INT_MIN 0).
    split; [exact Hrow|]. split; [exact Lrow|]. split.
    { rewrite assign_rows_lookup, L.
      replace (0 <=? Z.of_nat i) with true by (symmetry; apply Z.leb_le; lia).
      replace (Z.of_nat i <? 0 + Z.of_nat (length (boundingBoxes currFrame))) with true
        by (symmetry; apply Z.ltb_lt; lia).
      cbn [andb]. rewrite Z.sub_0_r, Nat2Z.id, Hrow. reflexivity. }
    split; [|apply scan_row_all_zero].
    destruct (scan_row_first_maximum row Prow) as [[-> E]|F].
    + left. split; [|exact E].
      destruct (boundingBoxes prevFrame); [reflexivity | discriminate Lrow].
    + right. split; [exact F|].
      destruct F as (c & Hpos & Hbest & _).
      pose proof (lookup_lt_Some _ _ _ Hbest) as Hlt'. rewrite Lrow in Hlt'.
      destruct (lookup_lt_is_Some_2 (boundingBoxes prevFrame)
                  (Z.to_nat (scan_row row 0 INT_MIN 0)) Hlt') as [pb Hpb].
      exists pb. split; [exact Hpb|]. rewrite (Ip _ _ Hpb). lia.
Qed.

Lemma pair_frame_ids : ids_are_positions pair_frame.
Proof.
  intros [|[|i]] b H; simpl in H; try discriminate; injection H as <-; reflexivity.
Qed.

Lemma matchBoundingBoxes_first_maximum_of_row_witness :
  exists matchMatrix bbBestMatches,
    votes pair_matches pair_frame pair_frame = Done matchMatrix /\
    matchBoundingBoxes pair_matches ∅ pair_frame pair_frame = Done bbBestMatches /\
    matchMatrix = [[1; 0]; [0; 2]] /\
    bbBestMatches !! 0 = Some 0 /\ bbBestMatches !! 1 = Some 1.
Proof.
  destruct (matchBoundingBoxes_first_maximum_of_row pair_matches pair_frame pair_frame
              pair_frame_ids pair_frame_ids) as (M & bb & HM & Hbb & _).
  - constructor; [split; exists (keypoint_at 10 10), (mkPoint 10 10);
                   split; vm_compute; reflexivity|].
    constructor; [split; exists (keypoint_at 60 10), (mkPoint 60 10);
                   split; vm_compute; reflexivity|].
    constructor; [split; exists (keypoint_at 120 10), (mkPoint 120 10);
                   split; vm_compute; reflexivity|].
    constructor.
  - exists M, bb. split; [exact HM|]. split; [exact Hbb|].
    vm_compute in HM. injection HM as <-.
    vm_compute in Hbb. injection Hbb as <-.
    repeat split; vm_compute; reflexivity.
Defined.

(** ** What a run of [clusterLidarWithROI] that returns has computed *)

Lemma enclosing_from_Done (shrinkFactor : float32) (pixel : Point)
    (boxes : list BoundingBox) (k : nat) (l : list nat) :
  enclosing_from shrinkFactor pixel k boxes = Done l ->
  Forall (fun b => exists small, smallerBox shrinkFactor (roi b) = Done small) boxes.
Proof.
  revert k l; induction boxes as [|b boxes IH]; intros k l H; [constructor|].
  cbn [enclosing_from] in H.
  apply bind_Done in H as (small & Hs & H).
  apply bind_Done in H as (others & Ho & _).
  constructor; [eauto | eapply IH; exact Ho].
Qed.

Lemma cluster_point_Done (shrinkFactor : float32) (P_rect_xx R_rect_xx RT : Mat)
    (boxes boxes' : list BoundingBox) (p : LidarPoint) :
  cluster_point shrinkFactor P_rect_xx R_rect_xx RT boxes p = Done boxes' ->
  (exists pixel, project P_rect_xx R_rect_xx RT p = Done pixel) /\
  Forall (fun b => exists small, smallerBox shrinkFactor (roi b) = Done small) boxes /\
  map roi boxes' = map roi boxes.
Proof.
  intros H. unfold cluster_point in H.
  apply bind_Done in H as (pixel & Hp & H).
  apply bind_Done in H as (enclosing & He & H).
  split; [eauto|]. split; [eapply enclosing_from_Done; exact He|].
  destruct enclosing as [|j [|j' t]]; injection H as <-;
    [reflexivity | apply map_roi_push_lidarPoint | reflexivity].
Qed.

Lemma cluster_loop_Done (shrinkFactor : float32) (P_rect_xx R_rect_xx RT : Mat)
    (points : list LidarPoint) (boxes boxes' : list BoundingBox) :
  foldM (cluster_point shrinkFactor P_rect_xx R_rect_xx RT) points boxes = Done boxes' ->
  Forall (fun p => exists pixel, project P_rect_xx R_rect_xx RT p = Done pixel) points /\
  (points = [] \/
   Forall (fun b => exists small, smallerBox shrinkFactor (roi b) = Done small) boxes).
Proof.
  revert boxes; induction points as [|p points IH]; intros boxes H.
  - split; [constructor | left; reflexivity].
  - cbn [foldM] in H. apply bind_Done in H as (boxes1 & H1 & H).
    apply cluster_point_Done in H1 as (Hp & Hb & _).
    split; [|right; exact Hb].
    constructor; [exact Hp | exact (proj1 (IH boxes1 H))].
Qed.

Lemma clusterKptMatchesWithROI_no_candidate_divides_by_zero_witness :
  clusterKptMatchesWithROI left_box [] [keypoint_at 200 200] [match_of 0 0 5]
  = Fault DivisionByZero.
Proof.
  apply clusterKptMatchesWithROI_no_candidate_divides_by_zero.
  constructor; [vm_compute; reflexivity | constructor].
Defined.

(** ** Powers of two and the number of bits of a mantissa *)

Lemma pow2_pos (k : Z) : 0 <= k -> 0 < 2 ^ k.
Proof. intros H. apply Z.pow_pos_nonneg; lia. Qed.

Lemma pow2_split (a b : Z) : 0 <= b <= a -> 2 ^ a = 2 ^ (a - b) * 2 ^ b.
Proof. intros H. rewrite <- Z.pow_add_r by lia. f_equal. lia. Qed.

Lemma digits2_pos_bounds (m : positive) :
  2 ^ (Zpos (digits2_pos m) - 1) <= Zpos m < 2 ^ Zpos (digits2_pos m).
Proof.
  induction m as [m IH|m IH|]; cbn [digits2_pos].
  - rewrite Pos2Z.inj_succ, (Pos2Z.inj_xI m).
    replace (Z.succ (Zpos (digits2_pos m)) - 1) with (Z.succ (Zpos (digits2_pos m) - 1)) by lia.
    rewrite !Z.pow_succ_r by lia.
    revert IH. generalize (2 ^ (Zpos (digits2_pos m) - 1)) (2 ^ Zpos (digits2_pos m)). intros; lia.
  - rewrite Pos2Z.inj_succ, (Pos2Z.inj_xO m).
    replace (Z.succ (Zpos (digits2_pos m)) - 1) with (Z.succ (Zpos (digits2_pos m) - 1)) by lia.
    rewrite !Z.pow_succ_r by lia.
    revert IH. generalize (2 ^ (Zpos (digits2_pos m) - 1)) (2 ^ Zpos (digits2_pos m)). intros; lia.
  - cbn. lia.
Qed.

Lemma digits2_pos_unique (m : positive) (d : Z) :
  2 ^ (d - 1) <= Zpos m < 2 ^ d -> Zpos (digits2_pos m) = d.
Proof.
  intros [L U]. destruct (digits2_pos_bounds m) as [L' U'].
  set (d' := Zpos (digits2_pos m)) in *.
  assert (0 < d') by (unfold d'; lia).
  destruct (Z.lt_trichotomy d' d) as [C|[C|C]]; [exfalso | exact C | exfalso].
  - assert (2 ^ d' <= 2 ^ (d - 1)) by (apply Z.pow_le_mono_r; lia). lia.
  - assert (0 <= d).
    { destruct (Z.lt_ge_cases d 0) as [N|N]; [|exact N].
      rewrite (Z.pow_neg_r 2 d N) in U. lia. }
    assert (2 ^ d <= 2 ^ (d' - 1)) by (apply Z.pow_le_mono_r; lia). lia.
Qed.

Lemma shifts_shr_1 : shifts 1 shr_1.
Proof.
  intros [m r s] Hm. cbn [shr_m shr_r shr_s] in *. change (2 ^ 1) with 2.
  destruct m as [|p|p]; [| |lia].
  - cbn. split; [reflexivity|]. rewrite !orb_false_iff. tauto.
  - destruct p as [p|p|]; cbn [shr_1 shr_m shr_r shr_s].
    + rewrite (Pos2Z.inj_xI p). split.
      * apply Z.div_unique with (r := 1); lia.
      * replace ((2 * Zpos p + 1) mod 2) with 1
          by (apply Z.mod_unique with (q := Zpos p); lia).
        cbn [orb]. split; [discriminate | intros [_ ?]; lia].
    + rewrite (Pos2Z.inj_xO p). split.
      * apply Z.div_unique with (r := 0); lia.
      * replace ((2 * Zpos p) mod 2) with 0
          by (apply Z.mod_unique with (q := Zpos p); lia).
        cbn [orb]. tauto.
    + split; [reflexivity|]. cbn [orb].
      split; [discriminate | intros [_ H]; vm_compute in H; discriminate H].
Qed.

Lemma shifts_compose (a b : Z) (f g : shr_record -> shr_record) :
  0 <= a -> 0 <= b -> shifts a f -> shifts b g -> shifts (a + b) (fun mrs => g (f mrs)).
Proof.
  intros Ha Hb Hf Hg mrs Hm.
  destruct (Hf mrs Hm) as [Mf Ff].
  assert (Pa := pow2_pos a Ha). assert (Pb := pow2_pos b Hb).
  assert (Hm' : 0 <= shr_m (f mrs)) by (rewrite Mf; apply Z.div_pos; lia).
  destruct (Hg (f mrs) Hm') as [Mg Fg].
  rewrite Z.pow_add_r by lia. split.
  - rewrite Mg, Mf. apply Z.div_div; lia.
  - rewrite Fg, Ff, Mf, Z.rem_mul_r by lia.
    pose proof (Z.mod_pos_bound (shr_m mrs) (2 ^ a) Pa).
    pose proof (Z.mod_pos_bound (shr_m mrs / 2 ^ a) (2 ^ b) Pb).
    split; [intros [[? ?] ?]; split; [assumption | nia] | intros [? ?]; repeat split; [assumption|nia|nia]].
Qed.

Lemma shifts_iter_pos (p : positive) : shifts (Zpos p) (SpecFloat.iter_pos shr_1 p).
Proof.
  induction p as [p IH|p IH|]; cbn [SpecFloat.iter_pos].
  - rewrite (Pos2Z.inj_xI p).
    replace (2 * Zpos p + 1) with ((1 + Zpos p) + Zpos p) by lia.
    apply (shifts_compose (1 + Zpos p) (Zpos p) (fun mrs => SpecFloat.iter_pos shr_1 p (shr_1 mrs)));
      [lia | lia | | exact IH].
    apply (shifts_compose 1 (Zpos p) shr_1); [lia | lia | exact shifts_shr_1 | exact IH].
  - rewrite (Pos2Z.inj_xO p).
    replace (2 * Zpos p) with (Zpos p + Zpos p) by lia.
    apply (shifts_compose (Zpos p) (Zpos p) (SpecFloat.iter_pos shr_1 p)); [lia | lia | exact IH | exact IH].
  - exact shifts_shr_1.
Qed.

Lemma iter_xO (m d : positive) : Zpos (Pos.iter xO m d) = Zpos m * 2 ^ Zpos d.
Proof.
  induction d as [|d IH] using Pos.peano_ind.
  - cbn [Pos.iter]. rewrite (Pos2Z.inj_xO m). change (2 ^ 1) with 2. lia.
  - rewrite Pos.iter_succ, (Pos2Z.inj_xO (Pos.iter xO m d)), IH, Pos2Z.inj_succ, Z.pow_succ_r by lia. lia.
Qed.

(** ** Rounding to nearest in [SpecFloat] *)

Section Round.
Variables prec emax : Z.
Hypothesis prec_gt_1 : 1 < prec.

(** The first step of rounding a positive mantissa that has at least [prec]
    bits: the surplus bits are shifted out. *)
Lemma shr_fexp_pos (M : positive) (E : Z) :
  emin prec emax <= E -> prec <= Zpos (digits2_pos M) ->
  exists mrs,
    shr_fexp prec emax (Zpos M) E loc_Exact = (mrs, E + (Zpos (digits2_pos M) - prec)) /\
    shr_m mrs = Zpos M / 2 ^ (Zpos (digits2_pos M) - prec) /\
    (shr_r mrs || shr_s mrs = false <-> Zpos M mod 2 ^ (Zpos (digits2_pos M) - prec) = 0).
Proof.
  intros HE Hd. unfold shr_fexp. cbn [Zdigits2 shr_record_of_loc].
  replace (fexp prec emax (Zpos (digits2_pos M) + E) - E)
    with (Zpos (digits2_pos M) - prec) by (unfold fexp; lia).
  destruct (Zpos (digits2_pos M) - prec) as [|p|p] eqn:En; [| |lia].
  - eexists. split; [cbn [shr]; f_equal; lia|]. cbn [shr_m shr_r shr_s].
    change (2 ^ 0) with 1. rewrite Z.div_1_r, Z.mod_1_r. tauto.
  - eexists. split; [cbn [shr]; reflexivity|].
    destruct (shifts_iter_pos p (Build_shr_record (Zpos M) false false)) as [Hm Hf];
      [cbn; lia|].
    cbn [shr_m shr_r shr_s] in *. split; [exact Hm|]. rewrite Hf. cbn. tauto.
Qed.

Lemma round_nearest_even_cases (mrs : shr_record) :
  (round_nearest_even (shr_m mrs) (loc_of_shr_record mrs) = shr_m mrs \/
   round_nearest_even (shr_m mrs) (loc_of_shr_record mrs) = shr_m mrs + 1) /\
  (shr_r mrs || shr_s mrs = false ->
   round_nearest_even (shr_m mrs) (loc_of_shr_record mrs) = shr_m mrs).
Proof.
  destruct mrs as [m [|] [|]]; cbn; try destruct (Z.even m); split; auto; discriminate.
Qed.

Lemma binary_round_aux_finish (s : bool) (mx ex : Z) (lx : location) :
  binary_round_aux prec emax s mx ex lx =
  finish_round prec emax s (round_nearest_even (shr_m (fst (shr_fexp prec emax mx ex lx)))
                                     (loc_of_shr_record (fst (shr_fexp prec emax mx ex lx))))
               (snd (shr_fexp prec emax mx ex lx)).
Proof.
  unfold binary_round_aux, finish_round.
  destruct (shr_fexp prec emax mx ex lx) as [mrs' e']. reflexivity.
Qed.

Lemma pow2_prec : 2 ^ prec = 2 * 2 ^ (prec - 1).
Proof. replace prec with (Z.succ (prec - 1)) at 1 by lia. apply Z.pow_succ_r. lia. Qed.

Lemma finish_round_pos (s : bool) (V : positive) (E' : Z) :
  emin prec emax <= E' -> 2 ^ (prec - 1) <= Zpos V <= 2 ^ prec ->
  exists m' e',
    finish_round prec emax s (Zpos V) E'
    = (if e' <=? emax - prec then S754_finite s m' e' else S754_infinity s) /\
    0 <= e' - E' <= 1 /\
    Zpos m' * 2 ^ (e' - E') = Zpos V /\
    Zpos (digits2_pos m') = prec.
Proof.
  intros HE [LV UV]. unfold finish_round.
  pose proof pow2_prec as P2.
  assert (Pp : 0 < 2 ^ (prec - 1)) by (apply pow2_pos; lia).
  destruct (Z.eq_dec (Zpos V) (2 ^ prec)) as [Top|NotTop].
  - assert (DV : Zpos (digits2_pos V) = prec + 1).
    { apply digits2_pos_unique. replace (prec + 1 - 1) with prec by lia.
      rewrite Top. replace (prec + 1) with (Z.succ prec) by lia.
      rewrite Z.pow_succ_r by lia. lia. }
    destruct (shr_fexp_pos V E') as (mrs2 & -> & Hq2 & _); [exact HE | lia |].
    rewrite DV in *. replace (prec + 1 - prec) with 1 in * by lia.
    change (2 ^ 1) with 2 in Hq2.
    assert (Hm2 : shr_m mrs2 = 2 ^ (prec - 1)).
    { rewrite Hq2, Top, P2, Z.mul_comm. apply Z.div_mul. lia. }
    rewrite Hm2. destruct (2 ^ (prec - 1)) as [|m'|m'] eqn:Em'; [lia| |lia].
    exists m', (E' + 1). split; [reflexivity|]. split; [lia|]. split.
    + replace (E' + 1 - E') with 1 by lia. change (2 ^ 1) with 2. lia.
    + apply digits2_pos_unique. rewrite <- Em'. lia.
  - assert (DV : Zpos (digits2_pos V) = prec) by (apply digits2_pos_unique; lia).
    destruct (shr_fexp_pos V E') as (mrs2 & -> & Hq2 & _); [exact HE | lia |].
    rewrite DV in *. replace (prec - prec) with 0 in * by lia.
    change (2 ^ 0) with 1 in Hq2. rewrite Z.div_1_r in Hq2. rewrite Hq2.
    exists V, (E' + 0). split; [reflexivity|]. split; [lia|]. split; [|exact DV].
    replace (E' + 0 - E') with 0 by lia. change (2 ^ 0) with 1. lia.
Qed.

(** Rounding to nearest of the positive number [M * 2^E], [M] of at least
    [prec] bits: with [n] the number of surplus bits and [q] the quotient of
    [M] by [2^n], the result is [q * 2^(E+n)] or [(q+1) * 2^(E+n)], the
    former when no non-zero bit is lost; its mantissa has [prec] bits. *)
Lemma binary_round_aux_pos (s : bool) (M : positive) (E n q : Z) :
  emin prec emax <= E -> 0 <= n ->
  n = Zpos (digits2_pos M) - prec -> q = Zpos M / 2 ^ n ->
  exists m' e' v,
    binary_round_aux prec emax s (Zpos M) E loc_Exact
    = (if e' <=? emax - prec then S754_finite s m' e' else S754_infinity s) /\
    (v = q \/ v = q + 1) /\
    (Zpos M mod 2 ^ n = 0 -> v = q) /\
    0 <= e' - (E + n) <= 1 /\
    Zpos m' * 2 ^ (e' - (E + n)) = v /\
    Zpos (digits2_pos m') = prec.
Proof.
  intros HE Hn En Eq. rewrite binary_round_aux_finish.
  destruct (shr_fexp_pos M E HE) as (mrs & -> & Hq & Hex); [lia|].
  cbn [fst snd]. rewrite <- En in *. rewrite <- Eq in Hq.
  destruct (round_nearest_even_cases mrs) as [Hv Hv0].
  remember (round_nearest_even (shr_m mrs) (loc_of_shr_record mrs)) as v eqn:Dv.
  clear Dv. rewrite Hq in Hv, Hv0. rewrite Hex in Hv0.
  assert (Pn : 0 < 2 ^ n) by (apply pow2_pos; lia).
  destruct (digits2_pos_bounds M) as [LM UM].
  assert (Hqb : 2 ^ (prec - 1) <= q < 2 ^ prec).
  { rewrite Eq. split.
    - apply Z.div_le_lower_bound; [lia|].
      rewrite Z.mul_comm, <- Z.pow_add_r by lia.
      replace (prec - 1 + n) with (Zpos (digits2_pos M) - 1) by lia. exact LM.
    - apply Z.div_lt_upper_bound; [lia|].
      rewrite <- Z.pow_add_r by lia.
      replace (n + prec) with (Zpos (digits2_pos M)) by lia. exact UM. }
  assert (Pp : 0 < 2 ^ (prec - 1)) by (apply pow2_pos; lia).
  destruct v as [|V|V]; [exfalso; lia| |exfalso; lia].
  destruct (finish_round_pos s V (E + n)) as (m' & e' & -> & He' & Hm' & Dm'); [lia | lia |].
  exists m', e', (Zpos V). tauto.
Qed.

(** The result of rounding to nearest does not exceed any representable
    number [a * 2^b], [a < 2^prec], that the exact value does not exceed.
    Values are compared as multiples of [2^lo]. *)
Lemma binary_round_aux_upper (M : positive) (E lo a b : Z) :
  emin prec emax <= E -> prec <= Zpos (digits2_pos M) ->
  lo <= E -> lo <= b -> 0 <= a < 2 ^ prec ->
  Zpos M * 2 ^ (E - lo) <= a * 2 ^ (b - lo) ->
  exists m' e',
    binary_round_aux prec emax false (Zpos M) E loc_Exact
    = (if e' <=? emax - prec then S754_finite false m' e' else S754_infinity false) /\
    Zpos (digits2_pos m') = prec /\
    E <= e' <= E + (Zpos (digits2_pos M) - prec) + 1 /\
    Zpos m' * 2 ^ (e' - lo) <= a * 2 ^ (b - lo).
Proof.
  intros HE Hd HloE Hlob Ha Hle.
  destruct (binary_round_aux_pos false M E (Zpos (digits2_pos M) - prec)
              (Zpos M / 2 ^ (Zpos (digits2_pos M) - prec)))
    as (m' & e' & v & Hr & Hv & Hv0 & He' & Hm' & Dm'); [lia | lia | reflexivity | reflexivity |].
  exists m', e'. split; [exact Hr|]. split; [exact Dm'|]. split; [lia|].
  remember (Zpos (digits2_pos M) - prec) as n eqn:En.
  remember (Zpos M / 2 ^ n) as q eqn:Eq.
  assert (Pn : 0 < 2 ^ n) by (apply pow2_pos; lia).
  assert (HM : Zpos M = 2 ^ n * q + Zpos M mod 2 ^ n)
    by (rewrite Eq; apply Z.div_mod; lia).
  pose proof (Z.mod_pos_bound (Zpos M) (2 ^ n) Pn) as Hrem.
  remember (Zpos M mod 2 ^ n) as rem eqn:Erem.
  destruct (digits2_pos_bounds M) as [LM UM].
  assert (Hq : 2 ^ (prec - 1) <= q).
  { rewrite Eq. apply Z.div_le_lower_bound; [lia|].
    rewrite Z.mul_comm, <- Z.pow_add_r by lia.
    replace (prec - 1 + n) with (Zpos (digits2_pos M) - 1) by lia. exact LM. }
  (* the result as a multiple of 2^lo *)
  assert (Hres : Zpos m' * 2 ^ (e' - lo) = v * 2 ^ (E + n - lo)).
  { rewrite <- Hm'. replace (e' - lo) with ((e' - (E + n)) + (E + n - lo)) by lia.
    rewrite Z.pow_add_r by lia. ring. }
  rewrite Hres.
  assert (HT : 2 ^ (E + n - lo) = 2 ^ n * 2 ^ (E - lo)).
  { rewrite <- Z.pow_add_r by lia. f_equal. lia. }
  assert (PS : 0 < 2 ^ (E - lo)) by (apply pow2_pos; lia).
  assert (PB : 0 < 2 ^ (b - lo)) by (apply pow2_pos; lia).
  remember (2 ^ (E - lo)) as S eqn:ES. remember (2 ^ (b - lo)) as B eqn:EB.
  remember (2 ^ n) as N eqn:EN.
  assert (PT : 0 < N * S) by (apply Z.mul_pos_pos; lia).
  rewrite HT.
  destruct (Z.eq_dec rem 0) as [R0|R1].
  - (* nothing is lost: the result is exact *)
    rewrite (Hv0 R0). rewrite HM, R0 in Hle. lia.
  - assert (Hlt : q * (N * S) < a * B).
    { assert (0 < rem * S) by (apply Z.mul_pos_pos; lia). rewrite HM in Hle. lia. }
    assert (Hgoal : (q + 1) * (N * S) <= a * B).
    { destruct (Z.le_gt_cases (E + n) b) as [Hb|Hb].
      - (* a * 2^b is a multiple of the unit of the result *)
        assert (HB : B = 2 ^ (b - (E + n)) * (N * S)).
        { rewrite EB, EN, ES, <- !Z.pow_add_r by lia. f_equal. lia. }
        remember (2 ^ (b - (E + n))) as C eqn:EC.
        assert (Hq1 : q < a * C).
        { apply Z.mul_lt_mono_pos_r with (p := N * S); [exact PT|]. rewrite HB in Hlt. lia. }
        assert ((q + 1) * (N * S) <= a * C * (N * S))
          by (apply Z.mul_le_mono_nonneg_r; lia).
        rewrite HB. lia.
      - (* a * 2^b would need more than prec bits *)
        exfalso.
        assert (HNS : N * S = 2 ^ (E + n - b) * B).
        { rewrite EB, EN, ES, <- !Z.pow_add_r by lia. f_equal. lia. }
        assert (PD : 2 <= 2 ^ (E + n - b)).
        { change 2 with (2 ^ 1) at 1. apply Z.pow_le_mono_r; lia. }
        remember (2 ^ (E + n - b)) as D eqn:ED.
        assert (Hq1 : q * D < a).
        { apply Z.mul_lt_mono_pos_r with (p := B); [exact PB|]. rewrite HNS in Hlt. lia. }
        assert (q * 2 <= q * D) by (apply Z.mul_le_mono_nonneg_l; lia).
        pose proof pow2_prec as P2. lia. }
    assert (0 <= (q + 1 - v) * (N * S)) by (apply Z.mul_nonneg_nonneg; lia).
    lia.
Qed.

Lemma shl_align_lower (mx : positive) (ex ex' : Z) :
  ex' <= ex ->
  Zpos (fst (shl_align mx ex ex')) = Zpos mx * 2 ^ (ex - ex') /\
  snd (shl_align mx ex ex') = ex'.
Proof.
  intros H. unfold shl_align.
  destruct (ex' - ex) as [|d|d] eqn:D; cbn [fst snd].
  - replace (ex - ex') with 0 by lia. change (2 ^ 0) with 1. lia.
  - lia.
  - rewrite iter_xO. replace (ex - ex') with (Zpos d) by lia. tauto.
Qed.

Lemma shl_align_higher (mx : positive) (ex ex' : Z) :
  ex <= ex' -> shl_align mx ex ex' = (mx, ex).
Proof.
  intros H. unfold shl_align. destruct (ex' - ex) as [|d|d] eqn:D; [reflexivity|reflexivity|lia].
Qed.

Lemma digits2_pos_shift (M M0 : positive) (k : Z) :
  0 <= k -> Zpos M0 = Zpos M * 2 ^ k ->
  Zpos (digits2_pos M0) = Zpos (digits2_pos M) + k.
Proof.
  intros Hk HM. apply digits2_pos_unique. rewrite HM.
  destruct (digits2_pos_bounds M) as [L U].
  assert (0 < 2 ^ k) by (apply pow2_pos; lia).
  replace (Zpos (digits2_pos M) + k - 1) with ((Zpos (digits2_pos M) - 1) + k) by lia.
  rewrite !Z.pow_add_r by lia. split.
  - apply Z.mul_le_mono_nonneg_r; lia.
  - apply Z.mul_lt_mono_pos_r; lia.
Qed.

(** [binary_round] first brings a short mantissa to [prec] bits. *)
Lemma binary_round_align (s : bool) (M : positive) (E : Z) :
  emin prec emax <= E - Z.max 0 (prec - Zpos (digits2_pos M)) ->
  exists M0,
    binary_round prec emax s M E
    = binary_round_aux prec emax s (Zpos M0)
        (E - Z.max 0 (prec - Zpos (digits2_pos M))) loc_Exact /\
    Zpos M0 = Zpos M * 2 ^ (Z.max 0 (prec - Zpos (digits2_pos M))) /\
    Zpos (digits2_pos M0) = Zpos (digits2_pos M) + Z.max 0 (prec - Zpos (digits2_pos M)).
Proof.
  intros HE. unfold binary_round.
  destruct (Z.le_gt_cases prec (Zpos (digits2_pos M))) as [Hd|Hd].
  - rewrite shl_align_higher by (unfold fexp; lia).
    replace (Z.max 0 (prec - Zpos (digits2_pos M))) with 0 by lia.
    exists M. rewrite Z.sub_0_r, Z.add_0_r. change (2 ^ 0) with 1.
    split; [reflexivity | lia].
  - replace (Z.max 0 (prec - Zpos (digits2_pos M))) with (prec - Zpos (digits2_pos M)) in * by lia.
    assert (Hf : fexp prec emax (Zpos (digits2_pos M) + E) = E - (prec - Zpos (digits2_pos M)))
      by (unfold fexp; lia).
    rewrite Hf.
    destruct (shl_align_lower M E (E - (prec - Zpos (digits2_pos M)))) as [Hm He]; [lia|].
    destruct (shl_align M E (E - (prec - Zpos (digits2_pos M)))) as [M0 E0].
    cbn [fst snd] in *. subst E0. exists M0.
    replace (E - (E - (prec - Zpos (digits2_pos M)))) with (prec - Zpos (digits2_pos M)) in Hm by lia.
    split; [reflexivity|]. split; [exact Hm|].
    apply digits2_pos_shift; [lia | exact Hm].
Qed.

(** A positive number that fits in [prec] bits is not changed by rounding;
    its mantissa is brought to [prec] bits. *)
Lemma binary_round_exact (s : bool) (M : positive) (E : Z) :
  Zpos (digits2_pos M) <= prec ->
  emin prec emax <= E - (prec - Zpos (digits2_pos M)) ->
  E - (prec - Zpos (digits2_pos M)) <= emax - prec ->
  exists M0,
    binary_round prec emax s M E = S754_finite s M0 (E - (prec - Zpos (digits2_pos M))) /\
    Zpos M0 = Zpos M * 2 ^ (prec - Zpos (digits2_pos M)) /\
    Zpos (digits2_pos M0) = prec.
Proof.
  intros Hd HE Hmax.
  destruct (binary_round_align s M E) as (M0 & -> & HM0 & D0); [lia|].
  replace (Z.max 0 (prec - Zpos (digits2_pos M))) with (prec - Zpos (digits2_pos M)) in * by lia.
  destruct (binary_round_aux_pos s M0 (E - (prec - Zpos (digits2_pos M))) 0 (Zpos M0))
    as (m' & e' & v & -> & _ & Hv0 & He' & Hm' & Dm');
    [lia | lia | lia | change (2 ^ 0) with 1; now rewrite Z.div_1_r |].
  change (2 ^ 0) with 1 in Hv0. rewrite Z.mod_1_r in Hv0. specialize (Hv0 eq_refl). subst v.
  rewrite Z.add_0_r in *.
  assert (e' = E - (prec - Zpos (digits2_pos M))) as ->.
  { destruct (Z.eq_dec (e' - (E - (prec - Zpos (digits2_pos M)))) 0) as [?|Hne]; [lia|].
    exfalso. replace (e' - (E - (prec - Zpos (digits2_pos M)))) with 1 in Hm' by lia.
    change (2 ^ 1) with 2 in Hm'.
    pose proof (digits2_pos_shift m' M0 1) as Hs. change (2 ^ 1) with 2 in Hs.
    specialize (Hs ltac:(lia) ltac:(lia)). lia. }
  rewrite Z.sub_diag in Hm'. change (2 ^ 0) with 1 in Hm'.
  assert (m' = M0) as -> by lia.
  replace (E - (prec - Zpos (digits2_pos M)) <=? emax - prec) with true
    by (symmetry; apply Z.leb_le; lia).
  exists M0. split; [reflexivity|]. split; [exact HM0 | lia].
Qed.

(** Comparison of two positive numbers with mantissas of [prec] bits. *)
Lemma SFltb_pos (m1 m2 : positive) (e1 e2 lo : Z) :
  Zpos (digits2_pos m1) = prec -> Zpos (digits2_pos m2) = prec ->
  lo <= e1 -> lo <= e2 ->
  SFltb (S754_finite false m1 e1) (S754_finite false m2 e2) = true ->
  Zpos m1 * 2 ^ (e1 - lo) < Zpos m2 * 2 ^ (e2 - lo).
Proof.
  intros D1 D2 L1 L2. unfold SFltb. cbn [SFcompare].
  destruct (digits2_pos_bounds m1) as [_ U1]. destruct (digits2_pos_bounds m2) as [B2 _].
  rewrite D1 in U1. rewrite D2 in B2. pose proof pow2_prec as P2.
  destruct (e1 ?= e2) eqn:C; [| |discriminate].
  - apply Z.compare_eq in C. subst e2. intros H.
    assert (Zpos m1 < Zpos m2).
    { destruct (Pos.compare_cont Eq m1 m2) eqn:Cm; try discriminate.
      change (Pos.compare_cont Eq m1 m2) with (Pos.compare m1 m2) in Cm.
      apply Pos.compare_lt_iff in Cm. apply Pos2Z.pos_lt_pos. exact Cm. }
    apply Z.mul_lt_mono_pos_r; [apply pow2_pos; lia | assumption].
  - intros _. change (e1 < e2) in C.
    assert (PS : 0 < 2 ^ (e1 - lo)) by (apply pow2_pos; lia).
    assert (H2 : 2 * 2 ^ (e1 - lo) <= 2 ^ (e2 - lo)).
    { rewrite <- Z.pow_succ_r by lia. apply Z.pow_le_mono_r; lia. }
    assert (Zpos m1 * 2 ^ (e1 - lo) < 2 ^ prec * 2 ^ (e1 - lo))
      by (apply Z.mul_lt_mono_pos_r; lia).
    assert (2 ^ (prec - 1) * 2 ^ (e2 - lo) <= Zpos m2 * 2 ^ (e2 - lo))
      by (apply Z.mul_le_mono_nonneg_r; lia).
    assert (2 ^ (prec - 1) * (2 * 2 ^ (e1 - lo)) <= 2 ^ (prec - 1) * 2 ^ (e2 - lo))
      by (apply Z.mul_le_mono_nonneg_l; [apply Z.lt_le_incl, pow2_pos; lia | exact H2]).
    rewrite P2 in *. lia.
Qed.

End Round.

(** ** binary64 and binary32 numbers of the program *)

Lemma digits2_pos_lower (M : positive) (k : Z) :
  2 ^ (k - 1) <= Zpos M -> k <= Zpos (digits2_pos M).
Proof.
  intros H. destruct (digits2_pos_bounds M) as [_ U].
  destruct (Z.le_gt_cases k (Zpos (digits2_pos M))) as [?|G]; [assumption|exfalso].
  assert (2 ^ Zpos (digits2_pos M) <= 2 ^ (k - 1)) by (apply Z.pow_le_mono_r; lia). lia.
Qed.

Lemma digits2_pos_upper (M : positive) (k : Z) :
  0 <= k -> Zpos M < 2 ^ k -> Zpos (digits2_pos M) <= k.
Proof.
  intros Hk H. destruct (digits2_pos_bounds M) as [L _].
  destruct (Z.le_gt_cases (Zpos (digits2_pos M)) k) as [?|G]; [assumption|exfalso].
  assert (2 ^ k <= 2 ^ (Zpos (digits2_pos M) - 1)) by (apply Z.pow_le_mono_r; lia). lia.
Qed.

Lemma bounded_float32 (m : positive) (e : Z) :
  bounded 24 128 m e = true -> Zpos (digits2_pos m) <= 24 /\ -149 <= e <= 104.
Proof.
  unfold bounded, canonical_mantissa, fexp, emin.
  rewrite andb_true_iff, Z.eqb_eq, Z.leb_le. lia.
Qed.

(** The promotion of a positive [float] to [double] is exact. *)
Lemma f2d_finite (m : positive) (e : Z) :
  bounded 24 128 m e = true ->
  exists m',
    f2d (S754_finite false m e) = S754_finite false m' (e - (53 - Zpos (digits2_pos m))) /\
    Zpos m' = Zpos m * 2 ^ (53 - Zpos (digits2_pos m)) /\
    Zpos (digits2_pos m') = 53.
Proof.
  intros B. apply bounded_float32 in B as [D E].
  unfold f2d. cbn [cond_Zopp binary_normalize].
  apply binary_round_exact; unfold emin; lia.
Qed.

(** The conversion of a positive integer below 2^53 to [double] is exact. *)
Lemma d_of_Z_pos (p : positive) :
  Zpos p < 2 ^ 53 ->
  exists m',
    d_of_Z (Zpos p) = S754_finite false m' (0 - (53 - Zpos (digits2_pos p))) /\
    Zpos m' = Zpos p * 2 ^ (53 - Zpos (digits2_pos p)) /\
    Zpos (digits2_pos m') = 53.
Proof.
  intros H. pose proof (digits2_pos_upper p 53 ltac:(lia) H) as D.
  unfold d_of_Z. cbn [binary_normalize].
  apply binary_round_exact; unfold emin; lia.
Qed.

(** The integer part of a positive finite number. *)
Lemma Ztrunc_finite (m : positive) (e lo : Z) :
  lo <= e -> lo <= 0 ->
  exists z, Ztrunc (S754_finite false m e) = Some z /\ 0 <= z /\
            z * 2 ^ (0 - lo) <= Zpos m * 2 ^ (e - lo).
Proof.
  intros He Hlo. cbn [Ztrunc cond_Zopp]. eexists. split; [reflexivity|].
  destruct (Z.le_gt_cases 0 e) as [P|N].
  - rewrite Z.shiftl_mul_pow2 by lia.
    assert (0 < 2 ^ e) by (apply pow2_pos; lia). split; [lia|].
    replace (e - lo) with (e + (0 - lo)) by lia. rewrite Z.pow_add_r by lia. lia.
  - rewrite Z.shiftl_div_pow2 by lia.
    assert (Pe : 0 < 2 ^ (- e)) by (apply pow2_pos; lia).
    split; [apply Z.div_pos; lia|].
    replace (0 - lo) with ((- e) + (e - lo)) by lia. rewrite Z.pow_add_r by lia.
    rewrite Z.mul_assoc. apply Z.mul_le_mono_nonneg_r; [apply Z.lt_le_incl, pow2_pos; lia|].
    rewrite Z.mul_comm. apply Z.mul_div_le. lia.
Qed.

Lemma exponent_bound (M : positive) (E lo a b : Z) :
  lo <= E -> lo <= b -> 0 <= a < 2 ^ 53 ->
  Zpos M * 2 ^ (E - lo) <= a * 2 ^ (b - lo) ->
  Zpos (digits2_pos M) + E <= 53 + b.
Proof.
  intros HE Hb Ha H. destruct (digits2_pos_bounds M) as [L _].
  assert (PE : 0 < 2 ^ (E - lo)) by (apply pow2_pos; lia).
  assert (PB : 0 < 2 ^ (b - lo)) by (apply pow2_pos; lia).
  assert (H1 : 2 ^ (Zpos (digits2_pos M) - 1) * 2 ^ (E - lo) <= Zpos M * 2 ^ (E - lo))
    by (apply Z.mul_le_mono_nonneg_r; lia).
  assert (H2 : a * 2 ^ (b - lo) < 2 ^ 53 * 2 ^ (b - lo))
    by (apply Z.mul_lt_mono_pos_r; lia).
  rewrite <- Z.pow_add_r in H1, H2 by lia.
  assert (H3 : 2 ^ (Zpos (digits2_pos M) - 1 + (E - lo)) < 2 ^ (53 + (b - lo))) by lia.
  apply Z.pow_lt_mono_r_iff in H3; lia.
Qed.

(** The sum of two positive [double]s does not exceed a representable number
    [a * 2^b] that the exact sum does not exceed. *)
Lemma d_add_upper (m1 m2 : positive) (e1 e2 lo a b : Z) :
  Zpos (digits2_pos m1) = 53 ->
  -1074 <= e1 -> -1074 <= e2 -> lo <= e1 -> lo <= e2 -> lo <= b -> b <= 970 ->
  0 <= a < 2 ^ 53 ->
  Zpos m1 * 2 ^ (e1 - lo) + Zpos m2 * 2 ^ (e2 - lo) <= a * 2 ^ (b - lo) ->
  exists m' e',
    d_add (S754_finite false m1 e1) (S754_finite false m2 e2) = S754_finite false m' e' /\
    Zpos (digits2_pos m') = 53 /\ lo <= e' /\
    Zpos m' * 2 ^ (e' - lo) <= a * 2 ^ (b - lo).
Proof.
  intros D1 E1 E2 L1 L2 Lb Hb Ha Hle.
  unfold d_add, SFadd. cbn [cond_Zopp].
  remember (Z.min e1 e2) as ez eqn:Ez.
  destruct (shl_align_lower m1 e1 ez) as [A1 _]; [lia|].
  destruct (shl_align_lower m2 e2 ez) as [A2 _]; [lia|].
  remember (fst (shl_align m1 e1 ez)) as p1. remember (fst (shl_align m2 e2 ez)) as p2.
  change (Zpos p1 + Zpos p2) with (Zpos (p1 + p2)). cbn [binary_normalize].
  assert (P1 : 0 < 2 ^ (e1 - ez)) by (apply pow2_pos; lia).
  assert (P2 : 0 < 2 ^ (e2 - ez)) by (apply pow2_pos; lia).
  assert (HM : Zpos (p1 + p2) = Zpos m1 * 2 ^ (e1 - ez) + Zpos m2 * 2 ^ (e2 - ez))
    by (rewrite Pos2Z.inj_add; lia).
  assert (Dg : 53 <= Zpos (digits2_pos (p1 + p2))).
  { apply digits2_pos_lower. destruct (digits2_pos_bounds m1) as [B1 _].
    rewrite D1 in B1. change (53 - 1) with 52 in *.
    assert (Zpos m1 * 1 <= Zpos m1 * 2 ^ (e1 - ez)) by (apply Z.mul_le_mono_nonneg_l; lia).
    assert (0 < Zpos m2 * 2 ^ (e2 - ez)) by (apply Z.mul_pos_pos; lia).
    lia. }
  destruct (binary_round_align 53 1024 false (p1 + p2) ez) as (M0 & -> & HM0 & _);
    [unfold emin; lia|].
  replace (Z.max 0 (53 - Zpos (digits2_pos (p1 + p2)))) with 0 in * by lia.
  change (2 ^ 0) with 1 in HM0. rewrite Z.mul_1_r in HM0.
  injection HM0 as ->. rewrite Z.sub_0_r.
  assert (Hsum : Zpos (p1 + p2) * 2 ^ (ez - lo) <= a * 2 ^ (b - lo)).
  { rewrite HM, Z.mul_add_distr_r, <- !Z.mul_assoc, <- !Z.pow_add_r by lia.
    replace (e1 - ez + (ez - lo)) with (e1 - lo) by lia.
    replace (e2 - ez + (ez - lo)) with (e2 - lo) by lia. exact Hle. }
  destruct (binary_round_aux_upper 53 1024 eq_refl (p1 + p2) ez lo a b)
    as (m' & e' & Hr & Dm' & He' & Hv); [unfold emin; lia | lia | lia | lia | lia | exact Hsum |].
  pose proof (exponent_bound (p1 + p2) ez lo a b ltac:(lia) Lb Ha Hsum) as Hx.
  exists m', e'. rewrite Hr.
  replace (e' <=? 1024 - 53) with true by (symmetry; apply Z.leb_le; lia).
  split; [reflexivity|]. split; [exact Dm'|]. split; [lia | exact Hv].
Qed.

(** The product of two positive [double]s does not exceed a representable
    number [a * 2^b] that the exact product does not exceed. *)
Lemma d_mul_upper (m1 m2 : positive) (e1 e2 lo a b : Z) :
  Zpos (digits2_pos m1) = 53 ->
  -1074 <= e1 + e2 -> lo <= e1 + e2 -> lo <= b -> b <= 970 ->
  0 <= a < 2 ^ 53 ->
  Zpos m1 * Zpos m2 * 2 ^ (e1 + e2 - lo) <= a * 2 ^ (b - lo) ->
  exists m' e',
    d_mul (S754_finite false m1 e1) (S754_finite false m2 e2) = S754_finite false m' e' /\
    Zpos (digits2_pos m') = 53 /\ lo <= e' /\
    Zpos m' * 2 ^ (e' - lo) <= a * 2 ^ (b - lo).
Proof.
  intros D1 E12 L12 Lb Hb Ha Hle.
  unfold d_mul, SFmul. cbn [xorb].
  assert (Dg : 53 <= Zpos (digits2_pos (m1 * m2))).
  { apply digits2_pos_lower. destruct (digits2_pos_bounds m1) as [B1 _].
    rewrite D1 in B1. change (53 - 1) with 52 in *. rewrite Pos2Z.inj_mul.
    assert (Zpos m1 * 1 <= Zpos m1 * Zpos m2) by (apply Z.mul_le_mono_nonneg_l; lia). lia. }
  assert (Hprod : Zpos (m1 * m2) * 2 ^ (e1 + e2 - lo) <= a * 2 ^ (b - lo))
    by (rewrite Pos2Z.inj_mul; exact Hle).
  destruct (binary_round_aux_upper 53 1024 eq_refl (m1 * m2) (e1 + e2) lo a b)
    as (m' & e' & Hr & Dm' & He' & Hv); [unfold emin; lia | lia | lia | lia | lia | exact Hprod |].
  pose proof (exponent_bound (m1 * m2) (e1 + e2) lo a b ltac:(lia) Lb Ha Hprod) as Hx.
  exists m', e'. rewrite Hr.
  replace (e' <=? 1024 - 53) with true by (symmetry; apply Z.leb_le; lia).
  split; [reflexivity|]. split; [exact Dm'|]. split; [lia | exact Hv].
Qed.

Lemma units_finite (m : positive) (e : Z) :
  units (S754_finite false m e) = Zpos m * 2 ^ (e + 149).
Proof. reflexivity. Qed.

Lemma units_nonneg (v : float32) : nonneg32 v = true -> 0 <= units v.
Proof.
  destruct v as [s| | |[|] m e]; try discriminate; intros H;
    try (unfold units, scaled; lia).
  rewrite units_finite. apply bounded_float32 in H.
  apply Z.mul_nonneg_nonneg; [lia | apply Z.lt_le_incl, pow2_pos; lia].
Qed.

(** The [double] of a positive [float], as a multiple of 2^-201. *)
Lemma f2d_scaled (m : positive) (e : Z) :
  bounded 24 128 m e = true ->
  exists m' e',
    f2d (S754_finite false m e) = S754_finite false m' e' /\
    Zpos (digits2_pos m') = 53 /\ -201 <= e' <= 104 /\
    Zpos m' * 2 ^ (e' + 201) = units (S754_finite false m e) * 2 ^ 52.
Proof.
  intros B. destruct (f2d_finite m e B) as (m' & Hf & Hm & Dm).
  apply bounded_float32 in B as [D E].
  assert (1 <= Zpos (digits2_pos m)) by lia.
  exists m', (e - (53 - Zpos (digits2_pos m))).
  split; [exact Hf|]. split; [exact Dm|]. split; [lia|].
  rewrite units_finite, Hm, <- !Z.mul_assoc, <- !Z.pow_add_r by lia.
  do 2 f_equal. lia.
Qed.

(** The [double] of a positive integer below 2^53, as a multiple of 2^-201. *)
Lemma d_of_Z_scaled (p : positive) :
  Zpos p < 2 ^ 53 ->
  exists m' e',
    d_of_Z (Zpos p) = S754_finite false m' e' /\
    Zpos (digits2_pos m') = 53 /\ -52 <= e' <= 0 /\
    Zpos m' = Zpos p * 2 ^ (- e') /\
    Zpos m' * 2 ^ (e' + 201) = Zpos p * 2 ^ 201.
Proof.
  intros H. destruct (d_of_Z_pos p H) as (m' & Hd & Hm & Dm).
  pose proof (digits2_pos_upper p 53 ltac:(lia) H) as D.
  assert (1 <= Zpos (digits2_pos p)) by lia.
  exists m', (0 - (53 - Zpos (digits2_pos p))).
  split; [exact Hd|]. split; [exact Dm|]. split; [lia|]. split.
  - rewrite Hm. do 2 f_equal. lia.
  - rewrite Hm, <- !Z.mul_assoc, <- !Z.pow_add_r by lia. do 2 f_equal. lia.
Qed.

Lemma to_int_of_Z (p : positive) :
  Zpos p < 2 ^ 29 -> to_int (d_of_Z (Zpos p)) = Done (Zpos p).
Proof.
  intros H. destruct (d_of_Z_scaled p) as (m' & e' & -> & _ & He & Hm & _); [lia|].
  unfold to_int. cbn [Ztrunc cond_Zopp].
  rewrite Z.shiftl_div_pow2, Hm, Z.div_mul by (try apply Z.pow_nonzero; lia).
  unfold in_int_range, INT_MIN, INT_MAX.
  replace (- 2 ^ 31 <=? Zpos p) with true by (symmetry; apply Z.leb_le; lia).
  replace (Zpos p <=? 2 ^ 31 - 1) with true by (symmetry; apply Z.leb_le; lia).
  reflexivity.
Qed.

(** The conversion to [int] of a positive finite [double] whose value is
    at most [bound] (a multiple of 2^-201) below 2^31. *)
Lemma to_int_finite (m : positive) (e bound : Z) :
  -201 <= e -> Zpos m * 2 ^ (e + 201) <= bound -> bound < 2 ^ 31 * 2 ^ 201 ->
  exists z, to_int (S754_finite false m e) = Done z /\ 0 <= z /\ z * 2 ^ 201 <= bound.
Proof.
  intros He Hb Hlt.
  destruct (Ztrunc_finite m e (-201)) as (z & Hz & Hz0 & Hzb); [lia | lia |].
  replace (e - -201) with (e + 201) in Hzb by lia. change (0 - -201) with 201 in Hzb.
  exists z. unfold to_int. rewrite Hz. unfold in_int_range, INT_MIN, INT_MAX.
  replace (- 2 ^ 31 <=? z) with true by (symmetry; apply Z.leb_le; lia).
  replace (z <=? 2 ^ 31 - 1) with true by (symmetry; apply Z.leb_le; lia).
  split; [reflexivity|]. split; [exact Hz0 | lia].
Qed.

(** One turn of [std::accumulate] with an [int] accumulator: the new
    accumulator is not negative and does not exceed the exact sum. *)
Lemma accumulate_step (acc : Z) (dist : float32) :
  0 <= acc -> nonneg32 dist = true ->
  acc * 2 ^ 149 + units dist < 2 ^ 29 * 2 ^ 149 ->
  exists acc',
    to_int (d_add (d_of_Z acc) (f2d dist)) = Done acc' /\
    0 <= acc' /\ acc' * 2 ^ 149 <= acc * 2 ^ 149 + units dist.
Proof.
  intros Hacc Hd Hsum. pose proof (units_nonneg dist Hd) as Hu.
  destruct dist as [s| | |[|] m e]; try discriminate Hd.
  - (* the distance is zero *)
    change (units (S754_zero s)) with 0 in *. cbn [f2d].
    destruct acc as [|p|p]; [| |lia].
    + exists 0. split; [destruct s; reflexivity | lia].
    + exists (Zpos p). split; [|lia].
      destruct (d_of_Z_scaled p) as (m' & e' & E & _); [lia|].
      rewrite <- (to_int_of_Z p) by lia. rewrite E. reflexivity.
  - (* the distance is positive *)
    cbn [nonneg32] in Hd.
    destruct (f2d_scaled m e Hd) as (m2 & e2 & -> & D2 & E2 & V2).
    remember (units (S754_finite false m e)) as U eqn:EU.
    destruct acc as [|p|p]; [| |lia].
    + (* nothing accumulated yet *)
      change (d_add (d_of_Z 0) (S754_finite false m2 e2)) with (S754_finite false m2 e2).
      destruct (to_int_finite m2 e2 (U * 2 ^ 52)) as (z & Hz & Hz0 & Hzb); [lia | lia | lia |].
      exists z. split; [exact Hz|]. split; [exact Hz0 | lia].
    + destruct (d_of_Z_scaled p) as (m1 & e1 & -> & D1 & E1 & _ & V1); [lia|].
      apply bounded_float32 in Hd as [Dm Ee].
      destruct (Z.le_gt_cases (-24) e) as [Big|Small].
      * (* the exact sum is a multiple of 2^-24 below 2^29: it is representable *)
        assert (PG : 0 < 2 ^ (e + 24)) by (apply pow2_pos; lia).
        assert (HU : U = Zpos m * 2 ^ (e + 24) * 2 ^ 125).
        { rewrite EU, units_finite, <- Z.mul_assoc, <- Z.pow_add_r by lia.
          do 2 f_equal. lia. }
        remember (Zpos m * 2 ^ (e + 24)) as g eqn:Eg.
        assert (0 < g) by (rewrite Eg; apply Z.mul_pos_pos; lia).
        destruct (d_add_upper m1 m2 e1 e2 (-201) (Zpos p * 2 ^ 24 + g) (-24))
          as (m' & e' & -> & _ & He' & Hv); try lia.
        { replace (e1 - -201) with (e1 + 201) by lia.
          replace (e2 - -201) with (e2 + 201) by lia.
          change (-24 - -201) with 177. rewrite V1, V2, HU. lia. }
        replace (e' - -201) with (e' + 201) in Hv by lia. change (-24 - -201) with 177 in Hv.
        destruct (to_int_finite m' e' ((Zpos p * 2 ^ 24 + g) * 2 ^ 177)) as (z & Hz & Hz0 & Hzb);
          [lia | exact Hv | lia |].
        exists z. split; [exact Hz|]. split; [exact Hz0 | lia].
      * (* the distance is below 1/2: the sum stays below acc + 1/2 *)
        assert (HU : U < 2 ^ 148).
        { rewrite EU, units_finite.
          destruct (digits2_pos_bounds m) as [_ Um].
          assert (2 ^ Zpos (digits2_pos m) <= 2 ^ 24) by (apply Z.pow_le_mono_r; lia).
          assert (PE : 0 < 2 ^ (e + 149)) by (apply pow2_pos; lia).
          assert (2 ^ (e + 149) <= 2 ^ 124) by (apply Z.pow_le_mono_r; lia).
          assert (Zpos m * 2 ^ (e + 149) < 2 ^ 24 * 2 ^ (e + 149))
            by (apply Z.mul_lt_mono_pos_r; lia).
          assert (2 ^ 24 * 2 ^ (e + 149) <= 2 ^ 24 * 2 ^ 124)
            by (apply Z.mul_le_mono_nonneg_l; lia).
          lia. }
        destruct (d_add_upper m1 m2 e1 e2 (-201) (2 * Zpos p + 1) (-1))
          as (m' & e' & -> & _ & He' & Hv); try lia.
        { replace (e1 - -201) with (e1 + 201) by lia.
          replace (e2 - -201) with (e2 + 201) by lia.
          change (-1 - -201) with 200. rewrite V1, V2. lia. }
        replace (e' - -201) with (e' + 201) in Hv by lia. change (-1 - -201) with 200 in Hv.
        destruct (to_int_finite m' e' ((2 * Zpos p + 1) * 2 ^ 200)) as (z & Hz & Hz0 & Hzb);
          [lia | exact Hv | lia |].
        exists z. split; [exact Hz|]. split; [exact Hz0 | lia].
Qed.

(** The loop of [std::accumulate]: the [int] sum is not negative and does
    not exceed the exact sum of the dissimilarities. *)
Lemma accumulate_bound (l : list DMatch) (acc : Z) :
  0 <= acc ->
  Forall (fun m => nonneg32 (distance m) = true) l ->
  acc * 2 ^ 149 + sum_units l < 2 ^ 29 * 2 ^ 149 ->
  exists sum,
    accumulate (map (fun m => f2d (distance m)) l) acc = Done sum /\
    0 <= sum /\ sum * 2 ^ 149 <= acc * 2 ^ 149 + sum_units l.
Proof.
  intros Hacc Hl; revert acc Hacc; induction Hl as [|m l Hm Hl IH]; intros acc Hacc Hsum.
  - exists acc. cbn [sum_units fold_right] in *. split; [reflexivity | lia].
  - cbn [sum_units fold_right] in Hsum |- *. fold (sum_units l) in *.
    assert (Hrest : 0 <= sum_units l).
    { clear - Hl. induction Hl as [|m' l' Hm' _ IH']; cbn [sum_units fold_right]; [lia|].
      fold (sum_units l'). pose proof (units_nonneg _ Hm'). lia. }
    destruct (accumulate_step acc (distance m) Hacc Hm) as (acc1 & E1 & P1 & B1); [lia|].
    destruct (IH acc1 P1) as (sum & Es & Ps & Bs); [lia|].
    exists sum. unfold accumulate in *. cbn [map foldM]. rewrite E1. cbn [bind].
    split; [exact Es|]. split; [exact Ps | lia].
Qed.

Lemma divide_by_size_pos (sum : Z) (size : nat) :
  0 <= sum < 2 ^ 63 -> (0 < size)%nat ->
  divide_by_size sum size = Done (sum / Z.of_nat size).
Proof.
  intros Hs Hn. unfold divide_by_size.
  destruct size as [|size]; [lia|]. cbn [Nat.eqb].
  unfold to_unsigned_long, to_long. rewrite Z.mod_small by lia.
  assert (0 <= sum / Z.of_nat (S size) <= sum).
  { split; [apply Z.div_pos; lia|]. apply Z.div_le_upper_bound; [lia|]. nia. }
  replace (sum / Z.of_nat (S size) <? 2 ^ 63) with true by (symmetry; apply Z.ltb_lt; lia).
  reflexivity.
Qed.

(** The first loop collects the candidates and their dissimilarities. *)
Lemma roi_loop_spec (boundingBox : BoundingBox) (kptsCurr : list KeyPoint)
    (l : list DMatch) (st : list DMatch * list double) :
  Forall (fun m => exists b, candidate boundingBox kptsCurr m = Done b) l ->
  foldM (roi_step boundingBox kptsCurr) l st
  = Done (fst st ++ List.filter (is_candidate boundingBox kptsCurr) l,
          snd st ++ map (fun m => f2d (distance m))
                        (List.filter (is_candidate boundingBox kptsCurr) l)).
Proof.
  intros H; revert st; induction H as [|m l [b Hm] _ IH]; intros st.
  - cbn [foldM List.filter map]. rewrite !app_nil_r. destruct st; reflexivity.
  - assert (Hc : is_candidate boundingBox kptsCurr m = b).
    { unfold is_candidate. rewrite Hm. now destruct b. }
    cbn [foldM List.filter]. rewrite Hc.
    unfold candidate in Hm. unfold roi_step at 1.
    destruct (index kptsCurr (trainIdx m)) as [kpt|]; [|discriminate].
    cbn [bind] in *. destruct (keypoint_pixel kpt) as [pixel|]; [|discriminate].
    cbn [bind] in *. injection Hm as Hb. rewrite Hb.
    destruct b; cbn [bind]; rewrite IH; cbn [fst snd map]; [|reflexivity].
    rewrite <- !app_assoc. reflexivity.
Qed.

(** The second loop appends, in order, the candidates below the threshold. *)
Lemma keep_loop_spec (threshold : double) (l kept : list DMatch) :
  fold_left (keep_step threshold) l kept
  = kept ++ List.filter (fun m => flt (f2d (distance m)) threshold) l.
Proof.
  revert kept; induction l as [|m l IH]; intros kept; cbn [fold_left List.filter].
  - now rewrite app_nil_r.
  - rewrite IH. unfold keep_step.
    destruct (flt (f2d (distance m)) threshold); [now rewrite <- app_assoc | reflexivity].
Qed.

(** A dissimilarity below the threshold [0.7 * meanDist] that the code
    computes in [double] is below seven tenths of [meanDist]. *)
Lemma below_threshold (dist : float32) (meanDist : Z) :
  nonneg32 dist = true -> 0 <= meanDist < 2 ^ 29 ->
  flt (f2d dist) (d_mul c0_7 (d_of_Z meanDist)) = true ->
  10 * units dist < 7 * meanDist * 2 ^ 149.
Proof.
  intros Hd Hm Hlt.
  change c0_7 with (S754_finite false 6305039478318694 (-53)) in Hlt.
  destruct meanDist as [|p|p]; [| |lia].
  - (* the threshold is zero: nothing is below it *)
    exfalso. change (d_of_Z 0) with (S754_zero false) in Hlt. cbn [d_mul SFmul xorb] in Hlt.
    destruct dist as [s| | |[|] m e]; try discriminate Hd.
    + discriminate Hlt.
    + cbn [nonneg32] in Hd. destruct (f2d_scaled m e Hd) as (m2 & e2 & E & _).
      rewrite E in Hlt. discriminate Hlt.
  - destruct dist as [s| | |[|] m e]; try discriminate Hd.
    + change (units (S754_zero s)) with 0. lia.
    + cbn [nonneg32] in Hd.
      destruct (f2d_scaled m e Hd) as (m2 & e2 & E2 & D2 & X2 & V2). rewrite E2 in Hlt.
      remember (units (S754_finite false m e)) as U eqn:EU. clear EU.
      destruct (d_of_Z_scaled p) as (m1 & e1 & E1 & D1 & X1 & V1 & _); [lia|].
      rewrite E1 in Hlt.
      destruct (Z.lt_ge_cases (10 * U) (7 * Zpos p * 2 ^ 149)) as [?|Hge]; [assumption|exfalso].
      destruct (digits2_pos_bounds m2) as [_ U2]. rewrite D2 in U2.
      assert (P1 : Zpos m1 * 2 ^ (e1 + 148) = Zpos p * 2 ^ 148).
      { rewrite V1, <- Z.mul_assoc, <- Z.pow_add_r by lia. do 2 f_equal. lia. }
      destruct (d_mul_upper 6305039478318694 m1 (-53) e1 (-201) (Zpos m2) e2)
        as (m' & e' & Et & Dt & Xt & Vt); try lia.
      { reflexivity. }
      { replace (-53 + e1 - -201) with (e1 + 148) by lia.
        replace (e2 - -201) with (e2 + 201) by lia.
        rewrite V2, <- Z.mul_assoc, P1. lia. }
      rewrite Et in Hlt.
      pose proof (SFltb_pos 53 eq_refl m2 m' e2 e' (-201) D2 Dt ltac:(lia) Xt Hlt) as C.
      lia.
Qed.

(** C6 (amended).  clusterKptMatchesWithROI, lines 134-160: when every match
    names a current-frame keypoint with pixel coordinates in the range of
    [int], the candidate set is not empty, its dissimilarities are finite
    and not negative and their exact sum is below 2^29, the function returns
    and appends only candidates whose dissimilarity [d] is strictly below
    0.7 times the arithmetic mean of the candidate set:
    [10 * n * d < 7 * sum], with [n] the number of candidates and [d] and
    [sum] counted in units of 2^-149. *)
Theorem clusterKptMatchesWithROI_keeps_below_mean
    (boundingBox : BoundingBox) (kptsPrev kptsCurr : list KeyPoint)
    (kptMatches0 : list DMatch) :
  Forall (fun m => exists b, candidate boundingBox kptsCurr m = Done b) kptMatches0 ->
  candidates boundingBox kptsCurr kptMatches0 <> [] ->
  Forall (fun m => nonneg32 (distance m) = true)
         (candidates boundingBox kptsCurr kptMatches0) ->
  sum_units (candidates boundingBox kptsCurr kptMatches0) < 2 ^ 29 * 2 ^ 149 ->
  exists kept,
    clusterKptMatchesWithROI boundingBox kptsPrev kptsCurr kptMatches0
    = Done (mkBoundingBox (boxID boundingBox) (roi boundingBox) (lidarPoints boundingBox)
              (kptMatches boundingBox ++ kept)) /\
    Forall (fun m =>
              In m (candidates boundingBox kptsCurr kptMatches0) /\
              10 * Z.of_nat (length (candidates boundingBox kptsCurr kptMatches0))
                 * units (distance m)
              < 7 * sum_units (candidates boundingBox kptsCurr kptMatches0))
           kept.
Proof.
  intros Hres Hne Hpos Hsum.
  unfold clusterKptMatchesWithROI. rewrite (roi_loop_spec _ _ _ _ Hres).
  fold (candidates boundingBox kptsCurr kptMatches0).
  remember (candidates boundingBox kptsCurr kptMatches0) as cands eqn:Ec. clear Ec.
  cbn [bind fst snd app].
  destruct (accumulate_bound cands 0 ltac:(lia) Hpos) as (sum & Es & Ps & Bs); [lia|].
  rewrite Es. cbn [bind]. rewrite length_map.
  assert (P149 : 0 < 2 ^ 149) by (apply pow2_pos; lia).
  assert (Hs29 : sum < 2 ^ 29).
  { apply (Z.mul_lt_mono_pos_r (2 ^ 149)); lia. }
  assert (Hn : (0 < length cands)%nat) by (destruct cands; [congruence | cbn; lia]).
  rewrite divide_by_size_pos by lia. cbn [bind]. rewrite keep_loop_spec.
  remember (Z.of_nat (length cands)) as n eqn:En.
  assert (Hn' : 0 < n) by lia.
  assert (Hq : 0 <= sum / n <= sum).
  { split; [apply Z.div_pos; lia|]. apply Z.div_le_upper_bound; [lia|].
    rewrite <- (Z.mul_1_l sum) at 1. apply Z.mul_le_mono_nonneg_r; lia. }
  assert (Hnq : n * (sum / n) <= sum) by (apply Z.mul_div_le; lia).
  eexists. split; [reflexivity|].
  apply List.Forall_forall. intros m Hm. apply List.filter_In in Hm. destruct Hm as [Hin Hlt].
  split; [exact Hin|].
  assert (Hd : nonneg32 (distance m) = true).
  { revert Hin. apply (proj1 (List.Forall_forall _ _) Hpos). }
  pose proof (below_threshold (distance m) (sum / n) Hd ltac:(lia) Hlt) as Hb.
  remember (units (distance m)) as u eqn:Eu. clear Eu.
  remember (sum / n) as q eqn:Eq. clear Eq.
  remember (2 ^ 149) as P eqn:EP.
  assert (H1 : n * (10 * u) < n * (7 * q * P)) by (apply Z.mul_lt_mono_pos_l; lia).
  assert (H2 : (n * q) * P <= sum * P) by (apply Z.mul_le_mono_nonneg_r; lia).
  lia.
Qed.

Lemma clusterKptMatchesWithROI_keeps_below_mean_witness :
  exists kept,
    clusterKptMatchesWithROI left_box [] two_keypoints positive_matches
    = Done (mkBoundingBox (boxID left_box) (roi left_box) (lidarPoints left_box)
              (kptMatches left_box ++ kept)) /\
    Forall (fun m =>
              In m (candidates left_box two_keypoints positive_matches) /\
              10 * Z.of_nat (length (candidates left_box two_keypoints positive_matches))
                 * units (distance m)
              < 7 * sum_units (candidates left_box two_keypoints positive_matches))
           kept.
Proof.
  assert (E : candidates left_box two_keypoints positive_matches = positive_matches)
    by (vm_compute; reflexivity).
  apply (clusterKptMatchesWithROI_keeps_below_mean left_box [] two_keypoints positive_matches).
  - constructor; [exists true; vm_compute; reflexivity|].
    constructor; [exists true; vm_compute; reflexivity|].
    constructor; [exists true; vm_compute; reflexivity|]. constructor.
  - rewrite E. discriminate.
  - rewrite E.
    constructor; [vm_compute; reflexivity|].
    constructor; [vm_compute; reflexivity|].
    constructor; [vm_compute; reflexivity|]. constructor.
  - rewrite E. vm_compute. reflexivity.
Defined.

(** C6 (as stated) fails for negative dissimilarities.  The matches of
    [negative_matches] are the candidate set of [left_box]; their
    dissimilarities are -0.75 and -0.25, with the mean -0.5.  The [int]
    accumulator of line 149 truncates every partial sum to 0, the threshold
    is 0, and both matches are appended, also the one with -0.25, which is
    not below 0.7 * -0.5 = -0.35. *)
Lemma clusterKptMatchesWithROI_keeps_above_mean :
  candidates left_box two_keypoints negative_matches = negative_matches /\
  clusterKptMatchesWithROI left_box [] two_keypoints negative_matches
  = Done (mkBoundingBox 0 (mkRect 0 0 100 100) [] negative_matches) /\
  In (mkDMatch 1 1 minus_one_quarter) negative_matches /\
  7 * sum_units negative_matches
  <= 10 * Z.of_nat (length negative_matches) * units minus_one_quarter.
Proof.
  split; [vm_compute; reflexivity|].
  split; [vm_compute; reflexivity|].
  split; [right; left; reflexivity|].
  vm_compute. discriminate.
Qed.

(* ===================================================================== *)
(** * Further properties of the code *)
(* ===================================================================== *)

(** ** computeTTCLidar: the points outside the ego lane *)

Lemma lane_loop_filter (l : list LidarPoint) (st : double * double) :
  fold_left lane_step l st = fold_left lane_step (List.filter in_lane l) st.
Proof.
  revert st; induction l as [|p l IH]; intros st; [reflexivity|].
  cbn [fold_left List.filter]. destruct (in_lane p) eqn:E.
  - cbn [fold_left]. apply IH.
  - unfold lane_step at 2. rewrite E. apply IH.
Qed.

Lemma filter_not_nil {A : Type} (f : A -> bool) (l : list A) :
  List.filter f l <> [] -> l <> [].
Proof. destruct l; [intros H; exact H | discriminate]. Qed.

(** X1.  computeTTCLidar, lines 236-254: the two loops read only the points
    with [|y| <= laneWidth / 2].  When either frame has a point in the lane,
    the result is the one the function gives on the in-lane points alone,
    whatever the other points are. *)
Theorem computeTTCLidar_reads_only_the_lane
    (lidarPointsPrev lidarPointsCurr : list LidarPoint) (frameRate : double) :
  List.filter in_lane lidarPointsPrev <> [] ->
  List.filter in_lane lidarPointsCurr <> [] ->
  computeTTCLidar lidarPointsPrev lidarPointsCurr frameRate
  = computeTTCLidar (List.filter in_lane lidarPointsPrev)
                    (List.filter in_lane lidarPointsCurr) frameRate.
Proof.
  intros Hp Hc. unfold computeTTCLidar.
  rewrite (length_eqb_0 _ Hp), (length_eqb_0 _ Hc).
  rewrite (length_eqb_0 _ (filter_not_nil _ _ Hp)), (length_eqb_0 _ (filter_not_nil _ _ Hc)).
  cbn [orb]. rewrite (lane_loop_filter lidarPointsPrev), (lane_loop_filter lidarPointsCurr).
  reflexivity.
Qed.

Lemma computeTTCLidar_reads_only_the_lane_witness :
  computeTTCLidar [lidar_at 10 0; lidar_at 5 3] [lidar_at 1 (-7); lidar_at 8 0] (d_of_Z 10)
  = computeTTCLidar (List.filter in_lane [lidar_at 10 0; lidar_at 5 3])
                    (List.filter in_lane [lidar_at 1 (-7); lidar_at 8 0]) (d_of_Z 10).
Proof.
  apply (computeTTCLidar_reads_only_the_lane
           [lidar_at 10 0; lidar_at 5 3] [lidar_at 1 (-7); lidar_at 8 0] (d_of_Z 10)).
  - vm_compute. discriminate.
  - vm_compute. discriminate.
Defined.

Lemma ttc_of_infinite_distance (a b : double) :
  d_div (d_mul (S754_infinity false) a) (d_sub b (S754_infinity false)) = NAN.
Proof.
  destruct a as [[|]|[|]| |[|] ma ea], b as [[|]|[|]| |[|] mb eb]; reflexivity.
Qed.

(** X2.  computeTTCLidar, lines 246-256: when both frames have points but no
    point of the current frame lies in the ego lane, [minXCurr] is
    [1e9 / 0], which is infinite, and TTC is not-a-number, whatever the
    points of the previous frame and the frame rate are. *)
Theorem computeTTCLidar_no_current_point_in_lane
    (lidarPointsPrev lidarPointsCurr : list LidarPoint) (frameRate : double) :
  lidarPointsPrev <> [] ->
  lidarPointsCurr <> [] ->
  Forall (fun p => in_lane p = false) lidarPointsCurr ->
  computeTTCLidar lidarPointsPrev lidarPointsCurr frameRate = NAN.
Proof.
  intros Hp Hc Fc. unfold computeTTCLidar.
  rewrite (length_eqb_0 _ Hp), (length_eqb_0 _ Hc). cbn [orb].
  rewrite (lane_loop_no_point lidarPointsCurr) by exact Fc. cbn [fst snd].
  replace (d_div (d_of_Z 1000000000) zero) with (S754_infinity false)
    by (vm_compute; reflexivity).
  apply ttc_of_infinite_distance.
Qed.

Lemma computeTTCLidar_no_current_point_in_lane_witness :
  computeTTCLidar [lidar_at 10 0] [lidar_at 8 3] (d_of_Z 10) = NAN.
Proof.
  apply (computeTTCLidar_no_current_point_in_lane [lidar_at 10 0] [lidar_at 8 3] (d_of_Z 10)).
  - discriminate.
  - discriminate.
  - constructor; [vm_compute; reflexivity | constructor].
Defined.

(** ** computeTTCCamera: indices, and the element read as the median *)

Lemma at_Done {A : Type} (v : list A) (i : Z) (a : A) :
  at_ v i = Done a -> 0 <= i < Z.of_nat (length v).
Proof.
  unfold at_. destruct (0 <=? i) eqn:E; [|discriminate].
  destruct (v !! Z.to_nat i) as [b|] eqn:L; [|discriminate].
  intros _. apply lookup_lt_Some in L. compare_to_prop. lia.
Qed.

Lemma at_Fault {A : Type} (v : list A) (i : Z) (f : fault) :
  at_ v i = Fault f -> f = OutOfRangeException.
Proof.
  unfold at_. destruct (0 <=? i); [|congruence].
  destruct (v !! Z.to_nat i); congruence.
Qed.

Lemma inner_step_Fault (kptsPrev kptsCurr : list KeyPoint)
    (kpOuterCurr kpOuterPrev : KeyPoint) (distRatios : list double) (it2 : DMatch)
    (f : fault) :
  inner_step kptsPrev kptsCurr kpOuterCurr kpOuterPrev distRatios it2 = Fault f ->
  f = OutOfRangeException.
Proof.
  unfold inner_step.
  destruct (at_ kptsCurr (trainIdx it2)) as [kc|f1] eqn:E1;
    [|cbn [bind]; intros H; injection H as <-; exact (at_Fault _ _ _ E1)].
  destruct (at_ kptsPrev (queryIdx it2)) as [kp|f2] eqn:E2;
    [|cbn [bind]; intros H; injection H as <-; exact (at_Fault _ _ _ E2)].
  cbn [bind]. destruct (_ && _); discriminate.
Qed.

Lemma inner_step_Done (kptsPrev kptsCurr : list KeyPoint)
    (kpOuterCurr kpOuterPrev : KeyPoint) (distRatios distRatios' : list double)
    (it2 : DMatch) :
  inner_step kptsPrev kptsCurr kpOuterCurr kpOuterPrev distRatios it2 = Done distRatios' ->
  ~ dangling kptsPrev kptsCurr it2.
Proof.
  unfold inner_step. intros H.
  apply bind_Done in H as (kc & Hc & H). apply bind_Done in H as (kp & Hp & _).
  apply at_Done in Hc. apply at_Done in Hp. unfold dangling. tauto.
Qed.

Lemma inner_loop_dangling (kptsPrev kptsCurr : list KeyPoint)
    (kpOuterCurr kpOuterPrev : KeyPoint) (l : list DMatch) (m : DMatch)
    (distRatios : list double) :
  In m l -> dangling kptsPrev kptsCurr m ->
  foldM (inner_step kptsPrev kptsCurr kpOuterCurr kpOuterPrev) l distRatios
  = Fault OutOfRangeException.
Proof.
  intros Hin Hm; revert distRatios; induction l as [|it2 l IH]; intros distRatios;
    [contradiction|].
  cbn [foldM].
  destruct (inner_step kptsPrev kptsCurr kpOuterCurr kpOuterPrev distRatios it2)
    as [r'|f] eqn:E; cbn [bind].
  - destruct Hin as [->|Hin]; [|exact (IH Hin r')].
    apply inner_step_Done in E. contradiction.
  - apply inner_step_Fault in E. now subst.
Qed.

(** X3.  computeTTCCamera, lines 168-195: every keypoint is read with
    [std::vector::at].  With at least two matches every match is read, by
    the outer loop or by the inner one, so one match whose [trainIdx] or
    [queryIdx] is outside its keypoint vector makes the function throw
    [std::out_of_range]; no value is stored in TTC. *)
Theorem computeTTCCamera_dangling_index_throws
    (kptsPrev kptsCurr : list KeyPoint) (kptMatches : list DMatch)
    (frameRate : double) (m : DMatch) :
  (2 <= length kptMatches)%nat ->
  In m kptMatches ->
  dangling kptsPrev kptsCurr m ->
  computeTTCCamera kptsPrev kptsCurr kptMatches frameRate = Fault OutOfRangeException.
Proof.
  intros Hlen Hin Hm.
  destruct kptMatches as [|it1 [|it1' rest]]; cbn [length] in Hlen; try lia.
  unfold computeTTCCamera. cbn [outer_loop tail].
  destruct (at_ kptsCurr (trainIdx it1)) as [kc|f] eqn:Ec; cbn [bind];
    [|apply at_Fault in Ec; now subst].
  destruct (at_ kptsPrev (queryIdx it1)) as [kp|f] eqn:Ep; cbn [bind];
    [|apply at_Fault in Ep; now subst].
  assert (Hin' : In m (it1' :: rest)).
  { destruct Hin as [->|Hin]; [|exact Hin].
    apply at_Done in Ec. apply at_Done in Ep. unfold dangling in Hm. tauto. }
  rewrite (inner_loop_dangling _ _ kc kp _ m [] Hin' Hm). reflexivity.
Qed.

Lemma computeTTCCamera_dangling_index_throws_witness :
  computeTTCCamera line_prev line_curr [match_of 0 0 1; match_of 1 7 1] (d_of_Z 10)
  = Fault OutOfRangeException.
Proof.
  apply (computeTTCCamera_dangling_index_throws line_prev line_curr
           [match_of 0 0 1; match_of 1 7 1] (d_of_Z 10) (match_of 1 7 1)).
  - cbn [length]. lia.
  - right. left. reflexivity.
  - left. cbn. lia.
Defined.

Lemma insert_sorted_Permutation (v : double) (l : list double) :
  Permutation (insert_sorted v l) (v :: l).
Proof.
  induction l as [|w l IH]; cbn [insert_sorted]; [reflexivity|].
  destruct (flt v w); [reflexivity|].
  rewrite IH. apply perm_swap.
Qed.

Lemma sort_Permutation (l : list double) : Permutation (sort l) l.
Proof.
  induction l as [|v l IH]; cbn [sort fold_right]; [reflexivity|].
  fold (sort l). rewrite insert_sorted_Permutation, IH. reflexivity.
Qed.

(** The result once the ratios are collected and the position of the median
    holds an element. *)
Lemma computeTTCCamera_reads (kptsPrev kptsCurr : list KeyPoint)
    (kptMatches : list DMatch) (frameRate : double) (distRatios : list double)
    (k : nat) (v : double) :
  outer_loop kptsPrev kptsCurr kptMatches kptMatches [] = Done distRatios ->
  distRatios <> [] ->
  median_index (length distRatios) = k ->
  sort distRatios !! k = Some v ->
  computeTTCCamera kptsPrev kptsCurr kptMatches frameRate
  = Done (d_div (d_neg (d_div one frameRate)) (d_sub one v)).
Proof.
  intros Hrun Hne Hk Hv. unfold computeTTCCamera. rewrite Hrun. cbn [bind].
  rewrite (length_eqb_0 _ Hne). rewrite length_sort, Hk.
  unfold index. destruct (0 <=? Z.of_nat k) eqn:E; [|compare_to_prop; lia].
  rewrite Nat2Z.id, Hv. reflexivity.
Qed.

(** *** The order of the floating-point numbers, and the sorted ratios *)

Lemma SFcompare_key (a b : spec_float) :
  number a = true -> number b = true ->
  exists c, SFcompare a b = Some c /\
            (c <> Gt <-> key_le (order_key a) (order_key b)) /\
            (c <> Lt <-> key_le (order_key b) (order_key a)).
Proof.
  intros Ha Hb. unfold key_le.
  destruct a as [sa|[|]| |[|] ma ea]; try discriminate Ha;
    destruct b as [sb|[|]| |[|] mb eb]; try discriminate Hb;
    cbn [SFcompare order_key fst snd];
    try (eexists; split; [reflexivity|]; split; split; solve [congruence | intros; lia]).
  - (* two negative numbers *)
    destruct (Z.compare_spec ea eb) as [E|E|E];
      [|eexists; split; [reflexivity|]; split; split; solve [congruence | intros; lia] ..].
    subst eb. change (Pos.compare_cont Eq ma mb) with (Pos.compare ma mb).
    destruct (Pos.compare_spec ma mb) as [F|F|F]; cbn [CompOpp];
      eexists; (split; [reflexivity|]); split; split; solve [congruence | intros; lia].
  - (* two positive numbers *)
    destruct (Z.compare_spec ea eb) as [E|E|E];
      [|eexists; split; [reflexivity|]; split; split; solve [congruence | intros; lia] ..].
    subst eb. change (Pos.compare_cont Eq ma mb) with (Pos.compare ma mb).
    destruct (Pos.compare_spec ma mb) as [F|F|F];
      eexists; (split; [reflexivity|]); split; split; solve [congruence | intros; lia].
Qed.

Lemma fle_key (a b : spec_float) :
  number a = true -> number b = true ->
  (fle a b = true <-> key_le (order_key a) (order_key b)).
Proof.
  intros Ha Hb. destruct (SFcompare_key a b Ha Hb) as (c & E & H & _).
  unfold fle, SFleb. rewrite E. rewrite <- H. destruct c; split; congruence.
Qed.

Lemma flt_true_fle (a b : spec_float) : flt a b = true -> fle a b = true.
Proof.
  unfold flt, fle, SFltb, SFleb. destruct (SFcompare a b) as [[| |]|]; congruence.
Qed.

Lemma flt_false_fle (a b : spec_float) :
  number a = true -> number b = true -> flt a b = false -> fle b a = true.
Proof.
  intros Ha Hb. destruct (SFcompare_key a b Ha Hb) as (c & E & _ & H).
  rewrite (fle_key b a Hb Ha), <- H. unfold flt, SFltb. rewrite E.
  destruct c; congruence.
Qed.

Lemma fle_trans (a b c : spec_float) :
  number a = true -> number b = true -> number c = true ->
  fle a b = true -> fle b c = true -> fle a c = true.
Proof.
  intros Ha Hb Hc. rewrite (fle_key a b Ha Hb), (fle_key b c Hb Hc), (fle_key a c Ha Hc).
  unfold key_le. lia.
Qed.

Lemma insert_sorted_ascending (v : double) (l : list double) :
  number v = true -> Forall (fun r => number r = true) l ->
  ascending l -> ascending (insert_sorted v l).
Proof.
  intros Hv Hl; induction Hl as [|w l Hw Hl IH]; intros Hasc.
  - cbn. split; constructor.
  - cbn [insert_sorted]. destruct Hasc as [Hfirst Hrest].
    destruct (flt v w) eqn:E.
    + split; [|split; assumption].
      pose proof (flt_true_fle _ _ E) as Hvw.
      constructor; [exact Hvw|].
      rewrite List.Forall_forall in *. intros r Hr.
      apply (fle_trans v w r); auto.
    + split; [|exact (IH Hrest)].
      rewrite (insert_sorted_Permutation v l).
      constructor; [exact (flt_false_fle _ _ Hv Hw E) | exact Hfirst].
Qed.

(** On numbers, [sort] puts the elements in ascending order. *)
Lemma sort_ascending (l : list double) :
  Forall (fun r => number r = true) l -> ascending (sort l).
Proof.
  induction 1 as [|v l Hv Hl IH]; [exact I|].
  cbn [sort fold_right]. fold (sort l).
  apply insert_sorted_ascending; [exact Hv | | exact IH].
  rewrite (sort_Permutation l). exact Hl.
Qed.

(** X4.  computeTTCCamera, lines 205-213: for an odd number [2 k + 1] of
    distance ratios, none of them not-a-number, the median read is the
    element at position [k], the middle one, of the ratios rearranged in
    ascending order, and TTC is [-(1 / frameRate) / (1 - median)]. *)
Theorem computeTTCCamera_odd_count_reads_the_middle
    (kptsPrev kptsCurr : list KeyPoint) (kptMatches : list DMatch)
    (frameRate : double) (distRatios : list double) (k : nat) :
  outer_loop kptsPrev kptsCurr kptMatches kptMatches [] = Done distRatios ->
  Forall (fun r => number r = true) distRatios ->
  length distRatios = (2 * k + 1)%nat ->
  exists sorted medianDistRatio,
    Permutation sorted distRatios /\
    ascending sorted /\
    sorted !! k = Some medianDistRatio /\
    computeTTCCamera kptsPrev kptsCurr kptMatches frameRate
    = Done (d_div (d_neg (d_div one frameRate)) (d_sub one medianDistRatio)).
Proof.
  intros Hrun Hnum Hlen.
  destruct (lookup_lt_is_Some_2 (sort distRatios) k) as [v Hv];
    [rewrite length_sort; lia|].
  exists (sort distRatios), v.
  split; [apply sort_Permutation|]. split; [apply sort_ascending; exact Hnum|].
  split; [exact Hv|].
  apply (computeTTCCamera_reads _ _ _ _ distRatios k v Hrun); [| |exact Hv].
  - destruct distRatios; [cbn in Hlen; lia | discriminate].
  - rewrite Hlen. apply median_index_odd.
Qed.

Lemma computeTTCCamera_odd_count_reads_the_middle_witness :
  exists sorted medianDistRatio,
    Permutation sorted [d_of_Z 3; one; two] /\
    ascending sorted /\
    sorted !! 1%nat = Some medianDistRatio /\
    computeTTCCamera mixed3_prev mixed3_curr line_matches (d_of_Z 10)
    = Done (d_div (d_neg (d_div one (d_of_Z 10))) (d_sub one medianDistRatio)).
Proof.
  apply (computeTTCCamera_odd_count_reads_the_middle
           mixed3_prev mixed3_curr line_matches (d_of_Z 10) [d_of_Z 3; one; two] 1).
  - vm_compute. reflexivity.
  - repeat constructor.
  - reflexivity.
Defined.

(** X5.  computeTTCCamera, lines 207-208: for an even number [2 k] of
    distance ratios, [k >= 2], none of them not-a-number, the element read
    is the one at position [k + 1] of the ratios rearranged in ascending
    order.  The two middle elements are at the positions [k - 1] and [k]:
    the element read is the one after them. *)
Theorem computeTTCCamera_even_count_reads_after_the_middle
    (kptsPrev kptsCurr : list KeyPoint) (kptMatches : list DMatch)
    (frameRate : double) (distRatios : list double) (k : nat) :
  outer_loop kptsPrev kptsCurr kptMatches kptMatches [] = Done distRatios ->
  Forall (fun r => number r = true) distRatios ->
  length distRatios = (2 * k)%nat ->
  (2 <= k)%nat ->
  exists sorted medianDistRatio,
    Permutation sorted distRatios /\
    ascending sorted /\
    sorted !! (k + 1)%nat = Some medianDistRatio /\
    computeTTCCamera kptsPrev kptsCurr kptMatches frameRate
    = Done (d_div (d_neg (d_div one frameRate)) (d_sub one medianDistRatio)).
Proof.
  intros Hrun Hnum Hlen Hk.
  destruct (lookup_lt_is_Some_2 (sort distRatios) (k + 1)) as [v Hv];
    [rewrite length_sort; lia|].
  exists (sort distRatios), v.
  split; [apply sort_Permutation|]. split; [apply sort_ascending; exact Hnum|].
  split; [exact Hv|].
  apply (computeTTCCamera_reads _ _ _ _ distRatios (k + 1) v Hrun); [| |exact Hv].
  - destruct distRatios; [cbn in Hlen; lia | discriminate].
  - rewrite Hlen. apply median_index_even.
Qed.

Lemma computeTTCCamera_even_count_reads_after_the_middle_witness :
  exists sorted medianDistRatio,
    Permutation sorted [d_of_Z 4; one; d_of_Z 3; two] /\
    ascending sorted /\
    sorted !! (2 + 1)%nat = Some medianDistRatio /\
    computeTTCCamera mixed4_prev mixed4_curr four_matches (d_of_Z 10)
    = Done (d_div (d_neg (d_div one (d_of_Z 10))) (d_sub one medianDistRatio)).
Proof.
  apply (computeTTCCamera_even_count_reads_after_the_middle
           mixed4_prev mixed4_curr four_matches (d_of_Z 10)
           [d_of_Z 4; one; d_of_Z 3; two] 2).
  - vm_compute. reflexivity.
  - repeat constructor.
  - reflexivity.
  - lia.
Defined.

(** X6.  computeTTCCamera, lines 168-202: on a non-empty list of matches of
    which no pair passes the test of line 188, [distRatios] stays empty and
    TTC is not-a-number. *)
Theorem computeTTCCamera_no_surviving_pair
    (kptsPrev kptsCurr : list KeyPoint) (kptMatches : list DMatch) (frameRate : double) :
  kptMatches <> [] ->
  no_pair_survives kptsPrev kptsCurr kptMatches ->
  computeTTCCamera kptsPrev kptsCurr kptMatches frameRate = Done NAN.
Proof.
  intros Hne H. unfold computeTTCCamera.
  rewrite outer_loop_no_survivor; [reflexivity | assumption | assumption | apply incl_refl].
Qed.

Lemma near_pairs_do_not_survive : no_pair_survives near_prev near_curr near_matches.
Proof.
  intros it1 it2 H1 H2.
  destruct H1 as [<-|[<-|[]]]; destruct H2 as [<-|[<-|[]]].
  - exists (keypoint_at 0 0), (keypoint_at 0 0), (keypoint_at 0 0), (keypoint_at 0 0).
    repeat split; vm_compute; reflexivity.
  - exists (keypoint_at 0 0), (keypoint_at 0 0), (keypoint_at 2 0), (keypoint_at 1 0).
    repeat split; vm_compute; reflexivity.
  - exists (keypoint_at 2 0), (keypoint_at 1 0), (keypoint_at 0 0), (keypoint_at 0 0).
    repeat split; vm_compute; reflexivity.
  - exists (keypoint_at 2 0), (keypoint_at 1 0), (keypoint_at 2 0), (keypoint_at 1 0).
    repeat split; vm_compute; reflexivity.
Defined.

Lemma computeTTCCamera_no_surviving_pair_witness :
  computeTTCCamera near_prev near_curr near_matches (d_of_Z 10) = Done NAN.
Proof.
  apply (computeTTCCamera_no_surviving_pair near_prev near_curr near_matches (d_of_Z 10)).
  - discriminate.
  - exact near_pairs_do_not_survive.
Defined.

(** ** clusterKptMatchesWithROI: what a run that returns has done *)

Lemma roi_step_candidate (boundingBox : BoundingBox) (kptsCurr : list KeyPoint)
    (st : list DMatch * list double) (m : DMatch) :
  roi_step boundingBox kptsCurr st m
  = match candidate boundingBox kptsCurr m with
    | Done true => Done (fst st ++ [m], snd st ++ [f2d (distance m)])
    | Done false => Done st
    | Fault f => Fault f
    end.
Proof.
  unfold roi_step, candidate.
  destruct (index kptsCurr (trainIdx m)) as [kpt|]; [|reflexivity]. cbn [bind].
  destruct (keypoint_pixel kpt) as [pixel|]; [|reflexivity]. cbn [bind].
  destruct (contains (roi boundingBox) pixel); reflexivity.
Qed.

Lemma roi_loop_Done (boundingBox : BoundingBox) (kptsCurr : list KeyPoint)
    (l : list DMatch) (st st' : list DMatch * list double) :
  foldM (roi_step boundingBox kptsCurr) l st = Done st' ->
  Forall (fun m => exists b, candidate boundingBox kptsCurr m = Done b) l.
Proof.
  revert st; induction l as [|m l IH]; intros st H; [constructor|].
  cbn [foldM] in H. apply bind_Done in H as (st1 & H1 & H).
  constructor; [|exact (IH st1 H)].
  rewrite roi_step_candidate in H1.
  destruct (candidate boundingBox kptsCurr m) as [b|]; [eauto | discriminate].
Qed.

Lemma index_Fault {A : Type} (v : list A) (i : Z) :
  ~ (0 <= i < Z.of_nat (length v)) -> index v i = Fault OutOfBounds.
Proof.
  intros H. unfold index. destruct (0 <=? i) eqn:E; [|reflexivity].
  destruct (v !! Z.to_nat i) as [a|] eqn:L; [|reflexivity].
  apply lookup_lt_Some in L. compare_to_prop. lia.
Qed.

(** X7.  clusterKptMatchesWithROI, line 143: [kptsCurr[eachMatch.trainIdx]]
    is read without a bounds check for every match, before anything is
    appended.  One match whose [trainIdx] is outside [kptsCurr] leaves the
    run without a defined result, wherever the match stands in the list. *)
Theorem clusterKptMatchesWithROI_trainIdx_out_of_bounds
    (boundingBox : BoundingBox) (kptsPrev kptsCurr : list KeyPoint)
    (kptMatches0 : list DMatch) (m : DMatch) :
  In m kptMatches0 ->
  ~ (0 <= trainIdx m < Z.of_nat (length kptsCurr)) ->
  exists f, clusterKptMatchesWithROI boundingBox kptsPrev kptsCurr kptMatches0 = Fault f.
Proof.
  intros Hin Hm.
  destruct (clusterKptMatchesWithROI boundingBox kptsPrev kptsCurr kptMatches0)
    as [bb'|f] eqn:E; [exfalso | eauto].
  unfold clusterKptMatchesWithROI in E. apply bind_Done in E as (st & Hst & _).
  apply roi_loop_Done in Hst. rewrite List.Forall_forall in Hst.
  destruct (Hst m Hin) as [b Hb]. unfold candidate in Hb.
  rewrite (index_Fault _ _ Hm) in Hb. discriminate.
Qed.

Lemma clusterKptMatchesWithROI_trainIdx_out_of_bounds_witness :
  exists f,
    clusterKptMatchesWithROI left_box [] two_keypoints
      [mkDMatch 0 0 ten_and_a_half; mkDMatch 0 2 ten_and_a_half] = Fault f.
Proof.
  apply (clusterKptMatchesWithROI_trainIdx_out_of_bounds left_box [] two_keypoints
           [mkDMatch 0 0 ten_and_a_half; mkDMatch 0 2 ten_and_a_half]
           (mkDMatch 0 2 ten_and_a_half)).
  - right. left. reflexivity.
  - cbn. lia.
Defined.

(** X8.  clusterKptMatchesWithROI, lines 139-158: a run that returns has a
    non-empty candidate set, leaves the identifier, the rectangle and the
    Lidar points of the box as they were, keeps the matches the box held
    before, and appends behind them, in the order of [kptMatches], exactly
    the candidates whose dissimilarity is below one common threshold. *)
Theorem clusterKptMatchesWithROI_appends_candidates_below_threshold
    (boundingBox boundingBox' : BoundingBox) (kptsPrev kptsCurr : list KeyPoint)
    (kptMatches0 : list DMatch) :
  clusterKptMatchesWithROI boundingBox kptsPrev kptsCurr kptMatches0 = Done boundingBox' ->
  candidates boundingBox kptsCurr kptMatches0 <> [] /\
  boxID boundingBox' = boxID boundingBox /\
  roi boundingBox' = roi boundingBox /\
  lidarPoints boundingBox' = lidarPoints boundingBox /\
  exists threshold,
    kptMatches boundingBox'
    = kptMatches boundingBox
      ++ List.filter (below threshold) (candidates boundingBox kptsCurr kptMatches0).
Proof.
  intros H. unfold clusterKptMatchesWithROI in H.
  apply bind_Done in H as (st & Hst & H).
  pose proof (roi_loop_Done _ _ _ _ _ Hst) as Hres.
  rewrite (roi_loop_spec _ _ _ _ Hres) in Hst. injection Hst as <-.
  fold (candidates boundingBox kptsCurr kptMatches0) in H.
  cbn [fst snd app] in H.
  apply bind_Done in H as (sum & _ & H).
  apply bind_Done in H as (meanDist & Hdiv & H).
  injection H as <-. cbn [boxID roi lidarPoints kptMatches].
  split.
  - intros E. rewrite E in Hdiv. discriminate Hdiv.
  - repeat split. exists (d_mul c0_7 (d_of_Z meanDist)). apply keep_loop_spec.
Qed.

Lemma clusterKptMatchesWithROI_appends_candidates_below_threshold_witness :
  exists boundingBox',
    clusterKptMatchesWithROI left_box [] two_keypoints positive_matches = Done boundingBox' /\
    boxID boundingBox' = boxID left_box /\
    exists threshold,
      kptMatches boundingBox'
      = kptMatches left_box
        ++ List.filter (below threshold) (candidates left_box two_keypoints positive_matches).
Proof.
  exists (mkBoundingBox 0 (mkRect 0 0 100 100) [] [mkDMatch 0 0 ten_and_a_half]).
  assert (E : clusterKptMatchesWithROI left_box [] two_keypoints positive_matches
              = Done (mkBoundingBox 0 (mkRect 0 0 100 100) [] [mkDMatch 0 0 ten_and_a_half]))
    by (vm_compute; reflexivity).
  split; [exact E|].
  destruct (clusterKptMatchesWithROI_appends_candidates_below_threshold _ _ _ _ _ E)
    as (_ & Hid & _ & _ & Hk).
  split; [exact Hid | exact Hk].
Defined.

(** ** clusterKptMatchesWithROI: the integer accumulator *)

Lemma filter_none {A : Type} (f : A -> bool) (l : list A) :
  Forall (fun a => f a = false) l -> List.filter f l = [].
Proof.
  induction 1 as [|a l Ha _ IH]; cbn [List.filter]; [reflexivity|].
  now rewrite Ha.
Qed.

Lemma accumulate_below_one (l : list DMatch) :
  Forall (fun m => below_one32 (distance m) = true) l ->
  accumulate (map (fun m => f2d (distance m)) l) 0 = Done 0.
Proof.
  induction 1 as [|m l Hm _ IH]; [reflexivity|].
  unfold below_one32 in Hm. apply andb_true_iff in Hm as [Hn Hu]. compare_to_prop.
  assert (P149 : 0 < 2 ^ 149) by (apply pow2_pos; lia).
  destruct (accumulate_step 0 (distance m) ltac:(lia) Hn) as (acc1 & E1 & P1 & B1); [lia|].
  assert (acc1 < 1) by (apply (Z.mul_lt_mono_pos_r (2 ^ 149)); lia).
  assert (acc1 = 0) by lia. subst acc1.
  unfold accumulate in *. cbn [map foldM]. rewrite E1. cbn [bind]. exact IH.
Qed.

Lemma nonneg32_not_below_zero (v : float32) :
  nonneg32 v = true -> flt (f2d v) (S754_zero false) = false.
Proof.
  destruct v as [s| | |[|] m e]; try discriminate.
  - intros _. destruct s; reflexivity.
  - cbn [nonneg32]. intros Hb.
    destruct (f2d_scaled m e Hb) as (m' & e' & -> & _). reflexivity.
Qed.

(** X9.  clusterKptMatchesWithROI, lines 151-158: [std::accumulate] sums in
    an [int].  When the dissimilarities of the candidates all lie between 0
    and 1 (1 excluded), every partial sum is truncated to 0, the threshold
    is 0, and the run returns the box with no match appended. *)
Theorem clusterKptMatchesWithROI_small_distances_keep_nothing
    (boundingBox : BoundingBox) (kptsPrev kptsCurr : list KeyPoint)
    (kptMatches0 : list DMatch) :
  Forall (fun m => exists b, candidate boundingBox kptsCurr m = Done b) kptMatches0 ->
  candidates boundingBox kptsCurr kptMatches0 <> [] ->
  Forall (fun m => below_one32 (distance m) = true)
         (candidates boundingBox kptsCurr kptMatches0) ->
  clusterKptMatchesWithROI boundingBox kptsPrev kptsCurr kptMatches0
  = Done (mkBoundingBox (boxID boundingBox) (roi boundingBox) (lidarPoints boundingBox)
            (kptMatches boundingBox)).
Proof.
  intros Hres Hne Hsmall.
  unfold clusterKptMatchesWithROI. rewrite (roi_loop_spec _ _ _ _ Hres).
  fold (candidates boundingBox kptsCurr kptMatches0).
  remember (candidates boundingBox kptsCurr kptMatches0) as cands eqn:Ec. clear Ec.
  cbn [bind fst snd app]. rewrite (accumulate_below_one _ Hsmall). cbn [bind].
  rewrite length_map.
  assert (Hn : (0 < length cands)%nat) by (destruct cands; [congruence | cbn; lia]).
  rewrite divide_by_size_pos by (cbn; lia). rewrite Zdiv_0_l. cbn [bind].
  replace (d_mul c0_7 (d_of_Z 0)) with (S754_zero false) by (vm_compute; reflexivity).
  rewrite keep_loop_spec, filter_none, app_nil_r; [reflexivity|].
  eapply List.Forall_impl; [|exact Hsmall].
  intros m Hm. apply andb_true_iff in Hm as [Hm _].
  apply nonneg32_not_below_zero. exact Hm.
Qed.

Lemma clusterKptMatchesWithROI_small_distances_keep_nothing_witness :
  clusterKptMatchesWithROI left_box [] two_keypoints fraction_matches
  = Done (mkBoundingBox (boxID left_box) (roi left_box) (lidarPoints left_box)
            (kptMatches left_box)).
Proof.
  assert (E : candidates left_box two_keypoints fraction_matches = fraction_matches)
    by (vm_compute; reflexivity).
  apply (clusterKptMatchesWithROI_small_distances_keep_nothing
           left_box [] two_keypoints fraction_matches).
  - constructor; [exists true; vm_compute; reflexivity|].
    constructor; [exists true; vm_compute; reflexivity|]. constructor.
  - rewrite E. discriminate.
  - rewrite E.
    constructor; [vm_compute; reflexivity|].
    constructor; [vm_compute; reflexivity|]. constructor.
Defined.

(** The run on candidates with finite, non-negative dissimilarities whose
    sum is below 2^29: [meanDist] times the number of candidates does not
    exceed the sum. *)
Lemma clusterKptMatchesWithROI_run (boundingBox : BoundingBox)
    (kptsPrev kptsCurr : list KeyPoint) (kptMatches0 : list DMatch) :
  Forall (fun m => exists b, candidate boundingBox kptsCurr m = Done b) kptMatches0 ->
  candidates boundingBox kptsCurr kptMatches0 <> [] ->
  Forall (fun m => nonneg32 (distance m) = true)
         (candidates boundingBox kptsCurr kptMatches0) ->
  sum_units (candidates boundingBox kptsCurr kptMatches0) < 2 ^ 29 * 2 ^ 149 ->
  exists meanDist,
    clusterKptMatchesWithROI boundingBox kptsPrev kptsCurr kptMatches0
    = Done (mkBoundingBox (boxID boundingBox) (roi boundingBox) (lidarPoints boundingBox)
              (kptMatches boundingBox
               ++ List.filter (below (d_mul c0_7 (d_of_Z meanDist)))
                              (candidates boundingBox kptsCurr kptMatches0))) /\
    0 <= meanDist < 2 ^ 29 /\
    Z.of_nat (length (candidates boundingBox kptsCurr kptMatches0)) * meanDist * 2 ^ 149
    <= sum_units (candidates boundingBox kptsCurr kptMatches0).
Proof.
  intros Hres Hne Hpos Hsum.
  unfold clusterKptMatchesWithROI. rewrite (roi_loop_spec _ _ _ _ Hres).
  fold (candidates boundingBox kptsCurr kptMatches0).
  remember (candidates boundingBox kptsCurr kptMatches0) as cands eqn:Ec. clear Ec.
  cbn [bind fst snd app].
  destruct (accumulate_bound cands 0 ltac:(lia) Hpos) as (sum & Es & Ps & Bs); [lia|].
  rewrite Es. cbn [bind]. rewrite length_map.
  assert (P149 : 0 < 2 ^ 149) by (apply pow2_pos; lia).
  assert (Hs29 : sum < 2 ^ 29) by (apply (Z.mul_lt_mono_pos_r (2 ^ 149)); lia).
  assert (Hn : (0 < length cands)%nat) by (destruct cands; [congruence | cbn; lia]).
  rewrite divide_by_size_pos by lia. cbn [bind]. rewrite keep_loop_spec.
  remember (Z.of_nat (length cands)) as n eqn:En.
  assert (Hn' : 0 < n) by lia.
  assert (Hq : 0 <= sum / n <= sum).
  { split; [apply Z.div_pos; lia|]. apply Z.div_le_upper_bound; [lia|].
    rewrite <- (Z.mul_1_l sum) at 1. apply Z.mul_le_mono_nonneg_r; lia. }
  assert (Hnq : n * (sum / n) <= sum) by (apply Z.mul_div_le; lia).
  exists (sum / n). split; [reflexivity|]. split; [lia|].
  assert (H2 : (n * (sum / n)) * 2 ^ 149 <= sum * 2 ^ 149)
    by (apply Z.mul_le_mono_nonneg_r; lia).
  lia.
Qed.

Lemma sum_units_nonneg (l : list DMatch) :
  Forall (fun m => nonneg32 (distance m) = true) l -> 0 <= sum_units l.
Proof.
  induction 1 as [|m l Hm _ IH]; cbn [sum_units fold_right]; [lia|].
  fold (sum_units l). pose proof (units_nonneg _ Hm). lia.
Qed.

Lemma sum_units_below (c : Z) (l : list DMatch) :
  Forall (fun m => 10 * units (distance m) < c) l ->
  10 * sum_units l + Z.of_nat (length l) <= Z.of_nat (length l) * c.
Proof.
  induction 1 as [|m l Hm _ IH]; cbn [sum_units fold_right length]; [lia|].
  fold (sum_units l). lia.
Qed.

Lemma filter_all {A : Type} (f : A -> bool) (l : list A) :
  length (List.filter f l) = length l -> Forall (fun a => f a = true) l.
Proof.
  induction l as [|a l IH]; cbn [List.filter]; [constructor|].
  pose proof (List.filter_length_le f l) as Hle.
  destruct (f a) eqn:E; cbn [length]; intros H.
  - constructor; [exact E | apply IH; lia].
  - lia.
Qed.

(** X10.  clusterKptMatchesWithROI, lines 151-158: on candidates with
    finite, non-negative dissimilarities whose sum is below 2^29 the run
    returns and never appends the whole candidate set: the threshold is at
    most 0.7 of the mean, so at least one candidate, one with the largest
    dissimilarity among them, is left out. *)
Theorem clusterKptMatchesWithROI_drops_a_candidate
    (boundingBox : BoundingBox) (kptsPrev kptsCurr : list KeyPoint)
    (kptMatches0 : list DMatch) :
  Forall (fun m => exists b, candidate boundingBox kptsCurr m = Done b) kptMatches0 ->
  candidates boundingBox kptsCurr kptMatches0 <> [] ->
  Forall (fun m => nonneg32 (distance m) = true)
         (candidates boundingBox kptsCurr kptMatches0) ->
  sum_units (candidates boundingBox kptsCurr kptMatches0) < 2 ^ 29 * 2 ^ 149 ->
  exists kept,
    clusterKptMatchesWithROI boundingBox kptsPrev kptsCurr kptMatches0
    = Done (mkBoundingBox (boxID boundingBox) (roi boundingBox) (lidarPoints boundingBox)
              (kptMatches boundingBox ++ kept)) /\
    (length kept < length (candidates boundingBox kptsCurr kptMatches0))%nat.
Proof.
  intros Hres Hne Hpos Hsum.
  destruct (clusterKptMatchesWithROI_run boundingBox kptsPrev kptsCurr kptMatches0
              Hres Hne Hpos Hsum) as (meanDist & Hrun & Hmean & Hle).
  remember (candidates boundingBox kptsCurr kptMatches0) as cands eqn:Ec. clear Ec.
  eexists. split; [exact Hrun|].
  pose proof (List.filter_length_le (below (d_mul c0_7 (d_of_Z meanDist))) cands) as Hlen.
  destruct (Nat.eq_dec (length (List.filter (below (d_mul c0_7 (d_of_Z meanDist))) cands))
                       (length cands)) as [Heq|Hneq]; [exfalso | lia].
  apply filter_all in Heq.
  assert (Hall : Forall (fun m => 10 * units (distance m) < 7 * meanDist * 2 ^ 149) cands).
  { rewrite List.Forall_forall in *. intros m Hm.
    apply below_threshold; [apply Hpos; exact Hm | exact Hmean | apply Heq; exact Hm]. }
  apply sum_units_below in Hall.
  pose proof (sum_units_nonneg _ Hpos) as Hnn.
  assert (Hn : (0 < length cands)%nat) by (destruct cands; [congruence | cbn; lia]).
  lia.
Qed.

Lemma clusterKptMatchesWithROI_drops_a_candidate_witness :
  exists kept,
    clusterKptMatchesWithROI left_box [] two_keypoints positive_matches
    = Done (mkBoundingBox (boxID left_box) (roi left_box) (lidarPoints left_box)
              (kptMatches left_box ++ kept)) /\
    (length kept < length (candidates left_box two_keypoints positive_matches))%nat.
Proof.
  assert (E : candidates left_box two_keypoints positive_matches = positive_matches)
    by (vm_compute; reflexivity).
  apply (clusterKptMatchesWithROI_drops_a_candidate left_box [] two_keypoints positive_matches).
  - constructor; [exists true; vm_compute; reflexivity|].
    constructor; [exists true; vm_compute; reflexivity|].
    constructor; [exists true; vm_compute; reflexivity|]. constructor.
  - rewrite E. discriminate.
  - rewrite E.
    constructor; [vm_compute; reflexivity|].
    constructor; [vm_compute; reflexivity|].
    constructor; [vm_compute; reflexivity|]. constructor.
  - rewrite E. vm_compute. reflexivity.
Defined.

(** ** clusterLidarWithROI: the number of points stored, and the depth 0 *)

Lemma total_points_push (p : LidarPoint) (j : nat) (boxes : list BoundingBox)
    (b : BoundingBox) :
  boxes !! j = Some b ->
  total_points (alter (push_lidarPoint p) j boxes) = S (total_points boxes).
Proof.
  unfold total_points.
  revert j; induction boxes as [|c boxes IH]; intros [|j] H; try discriminate H.
  - change (alter (push_lidarPoint p) 0%nat (c :: boxes)) with (push_lidarPoint p c :: boxes).
    cbn [map list_sum fold_right push_lidarPoint lidarPoints].
    rewrite length_app. cbn [length]. lia.
  - change (alter (push_lidarPoint p) (S j) (c :: boxes))
      with (c :: alter (push_lidarPoint p) j boxes).
    cbn [map list_sum fold_right]. fold (list_sum (map (fun b => length (lidarPoints b))
                                                       (alter (push_lidarPoint p) j boxes))).
    rewrite (IH j H). unfold list_sum. lia.
Qed.

Lemma cluster_point_total (shrinkFactor : float32) (P_rect_xx R_rect_xx RT : Mat)
    (boxes boxes' : list BoundingBox) (p : LidarPoint) :
  cluster_point shrinkFactor P_rect_xx R_rect_xx RT boxes p = Done boxes' ->
  total_points boxes'
  = (total_points boxes
     + if owned shrinkFactor P_rect_xx R_rect_xx RT (map roi boxes) p then 1 else 0)%nat.
Proof.
  intros H. pose proof (cluster_point_Done _ _ _ _ _ _ _ H) as (_ & Hb & _).
  unfold cluster_point, enclosingBoxes in H. unfold owned, exactly_one_contains.
  destruct (project P_rect_xx R_rect_xx RT p) as [pixel|]; [|discriminate H].
  cbn [bind] in H. rewrite (enclosing_from_positions _ _ _ _ Hb) in H. cbn [bind] in H.
  rewrite <- (length_positions _ 0).
  destruct (positions (shrunk_contains shrinkFactor pixel) 0 (map roi boxes))
    as [|j [|j' t]] eqn:E; injection H as <-; cbn [length Nat.eqb]; try lia.
  apply positions_singleton in E as [_ (a & Hj & _)].
  rewrite list_lookup_fmap in Hj.
  destruct (boxes !! j) as [b|] eqn:Hb'; [|discriminate Hj].
  rewrite (total_points_push p j boxes b Hb'). lia.
Qed.

Lemma clusterLidarWithROI_total_points
    (boundingBoxes boxes' : list BoundingBox) (points : list LidarPoint)
    (shrinkFactor : float32) (P_rect_xx R_rect_xx RT : Mat) :
  clusterLidarWithROI boundingBoxes points shrinkFactor P_rect_xx R_rect_xx RT
  = Done boxes' ->
  total_points boxes'
  = (total_points boundingBoxes
     + length (List.filter
                 (owned shrinkFactor P_rect_xx R_rect_xx RT (map roi boundingBoxes))
                 points))%nat.
Proof.
  unfold clusterLidarWithROI.
  revert boundingBoxes; induction points as [|p points IH]; intros boxes H.
  - cbn in H. injection H as <-. cbn. lia.
  - cbn [foldM] in H. apply bind_Done in H as (boxes1 & H1 & H).
    pose proof (cluster_point_Done _ _ _ _ _ _ _ H1) as (_ & _ & Hr).
    rewrite (IH boxes1 H), Hr, (cluster_point_total _ _ _ _ _ _ _ H1).
    cbn [List.filter].
    destruct (owned shrinkFactor P_rect_xx R_rect_xx RT (map roi boxes) p); cbn [length]; lia.
Qed.

Lemma concat_singletons {A : Type} (g : nat -> bool) (p : A) (l : list nat) :
  concat ((fun i => if g i then [p] else []) <$> l)
  = replicate (length (List.filter g l)) p.
Proof.
  induction l as [|a l IH]; [reflexivity|].
  rewrite fmap_cons. cbn [concat List.filter]. rewrite IH.
  destruct (g a); reflexivity.
Qed.

Lemma concat_fmap_app {A : Type} (f g : nat -> list A) (l : list nat) :
  Permutation (concat ((fun i => f i ++ g i) <$> l))
              (concat (f <$> l) ++ concat (g <$> l)).
Proof.
  induction l as [|a l IH]; [reflexivity|].
  rewrite !fmap_cons. cbn [concat]. rewrite IH.
  rewrite <- !app_assoc. apply Permutation_app_head.
  rewrite !app_assoc. apply Permutation_app_tail. apply Permutation_app_comm.
Qed.

Lemma filter_at_most_one (g : nat -> bool) (l : list nat) :
  List.NoDup l ->
  (forall i j, g i = true -> g j = true -> i = j) ->
  (length (List.filter g l) <= 1)%nat.
Proof.
  intros Hnd Hg. induction Hnd as [|a l Ha _ IH]; [cbn; lia|].
  cbn [List.filter]. destruct (g a) eqn:E; [|exact IH].
  rewrite filter_none; [cbn; lia|].
  apply List.Forall_forall. intros b Hb.
  destruct (g b) eqn:F; [|reflexivity].
  exfalso. apply Ha. now rewrite (Hg a b E F).
Qed.

(** A point is the sole property of one position among the Regions when it
    is owned, and of none when it is not. *)
Lemma sole_owner_count (shrinkFactor : float32) (P_rect_xx R_rect_xx RT : Mat)
    (rois : list Rect) (p : LidarPoint) :
  length (List.filter (fun i => sole_owner shrinkFactor P_rect_xx R_rect_xx RT rois i p)
                      (seq 0 (length rois)))
  = if owned shrinkFactor P_rect_xx R_rect_xx RT rois p then 1%nat else 0%nat.
Proof.
  destruct (owned shrinkFactor P_rect_xx R_rect_xx RT rois p) eqn:E.
  - assert (Hle := filter_at_most_one
                     (fun i => sole_owner shrinkFactor P_rect_xx R_rect_xx RT rois i p)
                     (seq 0 (length rois)) (List.seq_NoDup _ _)
                     (fun i j => sole_owner_unique _ _ _ _ _ p i j)).
    destruct (proj2 (sole_owner_exists shrinkFactor P_rect_xx R_rect_xx RT rois p))
      as [i Hi].
    { unfold owned in E. destruct (project P_rect_xx R_rect_xx RT p) as [pixel|];
        [eauto | discriminate]. }
    assert (Hlt : (i < length rois)%nat).
    { unfold sole_owner in Hi. destruct (project P_rect_xx R_rect_xx RT p); [|discriminate].
      apply andb_true_iff in Hi as [_ Hi].
      destruct (rois !! i) eqn:L; [|discriminate]. now apply lookup_lt_Some in L. }
    assert (Hin : In i (List.filter
                          (fun i => sole_owner shrinkFactor P_rect_xx R_rect_xx RT rois i p)
                          (seq 0 (length rois)))).
    { apply List.filter_In. split; [apply List.in_seq; lia | exact Hi]. }
    destruct (List.filter _ (seq 0 (length rois))) as [|a [|b t]];
      [contradiction | reflexivity | cbn in Hle; lia].
  - rewrite filter_none; [reflexivity|].
    apply List.Forall_forall. intros i _.
    destruct (sole_owner shrinkFactor P_rect_xx R_rect_xx RT rois i p) eqn:F; [|reflexivity].
    destruct (proj1 (sole_owner_exists _ _ _ _ _ p) (ex_intro _ i F)) as (pixel & Hp & H1).
    unfold owned in E. rewrite Hp in E. congruence.
Qed.

(** The points the Regions receive, taken together, are the owned points. *)
Lemma owned_points_partition (shrinkFactor : float32) (P_rect_xx R_rect_xx RT : Mat)
    (rois : list Rect) (points : list LidarPoint) :
  Permutation
    (concat ((fun i => owned_points shrinkFactor P_rect_xx R_rect_xx RT rois i points)
             <$> seq 0 (length rois)))
    (List.filter (owned shrinkFactor P_rect_xx R_rect_xx RT rois) points).
Proof.
  induction points as [|p points IH].
  - unfold owned_points. cbn [List.filter].
    generalize (seq 0 (length rois)). intros l.
    induction l as [|a l IHl]; [reflexivity | rewrite fmap_cons; exact IHl].
  - assert (E : (fun i => owned_points shrinkFactor P_rect_xx R_rect_xx RT rois i (p :: points))
                <$> seq 0 (length rois)
                = (fun i => (if sole_owner shrinkFactor P_rect_xx R_rect_xx RT rois i p
                             then [p] else [])
                            ++ owned_points shrinkFactor P_rect_xx R_rect_xx RT rois i points)
                  <$> seq 0 (length rois)).
    { apply list_fmap_ext. intros _ i _. unfold owned_points. cbn [List.filter].
      destruct (sole_owner shrinkFactor P_rect_xx R_rect_xx RT rois i p); reflexivity. }
    rewrite E, concat_fmap_app, IH, concat_singletons, sole_owner_count.
    cbn [List.filter].
    destruct (owned shrinkFactor P_rect_xx R_rect_xx RT rois p); reflexivity.
Qed.

(** X11.  clusterLidarWithROI, lines 21-60: a run that returns has stored
    every point whose pixel lies in the shrunk rectangle of exactly one
    Region once, in that Region, and no other point.  The points appended to
    the Regions, taken together, are a rearrangement of the points with such
    a pixel; the points appended to a Region are points of which it is the
    sole owner; and the number of points the Regions hold together has grown
    by the number of points with such a pixel. *)
Theorem clusterLidarWithROI_stores_each_owned_point_once
    (boundingBoxes boxes' : list BoundingBox) (points : list LidarPoint)
    (shrinkFactor : float32) (P_rect_xx R_rect_xx RT : Mat) :
  clusterLidarWithROI boundingBoxes points shrinkFactor P_rect_xx R_rect_xx RT
  = Done boxes' ->
  exists added : list (list LidarPoint),
    length added = length boundingBoxes /\
    (forall i b, boundingBoxes !! i = Some b ->
       exists b' a,
         boxes' !! i = Some b' /\ added !! i = Some a /\
         lidarPoints b' = lidarPoints b ++ a /\
         Forall (fun p => sole_owner shrinkFactor P_rect_xx R_rect_xx RT
                                     (map roi boundingBoxes) i p = true) a) /\
    Permutation (concat added)
                (List.filter
                   (owned shrinkFactor P_rect_xx R_rect_xx RT (map roi boundingBoxes))
                   points) /\
    total_points boxes'
    = (total_points boundingBoxes
       + length (List.filter
                   (owned shrinkFactor P_rect_xx R_rect_xx RT (map roi boundingBoxes))
                   points))%nat.
Proof.
  intros H.
  exists ((fun i => owned_points shrinkFactor P_rect_xx R_rect_xx RT
                                 (map roi boundingBoxes) i points)
          <$> seq 0 (length boundingBoxes)).
  split; [now rewrite length_fmap, length_seq|]. split; [|split].
  - intros i b Hi. pose proof (lookup_lt_Some _ _ _ Hi) as Hlt.
    assert (Hadd : ((fun i => owned_points shrinkFactor P_rect_xx R_rect_xx RT
                                           (map roi boundingBoxes) i points)
                    <$> seq 0 (length boundingBoxes)) !! i
                   = Some (owned_points shrinkFactor P_rect_xx R_rect_xx RT
                                        (map roi boundingBoxes) i points)).
    { rewrite list_lookup_fmap, lookup_seq_lt by exact Hlt. reflexivity. }
    assert (Hall : Forall (fun p => sole_owner shrinkFactor P_rect_xx R_rect_xx RT
                                               (map roi boundingBoxes) i p = true)
                          (owned_points shrinkFactor P_rect_xx R_rect_xx RT
                                        (map roi boundingBoxes) i points)).
    { apply List.Forall_forall. intros p Hp. apply List.filter_In in Hp. tauto. }
    unfold clusterLidarWithROI in H.
    destruct (cluster_loop_Done _ _ _ _ _ _ _ H) as [Hp [->|Hb]].
    + cbn [foldM] in H. injection H as <-. exists b, [].
      split; [exact Hi|]. split; [exact Hadd|]. split; [now rewrite app_nil_r | constructor].
    + destruct (cluster_loop_spec shrinkFactor P_rect_xx R_rect_xx RT
                  (map roi boundingBoxes) points Hp boundingBoxes eq_refl Hb)
        as (boxes1 & Hrun & _ & S1).
      rewrite H in Hrun. injection Hrun as <-.
      destruct (S1 i b Hi) as (b' & Hb' & _ & _ & _ & L).
      exists b', (owned_points shrinkFactor P_rect_xx R_rect_xx RT
                               (map roi boundingBoxes) i points).
      repeat (split; [assumption|]). exact Hall.
  - rewrite <- (length_map roi boundingBoxes). apply owned_points_partition.
  - exact (clusterLidarWithROI_total_points _ _ _ _ _ _ _ H).
Qed.

Lemma clusterLidarWithROI_stores_each_owned_point_once_witness :
  exists added : list (list LidarPoint),
    length added = length [left_box; right_box] /\
    (forall i b, [left_box; right_box] !! i = Some b ->
       exists b' a,
         [push_lidarPoint (lidar_over 10 50) left_box; right_box] !! i = Some b' /\
         added !! i = Some a /\
         lidarPoints b' = lidarPoints b ++ a /\
         Forall (fun p => sole_owner shrink_none projection34 identity4 identity4
                                     (map roi [left_box; right_box]) i p = true) a) /\
    Permutation (concat added)
                (List.filter
                   (owned shrink_none projection34 identity4 identity4
                          (map roi [left_box; right_box]))
                   [lidar_over 55 50; lidar_over 10 50]) /\
    total_points [push_lidarPoint (lidar_over 10 50) left_box; right_box]
    = (total_points [left_box; right_box]
       + length (List.filter
                   (owned shrink_none projection34 identity4 identity4
                          (map roi [left_box; right_box]))
                   [lidar_over 55 50; lidar_over 10 50]))%nat.
Proof.
  apply (clusterLidarWithROI_stores_each_owned_point_once
           [left_box; right_box] _ [lidar_over 55 50; lidar_over 10 50]
           shrink_none projection34 identity4 identity4).
  vm_compute. reflexivity.
Defined.

Lemma division_by_zero_does_not_convert (v : double) (s : bool) :
  to_int (d_div v (S754_zero s)) = Fault ConversionOverflow.
Proof. destruct v as [[|]|[|]| |[|] m e], s; reflexivity. Qed.

Lemma project_depth_zero (P_rect_xx R_rect_xx RT : Mat) (p : LidarPoint) (s : bool) :
  depth P_rect_xx R_rect_xx RT p = Done (S754_zero s) ->
  exists f, project P_rect_xx R_rect_xx RT p = Fault f.
Proof.
  unfold depth, project. intros H.
  destruct (Mat_at _ 0 0) as [y00|f]; [|eauto]. cbn [bind].
  rewrite H. cbn [bind]. rewrite division_by_zero_does_not_convert. eauto.
Qed.

(** X12.  clusterLidarWithROI, lines 30-33: the pixel coordinates are
    quotients by [Y.at<double>(0, 2)], converted to [int].  For a point whose
    divisor is zero the quotient is infinite or not a number and its
    conversion to [int] is undefined: a list of points that holds one such
    point leaves the run without a defined result. *)
Theorem clusterLidarWithROI_depth_zero
    (boundingBoxes : list BoundingBox) (points : list LidarPoint)
    (shrinkFactor : float32) (P_rect_xx R_rect_xx RT : Mat) (p : LidarPoint) (s : bool) :
  In p points ->
  depth P_rect_xx R_rect_xx RT p = Done (S754_zero s) ->
  exists f,
    clusterLidarWithROI boundingBoxes points shrinkFactor P_rect_xx R_rect_xx RT = Fault f.
Proof.
  intros Hin Hd.
  destruct (clusterLidarWithROI boundingBoxes points shrinkFactor P_rect_xx R_rect_xx RT)
    as [boxes'|f] eqn:E; [exfalso | eauto].
  unfold clusterLidarWithROI in E.
  apply cluster_loop_Done in E as [Hp _]. rewrite List.Forall_forall in Hp.
  destruct (Hp p Hin) as [pixel Hpix].
  destruct (project_depth_zero _ _ _ _ _ Hd) as [f Hf]. congruence.
Qed.

Lemma clusterLidarWithROI_depth_zero_witness :
  exists f,
    clusterLidarWithROI [left_box; right_box] [lidar_over 10 50; lidar_at 10 50]
                        shrink_none projection34 identity4 identity4 = Fault f.
Proof.
  apply (clusterLidarWithROI_depth_zero [left_box; right_box]
           [lidar_over 10 50; lidar_at 10 50] shrink_none projection34 identity4 identity4
           (lidar_at 10 50) false).
  - right. left. reflexivity.
  - vm_compute. reflexivity.
Defined.

(** ** matchBoundingBoxes: rows, columns and the boxes of a keypoint *)

Lemma last_cons {A : Type} (a d : A) (l : list A) : List.last (a :: l) d = List.last l a.
Proof.
  revert a d; induction l as [|b l IH]; intros a d; [reflexivity|].
  change (List.last (a :: b :: l) d) with (List.last (b :: l) d).
  rewrite (IH b d), (IH b a). reflexivity.
Qed.

Lemma box_loop_last (kpts : list KeyPoint) (idx : Z) (kpt : KeyPoint) (pixel : Point)
    (l : list BoundingBox) (id0 : Z) :
  index kpts idx = Done kpt ->
  keypoint_pixel_rounded kpt = Done pixel ->
  foldM (box_step kpts idx) l id0
  = Done (List.last (map boxID (List.filter (fun b => contains (roi b) pixel) l)) id0).
Proof.
  intros Hk Hp; revert id0; induction l as [|b l IH]; intros id0; [reflexivity|].
  cbn [foldM List.filter]. unfold box_step at 1. rewrite Hk. cbn [bind].
  rewrite Hp. cbn [bind]. rewrite IH.
  destruct (contains (roi b) pixel); [|reflexivity].
  cbn [map]. now rewrite last_cons.
Qed.

(** X13.  matchBoundingBoxes, lines 289-303: the loops over the Regions of a
    frame have no [break].  A keypoint that lies in the rectangles of several
    Regions is counted for the last of them in the order of the frame, and
    for none ([-1]) when no rectangle contains it. *)
Theorem matchBoundingBoxes_last_box_takes_the_keypoint
    (frame : DataFrame) (idx : Z) (kpt : KeyPoint) (pixel : Point) :
  index (keypoints frame) idx = Done kpt ->
  keypoint_pixel_rounded kpt = Done pixel ->
  box_of frame idx = Done (last_containing (boundingBoxes frame) pixel).
Proof.
  intros Hk Hp. unfold box_of, last_containing.
  exact (box_loop_last _ _ kpt pixel _ _ Hk Hp).
Qed.

Lemma matchBoundingBoxes_last_box_takes_the_keypoint_witness :
  box_of pair_frame 1 = Done (last_containing [left_box; right_box] (mkPoint 60 10)) /\
  last_containing [left_box; right_box] (mkPoint 60 10) = 1.
Proof.
  split; [|reflexivity].
  apply (matchBoundingBoxes_last_box_takes_the_keypoint pair_frame 1
           (keypoint_at 60 10) (mkPoint 60 10)).
  - reflexivity.
  - vm_compute. reflexivity.
Defined.

Lemma increment_Done (M M' : list (list Z)) (prevSize : nat) (currID prevID : Z) :
  increment M prevSize currID prevID = Done M' ->
  M' = alter (alter Z.succ (Z.to_nat prevID)) (Z.to_nat currID) M.
Proof. unfold increment. destruct (_ && _); congruence. Qed.

Lemma vote_step_Done (prevFrame currFrame : DataFrame) (M M' : list (list Z))
    (m : DMatch) (currSize : nat) :
  vote_step prevFrame currFrame M m = Done M' ->
  vote_matrix currSize (length (boundingBoxes prevFrame)) M ->
  vote_matrix currSize (length (boundingBoxes prevFrame)) M'.
Proof.
  unfold vote_step. intros H HM.
  apply bind_Done in H as (currID & _ & H). apply bind_Done in H as (prevID & _ & H).
  destruct (negb (currID =? -1) && negb (prevID =? -1)).
  - apply increment_Done in H. subst M'. now apply vote_matrix_increment.
  - now injection H as <-.
Qed.

Lemma vote_loop_Done (prevFrame currFrame : DataFrame) (l : list DMatch)
    (M M' : list (list Z)) (currSize : nat) :
  foldM (vote_step prevFrame currFrame) l M = Done M' ->
  vote_matrix currSize (length (boundingBoxes prevFrame)) M ->
  vote_matrix currSize (length (boundingBoxes prevFrame)) M'.
Proof.
  revert M; induction l as [|m l IH]; intros M H HM.
  - now injection H as <-.
  - cbn [foldM] in H. apply bind_Done in H as (M1 & H1 & H).
    apply (IH M1 H). exact (vote_step_Done _ _ _ _ _ _ H1 HM).
Qed.

(** X14.  matchBoundingBoxes, lines 312-322: a run that returns has written
    the keys [0 .. currSize - 1], the positions of the rows, and no other
    key: every other entry of [bbBestMatches] is as it was before the call.
    The value written for row [i] is the first column that holds the
    greatest count of the row, and 0 when the previous frame has no
    Region. *)
Theorem matchBoundingBoxes_writes_the_row_positions
    (matches : list DMatch) (bbBestMatches bbBestMatches' : gmap Z Z)
    (prevFrame currFrame : DataFrame) :
  matchBoundingBoxes matches bbBestMatches prevFrame currFrame = Done bbBestMatches' ->
  exists matchMatrix,
    votes matches prevFrame currFrame = Done matchMatrix /\
    vote_matrix (length (boundingBoxes currFrame)) (length (boundingBoxes prevFrame))
                matchMatrix /\
    (forall k, ~ (0 <= k < Z.of_nat (length (boundingBoxes currFrame))) ->
               bbBestMatches' !! k = bbBestMatches !! k) /\
    (forall i row, matchMatrix !! i = Some row ->
       exists best,
         bbBestMatches' !! Z.of_nat i = Some best /\
         ((boundingBoxes prevFrame = [] /\ best = 0) \/ first_maximum row best)).
Proof.
  intros H. unfold matchBoundingBoxes in H.
  apply bind_Done in H as (M & HM & H). injection H as <-.
  assert (VM : vote_matrix (length (boundingBoxes currFrame))
                           (length (boundingBoxes prevFrame)) M).
  { unfold votes in HM. apply (vote_loop_Done _ _ _ _ _ _ HM). apply vote_matrix_zero. }
  exists M. split; [exact HM|]. split; [exact VM|]. destruct VM as [L HR]. split.
  - intros k Hk. rewrite assign_rows_lookup, L.
    destruct ((0 <=? k) && (k <? 0 + Z.of_nat (length (boundingBoxes currFrame)))) eqn:E;
      [|reflexivity].
    apply andb_true_iff in E as [E1 E2]. compare_to_prop. lia.
  - intros i row Hi. pose proof (lookup_lt_Some _ _ _ Hi) as Hlt.
    rewrite assign_rows_lookup.
    replace ((0 <=? Z.of_nat i) && (Z.of_nat i <? 0 + Z.of_nat (length M))) with true
      by (symmetry; apply andb_true_iff; split; [apply Z.leb_le | apply Z.ltb_lt]; lia).
    rewrite Z.sub_0_r, Nat2Z.id, Hi. cbn [fmap option_fmap option_map].
    eexists. split; [reflexivity|].
    rewrite List.Forall_forall in HR.
    destruct (HR row) as [Lrow Hpos]; [apply list_elem_of_In, list_elem_of_lookup; eauto|].
    destruct (scan_row_first_maximum row Hpos) as [[-> E]|F].
    + left. split; [|exact E]. cbn in Lrow.
      destruct (boundingBoxes prevFrame); [reflexivity | discriminate Lrow].
    + right. exact F.
Qed.

Lemma matchBoundingBoxes_writes_the_row_positions_witness :
  exists bbBestMatches',
    matchBoundingBoxes pair_matches {[ 7 := 3 ]} pair_frame pair_frame = Done bbBestMatches' /\
    bbBestMatches' !! 7 = ({[ 7 := 3 ]} : gmap Z Z) !! 7.
Proof.
  destruct (matchBoundingBoxes pair_matches {[ 7 := 3 ]} pair_frame pair_frame)
    as [bb'|f] eqn:E; [|exfalso; vm_compute in E; discriminate E].
  exists bb'. split; [reflexivity|].
  destruct (matchBoundingBoxes_writes_the_row_positions _ _ _ _ _ E) as (M & _ & _ & Hk & _).
  apply Hk. cbn. lia.
Defined.

Lemma vote_step_length (prevFrame currFrame : DataFrame) (M M' : list (list Z))
    (m : DMatch) :
  vote_step prevFrame currFrame M m = Done M' -> length M' = length M.
Proof.
  unfold vote_step. intros H.
  apply bind_Done in H as (currID & _ & H). apply bind_Done in H as (prevID & _ & H).
  destruct (negb (currID =? -1) && negb (prevID =? -1)).
  - apply increment_Done in H. subst M'. apply length_alter.
  - now injection H as <-.
Qed.

Lemma vote_loop_outside (prevFrame currFrame : DataFrame) (l : list DMatch)
    (m : DMatch) (currID prevID : Z) (M : list (list Z)) :
  In m l ->
  box_of currFrame (trainIdx m) = Done currID ->
  box_of prevFrame (queryIdx m) = Done prevID ->
  currID <> -1 -> prevID <> -1 ->
  ~ (0 <= currID < Z.of_nat (length M) /\
     0 <= prevID < Z.of_nat (length (boundingBoxes prevFrame))) ->
  exists f, foldM (vote_step prevFrame currFrame) l M = Fault f.
Proof.
  intros Hin Hc Hp Nc Np Hout; revert M Hout; induction l as [|a l IH]; intros M Hout;
    [contradiction|].
  cbn [foldM].
  destruct (vote_step prevFrame currFrame M a) as [M1|f] eqn:E; cbn [bind]; [|eauto].
  destruct Hin as [->|Hin].
  - exfalso. unfold vote_step in E. rewrite Hc, Hp in E. cbn [bind] in E.
    apply Z.eqb_neq in Nc, Np. rewrite Nc, Np in E. cbn [negb andb] in E.
    unfold increment in E.
    destruct ((0 <=? currID) && (currID <? Z.of_nat (length M)) &&
              (0 <=? prevID) && (prevID <? Z.of_nat (length (boundingBoxes prevFrame))))
      eqn:B; [|discriminate E].
    apply andb_true_iff in B as [B B4]. apply andb_true_iff in B as [B B3].
    apply andb_true_iff in B as [B1 B2]. compare_to_prop. lia.
  - apply (IH Hin). rewrite (vote_step_length _ _ _ _ _ E). exact Hout.
Qed.

(** X15.  matchBoundingBoxes, lines 279-308: the vote is cast at
    [matchMatrix[currID][prevID]] with the identifiers of the Regions, while
    the array has [currSize] rows and [prevSize] columns.  One match whose
    keypoints lie in a current-frame Region and a previous-frame Region of
    which an identifier is not a row or column position writes outside the
    array: the run has no defined result. *)
Theorem matchBoundingBoxes_identifier_outside_the_matrix
    (matches : list DMatch) (bbBestMatches : gmap Z Z) (prevFrame currFrame : DataFrame)
    (m : DMatch) (currID prevID : Z) :
  In m matches ->
  box_of currFrame (trainIdx m) = Done currID ->
  box_of prevFrame (queryIdx m) = Done prevID ->
  currID <> -1 -> prevID <> -1 ->
  ~ (0 <= currID < Z.of_nat (length (boundingBoxes currFrame)) /\
     0 <= prevID < Z.of_nat (length (boundingBoxes prevFrame))) ->
  exists f, matchBoundingBoxes matches bbBestMatches prevFrame currFrame = Fault f.
Proof.
  intros Hin Hc Hp Nc Np Hout. unfold matchBoundingBoxes, votes.
  destruct (vote_loop_outside prevFrame currFrame matches m currID prevID
              (replicate (length (boundingBoxes currFrame))
                         (replicate (length (boundingBoxes prevFrame)) 0))
              Hin Hc Hp Nc Np) as [f Hf].
  - rewrite length_replicate. exact Hout.
  - rewrite Hf. eauto.
Qed.

Lemma matchBoundingBoxes_identifier_outside_the_matrix_witness :
  exists f,
    matchBoundingBoxes [match_of 0 0 1] ∅ lone_frame_with_keypoint lone_frame_with_keypoint
    = Fault f.
Proof.
  apply (matchBoundingBoxes_identifier_outside_the_matrix [match_of 0 0 1] ∅
           lone_frame_with_keypoint lone_frame_with_keypoint (match_of 0 0 1) 5 5).
  - left. reflexivity.
  - vm_compute. reflexivity.
  - vm_compute. reflexivity.
  - discriminate.
  - discriminate.
  - cbn. lia.
Defined.

(** ** show3DObjects *)

Lemma foldO_None {A S : Type} (body : S -> A -> option S) (l : list A) (a : A) (s : S) :
  In a l -> (forall s', body s' a = None) -> foldO body l s = None.
Proof.
  intros Hin Ha; revert s; induction l as [|b l IH]; intros s; [contradiction|].
  cbn [foldO]. destruct Hin as [->|Hin].
  - now rewrite Ha.
  - destruct (body s b) as [s'|]; [exact (IH Hin s') | reflexivity].
Qed.

Lemma foldO_cons {A S : Type} (body : S -> A -> option S) (a : A) (l : list A) (s : S) :
  foldO body (a :: l) s = body s a ≫= foldO body l.
Proof. reflexivity. Qed.

Lemma point_step_Some (worldSize imageSize : Size.t) (currColor : Scalar)
    (e e' : Extent.t) (calls calls' : list Call) (it2 : LidarPoint) :
  point_step worldSize imageSize currColor (e, calls) it2 = Some (e', calls') ->
  exists center,
    calls' = calls ++ [circle center 4 currColor (-1)] /\
    Extent.left e' <= Extent.left e /\ Extent.left e' <= px center <= Extent.right e' /\
    Extent.right e <= Extent.right e' /\
    Extent.top e' <= Extent.top e /\ Extent.top e' <= py center <= Extent.bottom e' /\
    Extent.bottom e <= Extent.bottom e'.
Proof.
  unfold point_step. cbn [fst snd]. intros H.
  apply bind_Some in H as (yImg & _ & H). apply bind_Some in H as (xImg & _ & H).
  injection H as <- <-. exists (mkPoint xImg yImg). cbn [px py Extent.top Extent.left
    Extent.bottom Extent.right]. split; [reflexivity|].
  destruct (Extent.top e <? yImg) eqn:E1, (Extent.left e <? xImg) eqn:E2,
           (Extent.bottom e >? yImg) eqn:E3, (Extent.right e >? xImg) eqn:E4;
    compare_to_prop; lia.
Qed.

(** The loop over the points of a box: one circle for every point, and the
    four bounds, which only move outwards, enclose every centre. *)
Lemma point_loop_spec (worldSize imageSize : Size.t) (currColor : Scalar)
    (points : list LidarPoint) (e e' : Extent.t) (calls calls' : list Call) :
  foldO (point_step worldSize imageSize currColor) points (e, calls) = Some (e', calls') ->
  exists circles,
    calls' = calls ++ circles /\
    length circles = length points /\
    Extent.left e' <= Extent.left e /\ Extent.right e <= Extent.right e' /\
    Extent.top e' <= Extent.top e /\ Extent.bottom e <= Extent.bottom e' /\
    Forall (circle_within currColor (mkPoint (Extent.left e') (Extent.top e'))
                          (mkPoint (Extent.right e') (Extent.bottom e'))) circles.
Proof.
  revert e calls; induction points as [|p points IH]; intros e calls H.
  - cbn [foldO] in H. injection H as <- <-. exists []. rewrite app_nil_r.
    repeat split; try lia. constructor.
  - cbn [foldO] in H. apply bind_Some in H as ([e1 calls1] & H1 & H).
    apply point_step_Some in H1 as (center & -> & L1 & Lc & R1 & T1 & Tc & B1).
    apply IH in H as (circles & -> & Hlen & L & R & T & B & Hin).
    exists (circle center 4 currColor (-1) :: circles).
    rewrite <- app_assoc. split; [reflexivity|].
    split; [cbn [length]; now rewrite Hlen|].
    repeat split; try lia.
    constructor; [|exact Hin].
    exists center. cbn [px py]. split; [reflexivity | lia].
Qed.

(** X16.  show3DObjects, lines 69-110: for every box the run draws one
    filled circle of radius 4 for each of its Lidar points, then one
    rectangle and two texts.  The rectangle encloses the centres of all the
    circles of the box; its left and top edges are never beyond 1e8 and its
    right and bottom edges are never below 0, the values the four bounds
    start from. *)
Theorem show3DObjects_rectangle_encloses_the_circles
    (worldSize imageSize : Size.t) (calls calls' : list Call) (it1 : BoundingBox) :
  draw_box worldSize imageSize calls it1 = Some calls' ->
  exists circles pt1 pt2 text1 org1 text2 org2,
    calls' = calls ++ circles ++
             [rectangle pt1 pt2 (scalar 0 0 0) 2;
              putText text1 org1 FONT_ITALIC 2 (random_color (boxID it1));
              putText text2 org2 FONT_ITALIC 2 (random_color (boxID it1))] /\
    length circles = length (lidarPoints it1) /\
    px pt1 <= 100000000 /\ py pt1 <= 100000000 /\ 0 <= px pt2 /\ 0 <= py pt2 /\
    Forall (circle_within (random_color (boxID it1)) pt1 pt2) circles.
Proof.
  unfold draw_box. intros H.
  apply bind_Some in H as ([e calls1] & Hloop & H).
  apply bind_Some in H as (org1 & _ & H). apply bind_Some in H as (org2 & _ & H).
  injection H as <-. cbn [fst snd].
  apply point_loop_spec in Hloop as (circles & -> & Hlen & L & R & T & B & Hin).
  cbn [extent0 Extent.left Extent.right Extent.top Extent.bottom] in L, R, T, B.
  eexists circles, _, _, _, org1, _, org2.
  rewrite <- app_assoc. split; [reflexivity|]. cbn [px py].
  repeat split; solve [assumption | lia].
Qed.

Lemma show3DObjects_rectangle_encloses_the_circles_witness :
  exists circles pt1 pt2 text1 org1 text2 org2,
    [create_image image_1000_2000 (scalar 255 255 255);
     circle (mkPoint 400 1000) 4 (random_color 3) (-1);
     circle (mkPoint 600 800) 4 (random_color 3) (-1);
     rectangle (mkPoint 400 800) (mkPoint 600 1000) (scalar 0 0 0) 2;
     putText (id_and_count 3 2) (mkPoint 150 1050) FONT_ITALIC 2 (random_color 3);
     putText (xmin_and_width (d_of_Z 10) (d_of_Z 2)) (mkPoint 150 1125) FONT_ITALIC 2
             (random_color 3)]
    = [create_image image_1000_2000 (scalar 255 255 255)] ++ circles ++
      [rectangle pt1 pt2 (scalar 0 0 0) 2;
       putText text1 org1 FONT_ITALIC 2 (random_color (boxID box_with_two_points));
       putText text2 org2 FONT_ITALIC 2 (random_color (boxID box_with_two_points))] /\
    length circles = length (lidarPoints box_with_two_points) /\
    px pt1 <= 100000000 /\ py pt1 <= 100000000 /\ 0 <= px pt2 /\ 0 <= py pt2 /\
    Forall (circle_within (random_color (boxID box_with_two_points)) pt1 pt2) circles.
Proof.
  apply (show3DObjects_rectangle_encloses_the_circles world_10_20 image_1000_2000
           [create_image image_1000_2000 (scalar 255 255 255)] _ box_with_two_points).
  vm_compute. reflexivity.
Defined.

(** X17.  show3DObjects, lines 76-109: for a box without Lidar points the
    four bounds keep their initial values.  The run still draws a rectangle,
    from (1e8, 1e8) to (0, 0), and the two texts, at the columns 99999752
    (the [float] nearest to 1e8 - 250) and the rows 50 and 125; the second
    text reports [xmin] 1e8 and the width -2e8. *)
Theorem show3DObjects_box_without_points
    (worldSize imageSize : Size.t) (calls : list Call) (it1 : BoundingBox) :
  lidarPoints it1 = [] ->
  draw_box worldSize imageSize calls it1
  = Some (calls ++
          [rectangle (mkPoint 100000000 100000000) (mkPoint 0 0) (scalar 0 0 0) 2;
           putText (id_and_count (boxID it1) 0) (mkPoint 99999752 50) FONT_ITALIC 2
                   (random_color (boxID it1));
           putText (xmin_and_width (d_of_Z 100000000) (d_of_Z (-200000000)))
                   (mkPoint 99999752 125) FONT_ITALIC 2 (random_color (boxID it1))]).
Proof.
  intros H. unfold draw_box. rewrite H. cbn [foldO mbind option_bind fst snd].
  replace (text_org (Extent.left extent0) (Extent.bottom extent0) 50)
    with (Some (mkPoint 99999752 50)) by (vm_compute; reflexivity).
  replace (text_org (Extent.left extent0) (Extent.bottom extent0) 125)
    with (Some (mkPoint 99999752 125)) by (vm_compute; reflexivity).
  cbn [mbind option_bind].
  replace (f2d (Extent.xwmin extent0)) with (d_of_Z 100000000) by (vm_compute; reflexivity).
  replace (f2d (f_sub (Extent.ywmax extent0) (Extent.ywmin extent0)))
    with (d_of_Z (-200000000)) by (vm_compute; reflexivity).
  reflexivity.
Qed.

Lemma show3DObjects_box_without_points_witness :
  draw_box world_10_20 image_1000_2000 [] left_box
  = Some ([] ++
          [rectangle (mkPoint 100000000 100000000) (mkPoint 0 0) (scalar 0 0 0) 2;
           putText (id_and_count (boxID left_box) 0) (mkPoint 99999752 50) FONT_ITALIC 2
                   (random_color (boxID left_box));
           putText (xmin_and_width (d_of_Z 100000000) (d_of_Z (-200000000)))
                   (mkPoint 99999752 125) FONT_ITALIC 2 (random_color (boxID left_box))]).
Proof.
  apply (show3DObjects_box_without_points world_10_20 image_1000_2000 [] left_box).
  reflexivity.
Defined.

Lemma quotient_by_zero_does_not_convert (v w : float32) :
  to_int (f_add (f_div v (S754_zero false)) w) = Fault ConversionOverflow.
Proof.
  destruct v as [[|]|[|]| |[|] m e], w as [[|]|[|]| |[|] m' e']; reflexivity.
Qed.

Lemma topview_y_zero_height (worldSize imageSize : Size.t) (xw : float32) :
  Size.height worldSize = 0 -> topview_y worldSize imageSize xw = None.
Proof.
  intros H. unfold topview_y. rewrite H.
  change (f_of_Z 0) with (S754_zero false).
  now rewrite quotient_by_zero_does_not_convert.
Qed.

(** X18.  show3DObjects, line 88: the row of a point is a quotient by
    [worldSize.height].  When that height is 0 the quotient is infinite or
    not a number for every point, and its conversion to [int] is undefined:
    a call with such a world size and a box that holds a Lidar point has no
    defined run. *)
Theorem show3DObjects_world_height_zero
    (boundingBoxes : list BoundingBox) (worldSize imageSize : Size.t) (bWait : bool)
    (it1 : BoundingBox) :
  Size.height worldSize = 0 ->
  In it1 boundingBoxes ->
  lidarPoints it1 <> [] ->
  show3DObjects boundingBoxes worldSize imageSize bWait = None.
Proof.
  intros H Hin Hne. unfold show3DObjects.
  rewrite (foldO_None _ _ it1 _ Hin); [reflexivity|].
  intros calls. unfold draw_box.
  destruct (lidarPoints it1) as [|p points]; [congruence|].
  rewrite foldO_cons. unfold point_step. rewrite (topview_y_zero_height _ _ _ H).
  reflexivity.
Qed.

Lemma show3DObjects_world_height_zero_witness :
  show3DObjects [left_box; box_with_two_points] (Size.mk 10 0) image_1000_2000 true = None.
Proof.
  apply (show3DObjects_world_height_zero [left_box; box_with_two_points]
           (Size.mk 10 0) image_1000_2000 true box_with_two_points).
  - reflexivity.
  - right. left. reflexivity.
  - discriminate.
Defined.

Lemma draw_box_circles (worldSize imageSize : Size.t) (calls calls' : list Call)
    (it1 : BoundingBox) :
  draw_box worldSize imageSize calls it1 = Some calls' ->
  exists drawn,
    calls' = calls ++ drawn /\
    length drawn = (length (lidarPoints it1) + 3)%nat /\
    length (List.filter is_circle drawn) = length (lidarPoints it1).
Proof.
  unfold draw_box. intros H.
  apply bind_Some in H as ([e calls1] & Hloop & H).
  apply bind_Some in H as (org1 & _ & H). apply bind_Some in H as (org2 & _ & H).
  injection H as <-. cbn [fst snd].
  apply point_loop_spec in Hloop as (circles & -> & Hlen & _ & _ & _ & _ & Hin).
  eexists. rewrite <- app_assoc. split; [reflexivity|]. split.
  - rewrite length_app, Hlen. cbn [length]. lia.
  - rewrite List.filter_app. cbn [List.filter is_circle]. rewrite app_nil_r.
    rewrite <- Hlen. clear Hlen. induction Hin as [|c circles (center & -> & _) _ IH];
      [reflexivity|]. cbn [List.filter is_circle length]. now rewrite IH.
Qed.

Lemma box_loop_circles (worldSize imageSize : Size.t) (boxes : list BoundingBox)
    (calls calls' : list Call) :
  foldO (draw_box worldSize imageSize) boxes calls = Some calls' ->
  exists drawn,
    calls' = calls ++ drawn /\
    length drawn = (total_points boxes + 3 * length boxes)%nat /\
    length (List.filter is_circle drawn) = total_points boxes.
Proof.
  revert calls; induction boxes as [|b boxes IH]; intros calls H.
  - cbn [foldO] in H. injection H as <-. exists []. now rewrite app_nil_r.
  - cbn [foldO] in H. apply bind_Some in H as (calls1 & H1 & H).
    apply draw_box_circles in H1 as (drawn1 & -> & L1 & C1).
    apply IH in H as (drawn & -> & L & C).
    exists (drawn1 ++ drawn). rewrite <- app_assoc. split; [reflexivity|].
    change (total_points (b :: boxes))
      with (length (lidarPoints b) + total_points boxes)%nat.
    rewrite List.filter_app, !length_app, L1, C1, L, C. cbn [length]. lia.
Qed.

Lemma marker_loop_spec (worldSize imageSize : Size.t) (indices : list Z)
    (lines : list Call) :
  mapM (marker worldSize imageSize) indices = Some lines ->
  length lines = length indices /\ Forall (is_marker imageSize) lines.
Proof.
  intros H. apply mapM_Some in H. induction H as [|i c indices lines Hc _ [IH1 IH2]].
  - split; [reflexivity | constructor].
  - split; [cbn [length]; now rewrite IH1|].
    constructor; [|exact IH2].
    unfold marker in Hc. apply bind_Some in Hc as (yImg & _ & Hc). injection Hc as <-.
    now exists yImg.
Qed.

(** X19.  show3DObjects, lines 67-129: the calls of a defined run, in order:
    the image is created; the boxes are drawn, with one circle for every
    Lidar point the boxes hold and three more calls for every box; then the
    marker lines, as many as [nMarkers] read as a [size_t], each a horizontal
    line across the image; then the window is opened and the image shown,
    and [waitKey(0)] is the last call when [bWait] is set and is not called
    otherwise. *)
Theorem show3DObjects_calls_in_order
    (boundingBoxes : list BoundingBox) (worldSize imageSize : Size.t) (bWait : bool)
    (calls : list Call) :
  show3DObjects boundingBoxes worldSize imageSize bWait = Some calls ->
  exists drawn lines n,
    calls = create_image imageSize (scalar 255 255 255) :: drawn ++ lines
            ++ [namedWindow 1; imshow] ++ (if bWait then [waitKey 0] else []) /\
    length drawn = (total_points boundingBoxes + 3 * length boundingBoxes)%nat /\
    length (List.filter is_circle drawn) = total_points boundingBoxes /\
    nMarkers worldSize = Some n /\
    length lines = Z.to_nat (to_unsigned_long n) /\
    Forall (is_marker imageSize) lines.
Proof.
  unfold show3DObjects. intros H.
  apply bind_Some in H as (calls1 & Hboxes & H).
  apply bind_Some in H as (n & Hn & H).
  apply bind_Some in H as (lines & Hlines & H). injection H as <-.
  apply box_loop_circles in Hboxes as (drawn & -> & L & C).
  apply marker_loop_spec in Hlines as [Ll Hm].
  exists drawn, lines, n. split; [reflexivity|].
  repeat split; try assumption.
  rewrite Ll. unfold marker_indices. now rewrite length_map, length_seq.
Qed.

Lemma show3DObjects_calls_in_order_witness :
  exists drawn lines n,
    [create_image image_1000_2000 (scalar 255 255 255);
     rectangle (mkPoint 100000000 100000000) (mkPoint 0 0) (scalar 0 0 0) 2;
     putText (id_and_count 0 0) (mkPoint 99999752 50) FONT_ITALIC 2 (random_color 0);
     putText (xmin_and_width (d_of_Z 100000000) (d_of_Z (-200000000)))
             (mkPoint 99999752 125) FONT_ITALIC 2 (random_color 0);
     line (mkPoint 0 2000) (mkPoint 1000 2000) (scalar 255 0 0);
     line (mkPoint 0 1000) (mkPoint 1000 1000) (scalar 255 0 0);
     namedWindow 1; imshow; waitKey 0]
    = create_image image_1000_2000 (scalar 255 255 255) :: drawn ++ lines
      ++ [namedWindow 1; imshow] ++ (if true then [waitKey 0] else []) /\
    length drawn = (total_points [left_box] + 3 * length [left_box])%nat /\
    length (List.filter is_circle drawn) = total_points [left_box] /\
    nMarkers (Size.mk 10 4) = Some n /\
    length lines = Z.to_nat (to_unsigned_long n) /\
    Forall (is_marker image_1000_2000) lines.
Proof.
  apply (show3DObjects_calls_in_order [left_box] (Size.mk 10 4) image_1000_2000 true).
  vm_compute. reflexivity.
Defined.

(** ** computeTTCLidar: one frame without a point in the lane, and one point
    in the lane of either frame *)

Lemma ttc_of_infinite_previous_distance (a b : double) :
  d_div a (d_sub (S754_infinity false) b) = NAN \/
  exists s, d_div a (d_sub (S754_infinity false) b) = S754_zero s.
Proof.
  destruct a as [[|]|[|]| |[|] ma ea], b as [[|]|[|]| |[|] mb eb];
    first [left; reflexivity | right; eexists; reflexivity].
Qed.

(** X20.  computeTTCLidar, lines 236-256: when both frames have points but
    no point of the previous frame lies in the ego lane, [minXPrev] is
    [1e9 / 0 / 0], which is infinite, and TTC is a zero or not-a-number,
    whatever the points of the current frame and the frame rate are. *)
Theorem computeTTCLidar_no_previous_point_in_lane
    (lidarPointsPrev lidarPointsCurr : list LidarPoint) (frameRate : double) :
  lidarPointsPrev <> [] ->
  lidarPointsCurr <> [] ->
  Forall (fun p => in_lane p = false) lidarPointsPrev ->
  computeTTCLidar lidarPointsPrev lidarPointsCurr frameRate = NAN \/
  exists s, computeTTCLidar lidarPointsPrev lidarPointsCurr frameRate = S754_zero s.
Proof.
  intros Hp Hc Fp. unfold computeTTCLidar.
  rewrite (length_eqb_0 _ Hp), (length_eqb_0 _ Hc). cbn [orb].
  rewrite (lane_loop_no_point lidarPointsPrev) by exact Fp. cbn [fst snd].
  replace (d_div (d_div (d_of_Z 1000000000) zero) zero) with (S754_infinity false)
    by (vm_compute; reflexivity).
  apply ttc_of_infinite_previous_distance.
Qed.

Lemma computeTTCLidar_no_previous_point_in_lane_witness :
  computeTTCLidar [lidar_at 10 3] [lidar_at 8 0] (d_of_Z 10) = NAN \/
  exists s, computeTTCLidar [lidar_at 10 3] [lidar_at 8 0] (d_of_Z 10) = S754_zero s.
Proof.
  apply (computeTTCLidar_no_previous_point_in_lane [lidar_at 10 3] [lidar_at 8 0] (d_of_Z 10)).
  - discriminate.
  - discriminate.
  - constructor; [vm_compute; reflexivity | constructor].
Defined.

Lemma div_eucl_mul (a b : Z) : 0 < b -> Z.div_eucl (a * b) b = (a, 0).
Proof.
  intros Hb. pose proof (Z.div_mul a b ltac:(lia)) as Hq.
  pose proof (Z.mod_mul a b ltac:(lia)) as Hr.
  unfold Z.div, Z.modulo in Hq, Hr.
  destruct (Z.div_eucl (a * b) b) as [q r]. now subst.
Qed.

(** The quotient of a normal binary64 number by 1 is the number. *)
Lemma d_div_one (v : double) : normal64 v = true -> d_div v one = v.
Proof.
  destruct v as [| | |s m e]; try discriminate. cbn [normal64]. intros H.
  apply andb_true_iff in H as [H He2]. apply andb_true_iff in H as [Hd He1].
  compare_to_prop.
  change one with (S754_finite false 4503599627370496 (-52)).
  unfold d_div, SFdiv, SFdiv_core_binary.
  change (Zdigits2 (Zpos m)) with (Zpos (digits2_pos m)). rewrite Hd.
  change (Zdigits2 4503599627370496) with 53.
  unfold fexp. change (emin 53 1024) with (-1074).
  replace (xorb s false) with s by (destruct s; reflexivity).
  destruct (Z.eq_dec e (-1074)) as [->|Hne].
  - change (Z.min (Z.max (53 + -1074 - (53 + -52) - 53) (-1074)) (-1074 - -52)) with (-1074).
    change (-1074 - -52 - -1074) with 52.
    rewrite Z.shiftl_mul_pow2 by lia.
    change (2 ^ 52) with 4503599627370496. change IntDef.Z.div_eucl with Z.div_eucl.
    rewrite (div_eucl_mul (Zpos m) 4503599627370496) by lia.
    change (new_location 4503599627370496 0) with loc_Exact.
    destruct (binary_round_aux_pos 53 1024 eq_refl s m (-1074) 0 (Zpos m))
      as (m' & e' & v & E & _ & Hv & He & Hm & Hd');
      [unfold emin; lia | lia | lia | now rewrite Z.div_1_r |].
    rewrite (Hv (Z.mod_1_r _)) in Hm. rewrite E.
    assert (e' = -1074).
    { destruct (Z.eq_dec (e' - (-1074 + 0)) 0) as [?|N]; [lia|].
      replace (e' - (-1074 + 0)) with 1 in Hm by lia.
      assert (m = (m'~0)%positive) by lia. subst m. cbn [digits2_pos] in Hd. lia. }
    subst e'. replace (-1074 - (-1074 + 0)) with 0 in Hm by lia.
    assert (m' = m) by lia. subst m'. reflexivity.
  - replace (Z.min (Z.max (53 + e - (53 + -52) - 53) (-1074)) (e - -52)) with (e - 1) by lia.
    replace (e - -52 - (e - 1)) with 53 by lia.
    rewrite Z.shiftl_mul_pow2 by lia.
    replace (Zpos m * 2 ^ 53) with (Zpos (m~0) * 4503599627370496) by lia.
    change IntDef.Z.div_eucl with Z.div_eucl.
    rewrite (div_eucl_mul (Zpos (m~0)) 4503599627370496) by lia.
    change (new_location 4503599627370496 0) with loc_Exact.
    destruct (binary_round_aux_pos 53 1024 eq_refl s (m~0) (e - 1) 1 (Zpos m))
      as (m' & e' & v & E & _ & Hv & He & Hm & Hd');
      [unfold emin; lia | lia | cbn [digits2_pos]; lia
      | rewrite (Pos2Z.inj_xO m), Z.mul_comm; symmetry; apply Z.div_mul; lia |].
    assert (Hmod : Zpos (m~0) mod 2 ^ 1 = 0)
      by (rewrite (Pos2Z.inj_xO m), Z.mul_comm; apply Z.mod_mul; lia).
    rewrite (Hv Hmod) in Hm. rewrite E.
    assert (e' = e).
    { destruct (Z.eq_dec (e' - (e - 1 + 1)) 0) as [?|N]; [lia|].
      replace (e' - (e - 1 + 1)) with 1 in Hm by lia.
      assert (m = (m'~0)%positive) by lia. subst m. cbn [digits2_pos] in Hd. lia. }
    subst e'. replace (e - (e - 1 + 1)) with 0 in Hm by lia.
    assert (m' = m) by lia. subst m'.
    replace (e <=? 1024 - 53) with true by (symmetry; apply Z.leb_le; lia). reflexivity.
Qed.

Lemma lane_loop_single (l : list LidarPoint) (p : LidarPoint) :
  List.filter in_lane l = [p] ->
  fgt (d_of_Z 1000000000) (x p) = true ->
  fold_left lane_step l (d_of_Z 1000000000, zero) = (x p, one).
Proof.
  intros Hf Hx. rewrite lane_loop_filter, Hf. cbn [fold_left]. unfold lane_step.
  assert (Hin : in_lane p = true).
  { assert (H : In p (List.filter in_lane l)) by (rewrite Hf; left; reflexivity).
    apply List.filter_In in H. tauto. }
  rewrite Hin. cbn [fst snd]. rewrite Hx. reflexivity.
Qed.

(** X21.  computeTTCLidar, lines 236-256: when either frame has exactly one
    point in the ego lane, at a distance that is a normal binary64 number
    below 1e9, the two counts are 1, the divisions by the counts change
    nothing, and TTC is the value of
    [currDistance * (1 / frameRate) / (prevDistance - currDistance)] on the
    distances of the two points. *)
Theorem computeTTCLidar_one_point_in_lane_each
    (lidarPointsPrev lidarPointsCurr : list LidarPoint) (frameRate : double)
    (pPrev pCurr : LidarPoint) :
  List.filter in_lane lidarPointsPrev = [pPrev] ->
  List.filter in_lane lidarPointsCurr = [pCurr] ->
  normal64 (x pPrev) = true -> normal64 (x pCurr) = true ->
  fgt (d_of_Z 1000000000) (x pPrev) = true ->
  fgt (d_of_Z 1000000000) (x pCurr) = true ->
  computeTTCLidar lidarPointsPrev lidarPointsCurr frameRate
  = ttc_formula (x pPrev) (x pCurr) frameRate.
Proof.
  intros Fp Fc Np Nc Xp Xc. unfold computeTTCLidar.
  assert (Hp : lidarPointsPrev <> []) by (intros ->; discriminate Fp).
  assert (Hc : lidarPointsCurr <> []) by (intros ->; discriminate Fc).
  rewrite (length_eqb_0 _ Hp), (length_eqb_0 _ Hc). cbn [orb].
  rewrite (lane_loop_single _ _ Fp Xp), (lane_loop_single _ _ Fc Xc). cbn [fst snd].
  rewrite !(d_div_one _ Np), (d_div_one _ Nc). reflexivity.
Qed.

Lemma computeTTCLidar_one_point_in_lane_each_witness :
  computeTTCLidar [lidar_at 10 0; lidar_at 5 3] [lidar_at 1 (-7); lidar_at 8 0] (d_of_Z 10)
  = ttc_formula (x (lidar_at 10 0)) (x (lidar_at 8 0)) (d_of_Z 10).
Proof.
  apply (computeTTCLidar_one_point_in_lane_each
           [lidar_at 10 0; lidar_at 5 3] [lidar_at 1 (-7); lidar_at 8 0] (d_of_Z 10)
           (lidar_at 10 0) (lidar_at 8 0)); vm_compute; reflexivity.
Defined.

Lemma d_sub_diag (s : bool) (m : positive) (e : Z) :
  d_sub (S754_finite s m e) (S754_finite s m e) = S754_zero false.
Proof. unfold d_sub, SFsub. now rewrite Z.sub_diag. Qed.

Lemma quotient_by_zero_is_not_finite (a : double) :
  d_div a (S754_zero false) = NAN \/ exists s, d_div a (S754_zero false) = S754_infinity s.
Proof.
  destruct a as [[|]|[|]| |[|] ma ea];
    first [left; reflexivity | right; eexists; reflexivity].
Qed.

(** X22.  computeTTCLidar, line 256: when either frame has exactly one point
    in the ego lane and the two points are at the same distance (a normal
    binary64 number below 1e9), the divisor [minXPrev - minXCurr] is zero and
    TTC is infinite or not-a-number: no finite time is stored. *)
Theorem computeTTCLidar_same_distance
    (lidarPointsPrev lidarPointsCurr : list LidarPoint) (frameRate : double)
    (pPrev pCurr : LidarPoint) :
  List.filter in_lane lidarPointsPrev = [pPrev] ->
  List.filter in_lane lidarPointsCurr = [pCurr] ->
  x pPrev = x pCurr ->
  normal64 (x pCurr) = true ->
  fgt (d_of_Z 1000000000) (x pCurr) = true ->
  computeTTCLidar lidarPointsPrev lidarPointsCurr frameRate = NAN \/
  exists s, computeTTCLidar lidarPointsPrev lidarPointsCurr frameRate = S754_infinity s.
Proof.
  intros Fp Fc E Nc Xc. unfold computeTTCLidar.
  assert (Hp : lidarPointsPrev <> []) by (intros ->; discriminate Fp).
  assert (Hc : lidarPointsCurr <> []) by (intros ->; discriminate Fc).
  rewrite (length_eqb_0 _ Hp), (length_eqb_0 _ Hc). cbn [orb].
  rewrite (lane_loop_single _ _ Fc Xc), (lane_loop_single lidarPointsPrev pPrev Fp)
    by (rewrite E; exact Xc).
  cbn [fst snd]. rewrite E, !(d_div_one _ Nc).
  destruct (x pCurr) as [| | |s m e]; try discriminate Nc.
  rewrite d_sub_diag. apply quotient_by_zero_is_not_finite.
Qed.

Lemma computeTTCLidar_same_distance_witness :
  computeTTCLidar [lidar_at 8 1; lidar_at 5 3] [lidar_at 1 (-7); lidar_at 8 0] (d_of_Z 10)
  = NAN \/
  exists s,
    computeTTCLidar [lidar_at 8 1; lidar_at 5 3] [lidar_at 1 (-7); lidar_at 8 0] (d_of_Z 10)
    = S754_infinity s.
Proof.
  apply (computeTTCLidar_same_distance
           [lidar_at 8 1; lidar_at 5 3] [lidar_at 1 (-7); lidar_at 8 0] (d_of_Z 10)
           (lidar_at 8 1) (lidar_at 8 0)); vm_compute; reflexivity.
Defined.

(** ** matchBoundingBoxes: no matches *)

(** X23.  matchBoundingBoxes, lines 279-322: without any match the vote
    matrix is zero and the run maps every key [0 .. currSize - 1] to 0, also
    when the previous frame has no Region that 0 could stand for. *)
Theorem matchBoundingBoxes_without_matches
    (bbBestMatches : gmap Z Z) (prevFrame currFrame : DataFrame) :
  exists bbBestMatches',
    matchBoundingBoxes [] bbBestMatches prevFrame currFrame = Done bbBestMatches' /\
    forall k, 0 <= k < Z.of_nat (length (boundingBoxes currFrame)) ->
              bbBestMatches' !! k = Some 0.
Proof.
  eexists. split; [reflexivity|]. intros k Hk.
  rewrite assign_rows_lookup, length_replicate.
  replace ((0 <=? k) && (k <? 0 + Z.of_nat (length (boundingBoxes currFrame)))) with true
    by (symmetry; apply andb_true_iff; split; [apply Z.leb_le | apply Z.ltb_lt]; lia).
  rewrite lookup_replicate_2 by lia. cbn [fmap option_fmap option_map]. f_equal.
  apply scan_row_all_zero. apply List.Forall_forall. intros c Hc.
  apply list_elem_of_In, elem_of_replicate in Hc. tauto.
Qed.

(** ** clusterLidarWithROI: the shrink factor 0 *)

Lemma f_of_Z_pos (p : positive) :
  Zpos p < 2 ^ 24 ->
  exists m' k,
    f_of_Z (Zpos p) = S754_finite false m' (- k) /\
    0 <= k <= 23 /\ Zpos m' = Zpos p * 2 ^ k /\ Zpos (digits2_pos m') = 24.
Proof.
  intros H. pose proof (digits2_pos_upper p 24 ltac:(lia) H) as D.
  assert (1 <= Zpos (digits2_pos p)) by lia.
  destruct (binary_round_exact 24 128 eq_refl false p 0) as (m' & E & Hm & Dm);
    [lia | unfold emin; lia | lia |].
  exists m', (24 - Zpos (digits2_pos p)).
  unfold f_of_Z. cbn [binary_normalize]. rewrite E.
  split; [f_equal; lia|]. split; [lia|]. split; assumption.
Qed.

(** The product of a binary32 number of 24 bits with 1 is the number. *)
Lemma f_mul_one (m : positive) (e : Z) :
  Zpos (digits2_pos m) = 24 -> -126 <= e <= 104 ->
  f_mul (S754_finite false m e) (S754_finite false 8388608 (-23)) = S754_finite false m e.
Proof.
  intros Hd He. unfold f_mul, SFmul. cbn [xorb].
  assert (HM : Zpos (m * 8388608) = Zpos m * 2 ^ 23) by (rewrite Pos2Z.inj_mul; reflexivity).
  pose proof (digits2_pos_shift m (m * 8388608) 23 ltac:(lia) HM) as DM.
  destruct (binary_round_aux_pos 24 128 eq_refl false (m * 8388608) (e + -23) 23 (Zpos m))
    as (m' & e' & v & E & _ & Hv & He' & Hm & Hd');
    [unfold emin; lia | lia | lia | rewrite HM; symmetry; apply Z.div_mul; lia |].
  assert (Hmod : Zpos (m * 8388608) mod 2 ^ 23 = 0) by (rewrite HM; apply Z.mod_mul; lia).
  rewrite (Hv Hmod) in Hm. rewrite E.
  assert (e' = e).
  { destruct (Z.eq_dec (e' - (e + -23 + 23)) 0) as [?|N]; [lia|].
    replace (e' - (e + -23 + 23)) with 1 in Hm by lia.
    assert (m = (m'~0)%positive) by lia. subst m. cbn [digits2_pos] in Hd. lia. }
  subst e'. replace (e - (e + -23 + 23)) with 0 in Hm by lia.
  assert (m' = m) by lia. subst m'.
  replace (e <=? 128 - 24) with true by (symmetry; apply Z.leb_le; lia). reflexivity.
Qed.

(** Lines 42-43 for the shrink factor 0: [roi.width * (1 - 0)]. *)
Lemma unshrunk_extent (w : Z) :
  0 <= w < 2 ^ 24 ->
  to_int (f_mul (f_of_Z w) (f_sub (f_of_Z 1) (S754_zero false))) = Done w.
Proof.
  intros Hw. change (f_sub (f_of_Z 1) (S754_zero false)) with (S754_finite false 8388608 (-23)).
  destruct w as [|p|p]; [reflexivity | | lia].
  destruct (f_of_Z_pos p) as (m' & k & -> & Hk & Hm & Hd); [lia|].
  rewrite f_mul_one by lia.
  unfold to_int. cbn [Ztrunc cond_Zopp].
  rewrite Z.shiftl_div_pow2, Z.opp_involutive, Hm, Z.div_mul
    by (try apply Z.pow_nonzero; lia).
  unfold in_int_range, INT_MIN, INT_MAX.
  replace (- 2 ^ 31 <=? Zpos p) with true by (symmetry; apply Z.leb_le; lia).
  replace (Zpos p <=? 2 ^ 31 - 1) with true by (symmetry; apply Z.leb_le; lia).
  reflexivity.
Qed.

(** Lines 40-41 for the shrink factor 0: [roi.x + 0 * roi.width / 2.0]. *)
Lemma unshrunk_corner (c w : Z) :
  0 <= c < 2 ^ 29 -> 0 <= w < 2 ^ 24 ->
  to_int (d_add (d_of_Z c) (d_div (f2d (f_mul (S754_zero false) (f_of_Z w))) two)) = Done c.
Proof.
  intros Hc Hw.
  assert (E : f_mul (S754_zero false) (f_of_Z w) = S754_zero false).
  { destruct w as [|p|p]; [reflexivity | | lia].
    destruct (f_of_Z_pos p) as (m' & k & -> & _); [lia | reflexivity]. }
  rewrite E. change (d_div (f2d (S754_zero false)) two) with (S754_zero false).
  destruct c as [|p|p]; [reflexivity | | lia].
  rewrite <- (to_int_of_Z p) by lia. f_equal.
  destruct (d_of_Z_pos p) as (m' & -> & _); [lia | reflexivity].
Qed.

(** X24.  clusterLidarWithROI, lines 39-43: for the shrink factor 0 the
    shrunk rectangle of a box is its rectangle, for every rectangle with a
    corner in [0, 2^29) and a width and a height in [0, 2^24), where the
    conversions between [int] and [float] are exact. *)
Theorem smallerBox_of_shrinkFactor_zero (b : Rect) :
  0 <= rx b < 2 ^ 29 -> 0 <= ry b < 2 ^ 29 ->
  0 <= width b < 2 ^ 24 -> 0 <= height b < 2 ^ 24 ->
  smallerBox (S754_zero false) b = Done b.
Proof.
  intros Hx Hy Hw Hh. unfold smallerBox.
  rewrite (unshrunk_corner _ _ Hx Hw). cbn [bind].
  rewrite (unshrunk_corner _ _ Hy Hh). cbn [bind].
  rewrite (unshrunk_extent _ Hw). cbn [bind].
  rewrite (unshrunk_extent _ Hh). cbn [bind].
  destruct b; reflexivity.
Qed.

Lemma smallerBox_of_shrinkFactor_zero_witness :
  smallerBox (S754_zero false) (mkRect 50 0 100 100) = Done (mkRect 50 0 100 100).
Proof.
  apply (smallerBox_of_shrinkFactor_zero (mkRect 50 0 100 100)); cbn; lia.
Defined.

(** ** computeTTCCamera: two matches *)

(** X25.  computeTTCCamera, lines 168-213: on two matches whose keypoints
    exist, the only pair the loops visit is the first match with the second.
    When the pair passes the test of line 188 its distance ratio is the
    median and TTC is [-(1 / frameRate) / (1 - distCurr / distPrev)];
    otherwise TTC is not-a-number. *)
Theorem computeTTCCamera_two_matches
    (kptsPrev kptsCurr : list KeyPoint) (it1 it2 : DMatch) (frameRate : double)
    (kpOuterCurr kpOuterPrev kpInnerCurr kpInnerPrev : KeyPoint) :
  at_ kptsCurr (trainIdx it1) = Done kpOuterCurr ->
  at_ kptsPrev (queryIdx it1) = Done kpOuterPrev ->
  at_ kptsCurr (trainIdx it2) = Done kpInnerCurr ->
  at_ kptsPrev (queryIdx it2) = Done kpInnerPrev ->
  computeTTCCamera kptsPrev kptsCurr [it1; it2] frameRate
  = Done (if survives kpOuterCurr kpOuterPrev kpInnerCurr kpInnerPrev
          then d_div (d_neg (d_div one frameRate))
                     (d_sub one (d_div (norm_diff (pt kpOuterCurr) (pt kpInnerCurr))
                                       (norm_diff (pt kpOuterPrev) (pt kpInnerPrev))))
          else NAN).
Proof.
  intros H1 H2 H3 H4. unfold computeTTCCamera. cbn [outer_loop tail foldM].
  rewrite H1, H2. cbn [bind]. unfold inner_step. rewrite H3, H4. cbn [bind].
  unfold survives. destruct (_ && _); reflexivity.
Qed.

Lemma computeTTCCamera_two_matches_witness :
  computeTTCCamera line_prev line_curr [match_of 0 0 1; match_of 1 1 1] (d_of_Z 10)
  = Done (if survives (keypoint_at 0 0) (keypoint_at 0 0) (keypoint_at 200 0) (keypoint_at 100 0)
          then d_div (d_neg (d_div one (d_of_Z 10)))
                     (d_sub one (d_div (norm_diff (pt (keypoint_at 0 0)) (pt (keypoint_at 200 0)))
                                       (norm_diff (pt (keypoint_at 0 0)) (pt (keypoint_at 100 0)))))
          else NAN).
Proof.
  apply (computeTTCCamera_two_matches line_prev line_curr (match_of 0 0 1) (match_of 1 1 1)
           (d_of_Z 10) (keypoint_at 0 0) (keypoint_at 0 0) (keypoint_at 200 0) (keypoint_at 100 0));
    reflexivity.
Defined.

(** ** Running an operation again on the same inputs *)

(** C9: region clustering and region association give identical outputs
    when they are run twice on the same, unmutated inputs.  For
    [clusterLidarWithROI] the Regions of the second run are those the first
    run started from: the run returns the Regions the first run returned.
    More than that, the points a run appends to a Region are fixed by the
    rectangles, the points, the shrink factor and the matrices: on Regions
    with the same rectangles, whatever points they hold, the run appends the
    same points.  For [matchBoundingBoxes] the entries a run writes are fixed
    by the matches and the frames: started on any map it writes the same
    values for the keys [0 .. currSize - 1], and started on the map the first
    run returned it returns that map. *)
Theorem idempotent_on_unmutated_inputs :
  (forall (boundingBoxes boxes1 : list BoundingBox) (points : list LidarPoint)
          (shrinkFactor : float32) (P_rect_xx R_rect_xx RT : Mat),
      clusterLidarWithROI boundingBoxes points shrinkFactor P_rect_xx R_rect_xx RT
      = Done boxes1 ->
      forall boxesB : list BoundingBox,
        map roi boxesB = map roi boundingBoxes ->
        exists boxesB1,
          clusterLidarWithROI boxesB points shrinkFactor P_rect_xx R_rect_xx RT
          = Done boxesB1 /\
          (boxesB = boundingBoxes -> boxesB1 = boxes1) /\
          forall i b bB, boundingBoxes !! i = Some b -> boxesB !! i = Some bB ->
            exists b1 bB1 added,
              boxes1 !! i = Some b1 /\ boxesB1 !! i = Some bB1 /\
              lidarPoints b1 = lidarPoints b ++ added /\
              lidarPoints bB1 = lidarPoints bB ++ added) /\
  (forall (matches : list DMatch) (bbBestMatches bb1 : gmap Z Z)
          (prevFrame currFrame : DataFrame),
      matchBoundingBoxes matches bbBestMatches prevFrame currFrame = Done bb1 ->
      matchBoundingBoxes matches bb1 prevFrame currFrame = Done bb1 /\
      forall bbB : gmap Z Z,
        exists bbB1,
          matchBoundingBoxes matches bbB prevFrame currFrame = Done bbB1 /\
          (bbB = bbBestMatches -> bbB1 = bb1) /\
          forall k, 0 <= k < Z.of_nat (length (boundingBoxes currFrame)) ->
                    is_Some (bb1 !! k) /\ bbB1 !! k = bb1 !! k).
Proof.
  split.
  - intros boundingBoxes boxes1 points shrinkFactor P_rect_xx R_rect_xx RT H boxesB Hr.
    unfold clusterLidarWithROI in *.
    destruct (cluster_loop_Done _ _ _ _ _ _ _ H) as [Hp [->|Hb]].
    + cbn [foldM] in *. injection H as <-. exists boxesB.
      split; [reflexivity|]. split; [tauto|].
      intros i b bB Hi HiB. exists b, bB, []. now rewrite !app_nil_r.
    + destruct (cluster_loop_spec shrinkFactor P_rect_xx R_rect_xx RT
                  (map roi boundingBoxes) points Hp boundingBoxes eq_refl Hb)
        as (boxes1' & Hrun & _ & S1).
      rewrite H in Hrun. injection Hrun as <-.
      destruct (cluster_loop_spec shrinkFactor P_rect_xx R_rect_xx RT
                  (map roi boundingBoxes) points Hp boxesB Hr
                  (Forall_shrinkable_rois _ _ _ Hr Hb))
        as (boxesB1 & HrunB & _ & S2).
      exists boxesB1. split; [exact HrunB|]. split.
      * intros ->. congruence.
      * intros i b bB Hi HiB.
        destruct (S1 i b Hi) as (b1 & Hb1 & _ & _ & _ & L1).
        destruct (S2 i bB HiB) as (bB1 & HbB1 & _ & _ & _ & L2).
        exists b1, bB1, (owned_points shrinkFactor P_rect_xx R_rect_xx RT
                                      (map roi boundingBoxes) i points).
        auto.
  - intros matches bb bb1 prevFrame currFrame H. unfold matchBoundingBoxes in *.
    destruct (votes matches prevFrame currFrame) as [M|] eqn:HM; [|discriminate].
    cbn [bind] in *. injection H as <-.
    assert (L : length M = length (boundingBoxes currFrame)).
    { unfold votes in HM.
      apply (vote_loop_Done _ _ _ _ _ (length (boundingBoxes currFrame))) in HM;
        [exact (proj1 HM) | apply vote_matrix_zero]. }
    split; [now rewrite assign_rows_idempotent|].
    intros bbB. eexists. split; [reflexivity|]. split; [now intros ->|].
    intros k Hk. rewrite !assign_rows_lookup, L.
    replace ((0 <=? k) && (k <? 0 + Z.of_nat (length (boundingBoxes currFrame)))) with true
      by (symmetry; apply andb_true_iff; split; [apply Z.leb_le | apply Z.ltb_lt]; lia).
    split; [|reflexivity].
    destruct (lookup_lt_is_Some_2 M (Z.to_nat (k - 0))) as [row Hrow]; [lia|].
    rewrite Hrow. cbn [fmap option_fmap option_map]. eauto.
Qed.

Lemma idempotent_on_unmutated_inputs_witness :
  (exists boxesB1,
      clusterLidarWithROI [push_lidarPoint (lidar_over 1 1) left_box; right_box]
                          [lidar_over 55 50; lidar_over 10 50] shrink_none
                          projection34 identity4 identity4 = Done boxesB1 /\
      forall i b bB,
        [left_box; right_box] !! i = Some b ->
        [push_lidarPoint (lidar_over 1 1) left_box; right_box] !! i = Some bB ->
        exists b1 bB1 added,
          [push_lidarPoint (lidar_over 10 50) left_box; right_box] !! i = Some b1 /\
          boxesB1 !! i = Some bB1 /\
          lidarPoints b1 = lidarPoints b ++ added /\
          lidarPoints bB1 = lidarPoints bB ++ added) /\
  matchBoundingBoxes pair_matches {[ 0 := 0; 1 := 1 ]} pair_frame pair_frame
  = Done {[ 0 := 0; 1 := 1 ]}.
Proof.
  split.
  - destruct (proj1 idempotent_on_unmutated_inputs
                [left_box; right_box]
                [push_lidarPoint (lidar_over 10 50) left_box; right_box]
                [lidar_over 55 50; lidar_over 10 50] shrink_none
                projection34 identity4 identity4)
      with (boxesB := [push_lidarPoint (lidar_over 1 1) left_box; right_box])
      as (boxesB1 & Hrun & _ & H).
    + vm_compute. reflexivity.
    + reflexivity.
    + exists boxesB1. split; [exact Hrun | exact H].
  - apply (proj2 idempotent_on_unmutated_inputs pair_matches ∅ {[ 0 := 0; 1 := 1 ]}
                 pair_frame pair_frame).
    vm_compute. reflexivity.
Defined.

(** X26.  clusterLidarWithROI, lines 15-60: the function appends to the
    [lidarPoints] of the Regions it is given and never clears them.  When it
    is called a second time on the Regions as the first call left them, with
    the same points, shrink factor and matrices, the second call returns and
    each Region holds its former points followed, twice, by the points the
    first call appended to it. *)
Theorem clusterLidarWithROI_on_its_output_appends_again
    (boundingBoxes boxes1 : list BoundingBox)
    (points : list LidarPoint) (shrinkFactor : float32) (P_rect_xx R_rect_xx RT : Mat) :
  clusterLidarWithROI boundingBoxes points shrinkFactor P_rect_xx R_rect_xx RT
  = Done boxes1 ->
  exists boxes2,
    clusterLidarWithROI boxes1 points shrinkFactor P_rect_xx R_rect_xx RT = Done boxes2 /\
    forall i b, boundingBoxes !! i = Some b ->
      exists b1 b2,
        boxes1 !! i = Some b1 /\ boxes2 !! i = Some b2 /\
        let added := owned_points shrinkFactor P_rect_xx R_rect_xx RT
                                  (map roi boundingBoxes) i points in
        lidarPoints b1 = lidarPoints b ++ added /\
        lidarPoints b2 = lidarPoints b ++ added ++ added.
Proof.
  unfold clusterLidarWithROI. intros H.
  destruct (cluster_loop_Done _ _ _ _ _ _ _ H) as [Hp [->|Hb]].
  - cbn [foldM] in H. injection H as <-. exists boundingBoxes.
    split; [reflexivity|]. intros i b Hi. exists b, b.
    repeat split; try assumption; unfold owned_points; simpl; now rewrite app_nil_r.
  - destruct (cluster_loop_spec shrinkFactor P_rect_xx R_rect_xx RT
                (map roi boundingBoxes) points Hp boundingBoxes eq_refl Hb)
      as (boxes1' & Hrun & Hr & S1).
    rewrite H in Hrun. injection Hrun as <-.
    destruct (cluster_loop_spec shrinkFactor P_rect_xx R_rect_xx RT
                (map roi boundingBoxes) points Hp boxes1 Hr
                (Forall_shrinkable_rois _ _ _ Hr Hb))
      as (boxes2 & Hrun2 & _ & S2).
    exists boxes2. split; [exact Hrun2|]. intros i b Hi.
    destruct (S1 i b Hi) as (b1 & Hb1 & _ & _ & _ & L1).
    destruct (S2 i b1 Hb1) as (b2 & Hb2 & _ & _ & _ & L2).
    exists b1, b2. split; [exact Hb1|]. split; [exact Hb2|]. cbv zeta.
    split; [exact L1|]. rewrite L2, L1, <- app_assoc. reflexivity.
Qed.

Lemma clusterLidarWithROI_on_its_output_appends_again_witness :
  clusterLidarWithROI [left_box; right_box] [lidar_deep_right; lidar_deep_edge]
                      shrink_half magnify4 identity4 identity4
  = Done [left_box; push_lidarPoint lidar_deep_right right_box] /\
  exists boxes2,
    clusterLidarWithROI [left_box; push_lidarPoint lidar_deep_right right_box]
                        [lidar_deep_right; lidar_deep_edge]
                        shrink_half magnify4 identity4 identity4 = Done boxes2 /\
    (lidarPoints <$> boxes2 !! 0%nat) = Some [] /\
    (lidarPoints <$> boxes2 !! 1%nat) = Some [lidar_deep_right; lidar_deep_right].
Proof.
  split; [vm_compute; reflexivity|].
  destruct (clusterLidarWithROI_on_its_output_appends_again
              [left_box; right_box] [left_box; push_lidarPoint lidar_deep_right right_box]
              [lidar_deep_right; lidar_deep_edge]
              shrink_half magnify4 identity4 identity4) as (boxes2 & Hrun & H).
  - vm_compute. reflexivity.
  - exists boxes2. split; [exact Hrun|].
    destruct (H 0%nat left_box eq_refl) as (b1 & b2 & Hb1 & Hb2 & _ & L0).
    destruct (H 1%nat right_box eq_refl) as (c1 & c2 & Hc1 & Hc2 & _ & L1).
    rewrite Hb2, Hc2. cbn [fmap option_fmap option_map]. rewrite L0, L1.
    split; vm_compute; reflexivity.
Defined.
